(** * json-viewer: find / highlight / best-effort reformat core

    A shallow embedding of the position-tracking core of the viewer:

    - [FindMatches]          src/find/findMatches.ts        (computeFindMatches)
    - [HighlightedTextarea]  components/HighlightedTextarea (clampRanges, renderWithHighlights)
    - [FormatJsonBestEffort] src/format/formatJsonBestEffort.ts
    - [Utils]                src/format/utils.ts            (ensureFinalNewline)
    - [App]                  src/App.tsx                    (gotoFindIndex and friends)

    JavaScript strings are sequences of UTF-16 code units and are modelled as
    lists of code units; JavaScript numbers that are used as indices are
    modelled as [Z].  Operations that may raise, and loops whose termination
    is not structural, live in the [outcome] monad. *)

From Stdlib Require Import List ZArith NArith Lia Bool Sorted Permutation.
From Stdlib Require String Ascii.
Import ListNotations.
Import String.StringSyntax.
Delimit Scope string_scope with string.
Open Scope Z_scope.

(* ------------------------------------------------------------------ *)
(** ** Completion records: normal return, raised exception, or a loop that
       was cut off by its iteration budget *)

Inductive outcome (A : Type) : Type :=
| Returns (a : A)
| Throws (message : list N)
| OutOfFuel.

Arguments Returns {A} a.
Arguments Throws {A} message.
Arguments OutOfFuel {A}.

Definition bind {A B : Type} (m : outcome A) (k : A -> outcome B) : outcome B :=
  match m with
  | Returns a => k a
  | Throws msg => Throws msg
  | OutOfFuel => OutOfFuel
  end.

Notation "x <- m ;; k" := (bind m (fun x => k))
  (at level 61, m at next level, right associativity).

(** What one pass through a loop body decides. *)
Inductive loop_step (S R : Type) : Type :=
| Continue (s : S)
| Break (r : R).

Arguments Continue {S R} s.
Arguments Break {S R} r.

(** A [while]/[for] loop whose body is [step]: at most [fuel] passes. *)
Fixpoint run_loop {S R : Type} (step : S -> outcome (loop_step S R))
    (fuel : nat) (s : S) : outcome R :=
  match fuel with
  | O => OutOfFuel
  | Datatypes.S fuel' =>
      d <- step s ;;
      match d with
      | Break r => Returns r
      | Continue s' => run_loop step fuel' s'
      end
  end.

(* ------------------------------------------------------------------ *)
(** ** JavaScript strings *)

Definition jsstring : Type := list N.

Module JS.

(** An ASCII literal as a JavaScript string. *)
Definition lit (s : String.string) : jsstring :=
  map Ascii.N_of_ascii (String.list_ascii_of_string s).
Arguments lit s%_string.

Definition length (s : jsstring) : Z := Z.of_nat (List.length s).

Fixpoint eqb (a b : jsstring) : bool :=
  match a, b with
  | [], [] => true
  | x :: a', y :: b' => N.eqb x y && eqb a' b'
  | _, _ => false
  end.

(** [!s]: the empty string is the only falsy string. *)
Definition is_empty (s : jsstring) : bool :=
  match s with [] => true | _ => false end.

(** [s[k]]: [None] stands for [undefined]. *)
Definition get (s : jsstring) (k : Z) : option N :=
  if k <? 0 then None else nth_error s (Z.to_nat k).

(** [a[k]] for an array. *)
Definition get_index {A : Type} (a : list A) (k : Z) : option A :=
  if k <? 0 then None else nth_error a (Z.to_nat k).

(** [s[k]], with [undefined] read as the empty string. *)
Definition get_or_empty (s : jsstring) (k : Z) : jsstring :=
  match get s k with Some c => [c] | None => [] end.

(** Relative index resolution shared by [slice]'s two arguments. *)
Definition rel_index (len k : Z) : Z :=
  if k <? 0 then Z.max (len + k) 0 else Z.min k len.

(** [s.slice(from, to)]. *)
Definition slice (s : jsstring) (from to : Z) : jsstring :=
  let len := length s in
  let a := rel_index len from in
  let b := rel_index len to in
  firstn (Z.to_nat (b - a)) (skipn (Z.to_nat a) s).

(** [s.slice(from)]. *)
Definition slice_from (s : jsstring) (from : Z) : jsstring :=
  slice s from (length s).

Fixpoint starts_with (needle hay : jsstring) : bool :=
  match needle, hay with
  | [], _ => true
  | x :: n', y :: h' => N.eqb x y && starts_with n' h'
  | _ :: _, [] => false
  end.

(** Leftmost occurrence of [needle] in the suffix [hay] that begins at
    absolute position [k]. *)
Fixpoint index_from (needle hay : jsstring) (k : nat) : option nat :=
  if starts_with needle hay then Some k
  else match hay with
       | [] => None
       | _ :: hay' => index_from needle hay' (S k)
       end.

(** [hay.indexOf(needle, position)]; the position is clamped into
    [0, hay.length] and [-1] reports absence. *)
Definition indexOf (hay needle : jsstring) (position : Z) : Z :=
  let p := Z.to_nat (Z.min (Z.max position 0) (length hay)) in
  match index_from needle (skipn p hay) p with
  | Some k => Z.of_nat k
  | None => -1
  end.

(** [s.endsWith(suffix)]. *)
Definition endsWith (s suffix : jsstring) : bool :=
  starts_with (rev suffix) (rev s).

(** [s.replace(c, empty)] for a one-code-unit search string [c]: drops
    the first occurrence only. *)
Fixpoint remove_first (c : N) (s : jsstring) : jsstring :=
  match s with
  | [] => []
  | x :: s' => if N.eqb x c then s' else x :: remove_first c s'
  end.

(** [parts.join(empty)]. *)
Definition join (parts : list jsstring) : jsstring := concat parts.

(** [s.repeat(count)]: a negative count is a RangeError. *)
Definition repeat (s : jsstring) (count : Z) : outcome jsstring :=
  if count <? 0 then Throws (lit "Invalid count value")
  else Returns (concat (List.repeat s (Z.to_nat count))).

Definition SPACE : N := 32%N.
Definition TAB : N := 9%N.
Definition LF : N := 10%N.
Definition CR : N := 13%N.
Definition NBSP : N := 160%N.
Definition QUOTE : N := 34%N.
Definition BACKSLASH : N := 92%N.

(** An ASCII literal between double quotes. *)
Definition quoted (s : String.string) : jsstring := QUOTE :: lit s ++ [QUOTE].
Arguments quoted s%_string.

(** [s.split(sep)] for a one-code-unit separator: a string without the
    separator is one piece, and a trailing separator leaves a last empty
    piece. *)
Fixpoint split_on (sep : N) (s : jsstring) : list jsstring :=
  match s with
  | [] => [[]]
  | c :: s' =>
      if N.eqb c sep then [] :: split_on sep s'
      else
        match split_on sep s' with
        | piece :: pieces => (c :: piece) :: pieces
        | [] => [[c]]
        end
  end.

(** [parts.join(sep)]. *)
Fixpoint join_with (sep : jsstring) (parts : list jsstring) : jsstring :=
  match parts with
  | [] => []
  | [piece] => piece
  | piece :: rest => piece ++ sep ++ join_with sep rest
  end.

(** [s.startsWith(prefix)]. *)
Definition startsWith (s prefix : jsstring) : bool := starts_with prefix s.

(** [s.charCodeAt(0)]; [None] stands for [NaN]. *)
Definition charCodeAt0 (s : jsstring) : option N :=
  match s with c :: _ => Some c | [] => None end.

(** Decimal digits, most significant first. *)
Fixpoint digits_of_uint (u : Decimal.uint) : jsstring :=
  match u with
  | Decimal.Nil => []
  | Decimal.D0 u' => 48%N :: digits_of_uint u'
  | Decimal.D1 u' => 49%N :: digits_of_uint u'
  | Decimal.D2 u' => 50%N :: digits_of_uint u'
  | Decimal.D3 u' => 51%N :: digits_of_uint u'
  | Decimal.D4 u' => 52%N :: digits_of_uint u'
  | Decimal.D5 u' => 53%N :: digits_of_uint u'
  | Decimal.D6 u' => 54%N :: digits_of_uint u'
  | Decimal.D7 u' => 55%N :: digits_of_uint u'
  | Decimal.D8 u' => 56%N :: digits_of_uint u'
  | Decimal.D9 u' => 57%N :: digits_of_uint u'
  end.

(** [String(n)] for a natural number below 2^53 (larger counts cannot
    arise from a string's length): its decimal digits. *)
Definition string_of_nat (n : nat) : jsstring := digits_of_uint (Nat.to_uint n).

End JS.

(* ------------------------------------------------------------------ *)
(** ** components/HighlightedTextarea: the range compositor *)

Module HighlightedTextarea.

Record HighlightRange : Type := mkRange {
  start : Z;  (* 0-based, inclusive *)
  end_ : Z    (* 0-based, exclusive *)
}.

Inductive Segment : Type :=
| SegText (value : jsstring)
| SegFind (value : jsstring) (isCurrent : bool)
| SegError (value : jsstring).

(** The comparator handed to [Array.prototype.sort]:
    [(a.start - b.start) || (a.end - b.end)]. *)
Definition compareRanges (a b : HighlightRange) : Z :=
  let d := start a - start b in
  if d =? 0 then end_ a - end_ b else d.

(** [out.sort(compareRanges)].  The comparator is a total order that only
    ties on equal records, so every correct sort yields the same array; a
    stable insertion sort stands for the engine's. *)
Fixpoint insert_range (r : HighlightRange) (l : list HighlightRange) : list HighlightRange :=
  match l with
  | [] => [r]
  | x :: l' => if compareRanges r x <=? 0 then r :: x :: l' else x :: insert_range r l'
  end.

Fixpoint sort_ranges (l : list HighlightRange) : list HighlightRange :=
  match l with
  | [] => []
  | x :: l' => insert_range x (sort_ranges l')
  end.

(** The [for (const r of ranges)] loop of [clampRanges]. *)
Fixpoint clamp_each (textLen : Z) (ranges : list HighlightRange) : list HighlightRange :=
  match ranges with
  | [] => []
  | r :: rest =>
      let s := Z.max 0 (Z.min textLen (start r)) in
      let e := Z.max 0 (Z.min textLen (end_ r)) in
      if e <=? s then clamp_each textLen rest
      else mkRange s e :: clamp_each textLen rest
  end.

Definition clampRanges (textLen : Z) (ranges : option (list HighlightRange))
  : list HighlightRange :=
  match ranges with
  | None => []
  | Some [] => []
  | Some rs => sort_ranges (clamp_each textLen rs)
  end.

(** The mutable locals of [renderWithHighlights]. *)
Record RenderState : Type := mkRender {
  segs : list Segment;
  cursor : Z;
  errorRendered : bool
}.

Definition push (x : Segment) (st : RenderState) : RenderState :=
  mkRender (segs st ++ [x]) (cursor st) (errorRendered st).

Definition set_cursor (c : Z) (st : RenderState) : RenderState :=
  mkRender (segs st) c (errorRendered st).

Definition set_errorRendered (st : RenderState) : RenderState :=
  mkRender (segs st) (cursor st) true.

Definition pushText (s : jsstring) (st : RenderState) : RenderState :=
  if JS.is_empty s then st else push (SegText s) st.

(** Spaces still occupy width inside the highlighted span. *)
Definition error_glyph (ch : jsstring) : jsstring :=
  if JS.eqb ch [JS.SPACE] then [JS.NBSP] else ch.

Definition pushErrorChar (ch : jsstring) (st : RenderState) : RenderState :=
  push (SegError (error_glyph ch)) st.

(** [typeof errorPos === "number" && !errorRendered && errorPos >= lo && errorPos < hi] *)
Definition error_within (errorPos : option Z) (st : RenderState) (lo hi : Z) : bool :=
  match errorPos with
  | Some p => negb (errorRendered st) && (lo <=? p) && (p <? hi)
  | None => false
  end.

(** [idx === activeFindIndex] *)
Definition is_active (idx : nat) (activeFindIndex : option Z) : bool :=
  match activeFindIndex with
  | Some a => Z.of_nat idx =? a
  | None => false
  end.

(** The error position as a number, for use under a guard that has already
    established that it is one. *)
Definition pos_of (errorPos : option Z) : Z :=
  match errorPos with Some p => p | None => 0 end.

(** Text before match (with optional error highlight inside it). *)
Definition gap_step (text : jsstring) (errorPos : option Z) (start : Z)
    (st : RenderState) : RenderState :=
  let p := pos_of errorPos in
  if cursor st <? start then
    let st :=
      if error_within errorPos st (cursor st) start then
        let st := pushText (JS.slice text (cursor st) p) st in
        let st := pushErrorChar (JS.get_or_empty text p) st in
        let st := set_errorRendered st in
        let st := set_cursor (p + 1) st in
        if cursor st <? start then pushText (JS.slice text (cursor st) start) st
        else st
      else pushText (JS.slice text (cursor st) start) st in
    set_cursor start st
  else st.

(** Match itself (split around error highlight if it falls inside). *)
Definition match_step (text : jsstring) (errorPos : option Z)
    (activeFindIndex : option Z) (idx : nat) (start e : Z)
    (st : RenderState) : RenderState :=
  let p := pos_of errorPos in
  if error_within errorPos st start e then
    let before := JS.slice text start p in
    let ch := JS.get_or_empty text p in
    let after := JS.slice text (p + 1) e in
    let cur := is_active idx activeFindIndex in
    let st := if JS.is_empty before then st else push (SegFind before cur) st in
    let st := pushErrorChar ch st in
    let st := set_errorRendered st in
    let st := if JS.is_empty after then st else push (SegFind after cur) st in
    set_cursor e st
  else
    let st := push (SegFind (JS.slice text start e) (is_active idx activeFindIndex)) st in
    set_cursor e st.

(** One iteration of the [for (idx ...)] loop, for the range at [idx]. *)
Definition range_step (text : jsstring) (errorPos : option Z)
    (activeFindIndex : option Z) (idx : nat) (r : HighlightRange)
    (st : RenderState) : RenderState :=
  if end_ r <=? cursor st then st
  else
    let start := if start r <? cursor st then cursor st else start r in
    match_step text errorPos activeFindIndex idx start (end_ r)
      (gap_step text errorPos start st).

(** [for (let idx = 0; idx < ranges.length; idx += 1) { let { start, end } = ranges[idx]; ... }]
    with [remaining = ranges.length - idx].  Destructuring [undefined] is a
    TypeError. *)
Fixpoint for_ranges (text : jsstring) (errorPos activeFindIndex : option Z)
    (ranges : list HighlightRange) (remaining idx : nat) (st : RenderState)
  : outcome RenderState :=
  match remaining with
  | O => Returns st
  | S remaining' =>
      match nth_error ranges idx with
      | None => Throws (JS.lit "Cannot destructure property 'start' of 'ranges[idx]' as it is undefined.")
      | Some r =>
          for_ranges text errorPos activeFindIndex ranges remaining' (S idx)
            (range_step text errorPos activeFindIndex idx r st)
      end
  end.

(** Tail (with optional error highlight inside it). *)
Definition tail_step (text : jsstring) (errorPos : option Z) (st : RenderState)
  : RenderState :=
  let p := pos_of errorPos in
  if cursor st <? JS.length text then
    if error_within errorPos st (cursor st) (JS.length text) then
      let st := pushText (JS.slice text (cursor st) p) st in
      let st := pushErrorChar (JS.get_or_empty text p) st in
      let st := set_errorRendered st in
      let st := set_cursor (p + 1) st in
      pushText (JS.slice_from text (cursor st)) st
    else pushText (JS.slice_from text (cursor st)) st
  else st.

(** What [renderWithHighlights] returns: the raw text, the error-only
    three-part fragment, or the fragment mapped from the segment list. *)
Inductive ReactNode : Type :=
| NodeText (text : jsstring)
| NodeErrorOnly (before highlighted after : jsstring)
| NodeSegments (segs : list Segment).

(** [highlightPosition] is [None] for [null], [undefined] and non-finite
    numbers, which is what the [typeof]/[Number.isFinite] test maps to
    [null]; offsets are integers. *)
Definition renderWithHighlights (text : jsstring) (highlightPosition : option Z)
    (findRanges : option (list HighlightRange)) (activeFindIndex : option Z)
  : outcome ReactNode :=
  let ranges := clampRanges (JS.length text) findRanges in
  let errorPos := highlightPosition in
  st <- for_ranges text errorPos activeFindIndex ranges (List.length ranges) 0
          (mkRender [] 0 false) ;;
  let st := tail_step text errorPos st in
  let error_only :=
    match segs st, errorPos with
    | [], Some p => (0 <=? p) && (p <? JS.length text)
    | _, _ => false
    end in
  if error_only then
    let p := pos_of errorPos in
    Returns (NodeErrorOnly (JS.slice text 0 p)
               (match JS.get text p with
                | Some c => if N.eqb c JS.SPACE then [JS.NBSP] else [c]
                | None => []
                end)
               (JS.slice_from text (p + 1)))
  else if Nat.eqb (List.length (segs st)) 0 then Returns (NodeText text)
  else Returns (NodeSegments (segs st)).

(** The children of the returned node as display segments: bare text
    children are plain segments, [ht-highlight] spans are error segments
    and [ht-find] spans are find segments. *)
Definition node_segments (n : ReactNode) : list Segment :=
  match n with
  | NodeText t => [SegText t]
  | NodeErrorOnly b h a => [SegText b; SegError h; SegText a]
  | NodeSegments l => l
  end.

Definition seg_value (s : Segment) : jsstring :=
  match s with
  | SegText v => v
  | SegFind v _ => v
  | SegError v => v
  end.

Definition segs_text (l : list Segment) : jsstring := concat (map seg_value l).

(** Concatenation of the text carried by the node's segments. *)
Definition node_text (n : ReactNode) : jsstring := segs_text (node_segments n).

Definition is_error (s : Segment) : bool :=
  match s with SegError _ => true | _ => false end.

(** Number of segments tagged as the error highlight. *)
Definition error_count (n : ReactNode) : nat :=
  List.length (filter is_error (node_segments n)).

(** The gutter of [HighlightedTextarea]: [lineNumbersText].  The line
    count is [value.split(newline).length || 1]; the numbers 1 .. lines
    are joined by newlines and one more newline is appended. *)
Definition lineNumbersText (value : jsstring) : jsstring :=
  let n := List.length (JS.split_on JS.LF value) in
  let lines := if Nat.eqb n 0 then 1%nat else n in
  let nums := JS.join_with [JS.LF] (map (fun i => JS.string_of_nat (i + 1)) (seq 0 lines)) in
  nums ++ [JS.LF].

End HighlightedTextarea.

(* ------------------------------------------------------------------ *)
(** ** src/find/findMatches.ts: the match engine *)

Module FindMatches.

Record FindOptions : Type := mkOptions {
  query : jsstring;
  matchCase : bool;
  wholeWord : bool;
  regex : bool
}.

Record FindMatch : Type := mkMatch {
  start : Z;  (* 0-based, inclusive *)
  end_ : Z    (* 0-based, exclusive *)
}.

Record FindResult : Type := mkResult {
  matches : list FindMatch;
  error : option jsstring
}.

(** [new RegExp(pattern, flags)] either yields a regular expression or
    raises a SyntaxError carrying a message. *)
Inductive compiled (R : Type) : Type :=
| Compiled (re : R)
| SyntaxError (message : jsstring).

Arguments Compiled {R} re.
Arguments SyntaxError {R} message.

(** The built-ins of the host that [computeFindMatches] calls and that are
    not a few lines of algorithm: the regular-expression engine and the
    Unicode lower-casing table.  [regexp_search re text i] is the engine's
    scan for the leftmost match at or after [i], as [(start, end)]. *)
Class Host : Type := {
  RegExp : Type;
  new_RegExp : jsstring -> jsstring -> compiled RegExp;
  regexp_search : RegExp -> jsstring -> nat -> option (nat * nat);
  toLowerCase : jsstring -> jsstring
}.

(** [/^[A-Za-z0-9_]$/.test(ch)] *)
Definition isWordChar (ch : jsstring) : bool :=
  match ch with
  | [c] =>
      ((65 <=? c) && (c <=? 90) || (97 <=? c) && (c <=? 122)
       || (48 <=? c) && (c <=? 57) || (c =? 95))%N
  | _ => false
  end.

Definition isWholeWord (text : jsstring) (start end_ : Z) : bool :=
  let leftOk :=
    if start <=? 0 then true else negb (isWordChar (JS.get_or_empty text (start - 1))) in
  let rightOk :=
    if JS.length text <=? end_ then true else negb (isWordChar (JS.get_or_empty text end_)) in
  leftOk && rightOk.

(** Guardrail: don't let extremely repetitive matches lock the UI. *)
Definition MAX_MATCHES : Z := 5000.

Section WithHost.
Context {H : Host}.

(** [re.exec(text)] on a global regular expression whose [lastIndex] is
    [lastIndex]: the match (its [index] and [m[0]]) and the new [lastIndex]. *)
Definition exec (re : RegExp) (text : jsstring) (lastIndex : Z)
  : option (Z * jsstring) * Z :=
  if JS.length text <? lastIndex then (None, 0)
  else
    match regexp_search re text (Z.to_nat lastIndex) with
    | None => (None, 0)
    | Some (s, e) =>
        (Some (Z.of_nat s, JS.slice text (Z.of_nat s) (Z.of_nat e)), Z.of_nat e)
    end.

(** Body of [while ((m = re.exec(text)) !== null)]; the state is
    [(re.lastIndex, matches)]. *)
Definition regex_step (re : RegExp) (text : jsstring) (wholeWord : bool)
    (st : Z * list FindMatch) : outcome (loop_step (Z * list FindMatch) (list FindMatch)) :=
  let '(lastIndex, matches) := st in
  let '(m, lastIndex) := exec re text lastIndex in
  match m with
  | None => Returns (Break matches)
  | Some (index, value) =>
      let start := index in
      let end_ := start + JS.length value in
      (* Avoid infinite loops for zero-length matches. *)
      if JS.length value =? 0 then
        if lastIndex <? JS.length text then Returns (Continue (lastIndex + 1, matches))
        else Returns (Break matches)
      else if wholeWord && negb (isWholeWord text start end_) then
        Returns (Continue (lastIndex, matches))
      else
        let matches := matches ++ [mkMatch start end_] in
        if MAX_MATCHES <=? Z.of_nat (List.length matches) then Returns (Break matches)
        else Returns (Continue (lastIndex, matches))
  end.

(** Body of the literal [while (true)] loop; the state is [(i, matches)]. *)
Definition literal_step (hay needle text : jsstring) (wholeWord : bool)
    (st : Z * list FindMatch) : outcome (loop_step (Z * list FindMatch) (list FindMatch)) :=
  let '(i, matches) := st in
  let idx := JS.indexOf hay needle i in
  if idx =? -1 then Returns (Break matches)
  else
    let start := idx in
    let end_ := idx + JS.length needle in
    let next := idx + Z.max (JS.length needle) 1 in
    if negb wholeWord || isWholeWord text start end_ then
      let matches := matches ++ [mkMatch start end_] in
      if MAX_MATCHES <=? Z.of_nat (List.length matches) then Returns (Break matches)
      else Returns (Continue (next, matches))
    else Returns (Continue (next, matches)).

(** Every pass of either loop moves its scan position forward inside the
    subject, so this many passes are enough. *)
Definition loop_budget (subject : jsstring) : nat := S (S (List.length subject)).

(** The template literal that is [g] alone under [matchCase] and [gi]
    otherwise. *)
Definition regexp_flags (options : FindOptions) : jsstring :=
  JS.lit "g" ++ (if matchCase options then [] else JS.lit "i").

Definition computeFindMatches_within (fuel : jsstring -> nat)
    (text : jsstring) (options : FindOptions) : outcome FindResult :=
  let query := query options in
  if JS.is_empty query then Returns (mkResult [] None)
  else if regex options then
    let flags := regexp_flags options in
    match new_RegExp query flags with
    | SyntaxError message =>
        Returns (mkResult []
                   (Some (if JS.is_empty message then JS.lit "Invalid regular expression"
                          else message)))
    | Compiled re =>
        matches <- run_loop (regex_step re text (wholeWord options)) (fuel text) (0, []) ;;
        Returns (mkResult matches None)
    end
  else
    let hay := if matchCase options then text else toLowerCase text in
    let needle := if matchCase options then query else toLowerCase query in
    if JS.is_empty needle then Returns (mkResult [] None)
    else
      matches <- run_loop (literal_step hay needle text (wholeWord options)) (fuel hay) (0, []) ;;
      Returns (mkResult matches None).

Definition computeFindMatches (text : jsstring) (options : FindOptions)
  : outcome FindResult :=
  computeFindMatches_within loop_budget text options.

End WithHost.

End FindMatches.

(* ------------------------------------------------------------------ *)
(** ** A reference host

    A small backtracking engine for the fragment of the pattern language
    built from literal characters, [.], the greedy quantifiers [*], [+],
    [?], alternation and groups, with the priority order of the
    ECMAScript matcher (leftmost start, first alternative first, longest
    repetition first, no empty iteration).  Character classes, escapes,
    anchors, braces and lazy quantifiers are outside the fragment and are
    refused by [compile].  Case folding is the ASCII part of the tables. *)

Module MiniRegExp.

Inductive pattern : Type :=
| PEmpty
| PChar (c : N)
| PAny
| PSeq (a b : pattern)
| PAlt (a b : pattern)
| PStar (a : pattern).

(** An open group while parsing: the alternatives already closed by [|],
    the terms of the current alternative (latest first), and whether the
    latest term may still take a quantifier. *)
Record frame : Type := mkFrame {
  alts : list pattern;
  terms : list pattern;
  quantifiable : bool
}.

Definition empty_frame : frame := mkFrame [] [] false.

Definition seq_of (terms_rev : list pattern) : pattern :=
  fold_left (fun acc t => PSeq t acc) terms_rev PEmpty.

Definition close_frame (f : frame) : pattern :=
  fold_right PAlt (seq_of (terms f)) (alts f).

Definition add_term (t : pattern) (f : frame) : frame :=
  mkFrame (alts f) (t :: terms f) true.

Definition quantify (c : N) (t : pattern) : pattern :=
  if (c =? 42)%N then PStar t
  else if (c =? 43)%N then PSeq t (PStar t)
  else PAlt t PEmpty.

Definition is_quantifier (c : N) : bool :=
  ((c =? 42) || (c =? 43) || (c =? 63))%N.

Definition outside_fragment (c : N) : bool :=
  ((c =? 92) || (c =? 91) || (c =? 93) || (c =? 123) || (c =? 125)
   || (c =? 94) || (c =? 36))%N.

Fixpoint parse_chars (s : jsstring) (cur : frame) (outer : list frame)
  : FindMatches.compiled pattern :=
  match s with
  | [] =>
      match outer with
      | [] => FindMatches.Compiled (close_frame cur)
      | _ :: _ => FindMatches.SyntaxError (JS.lit "Unterminated group")
      end
  | c :: s' =>
      if (c =? 40)%N then
        match s' with
        | 63%N :: _ => FindMatches.SyntaxError (JS.lit "Invalid group")
        | _ => parse_chars s' empty_frame (cur :: outer)
        end
      else if (c =? 41)%N then
        match outer with
        | [] => FindMatches.SyntaxError (JS.lit "Unmatched ')'")
        | o :: outer' => parse_chars s' (add_term (close_frame cur) o) outer'
        end
      else if (c =? 124)%N then
        parse_chars s' (mkFrame (alts cur ++ [seq_of (terms cur)]) [] false) outer
      else if is_quantifier c then
        match terms cur, quantifiable cur with
        | t :: ts, true => parse_chars s' (mkFrame (alts cur) (quantify c t :: ts) false) outer
        | _, _ => FindMatches.SyntaxError (JS.lit "Nothing to repeat")
        end
      else if (c =? 46)%N then parse_chars s' (add_term PAny cur) outer
      else if outside_fragment c then
        FindMatches.SyntaxError (JS.lit "Invalid regular expression")
      else parse_chars s' (add_term (PChar c) cur) outer
  end.

Record regexp : Type := mkRegexp {
  source : pattern;
  ignoreCase : bool
}.

Definition compile (pattern flags : jsstring) : FindMatches.compiled regexp :=
  match parse_chars pattern empty_frame [] with
  | FindMatches.Compiled p => FindMatches.Compiled (mkRegexp p (existsb (N.eqb 105) flags))
  | FindMatches.SyntaxError m => FindMatches.SyntaxError m
  end.

(** Canonicalize: upper-case when the [i] flag is set. *)
Definition canonicalize (ic : bool) (c : N) : N :=
  if ic && (97 <=? c)%N && (c <=? 122)%N then (c - 32)%N else c.

Definition is_line_terminator (c : N) : bool :=
  ((c =? 10) || (c =? 13) || (c =? 8232) || (c =? 8233))%N.

(** All the ways [p] matches a prefix of [s], as the remaining suffixes,
    in the order the backtracking matcher tries them. *)
Fixpoint match_here (ic : bool) (p : pattern) (s : jsstring) : list jsstring :=
  match p with
  | PEmpty => [s]
  | PChar c =>
      match s with
      | x :: s' => if N.eqb (canonicalize ic x) (canonicalize ic c) then [s'] else []
      | [] => []
      end
  | PAny =>
      match s with
      | x :: s' => if is_line_terminator x then [] else [s']
      | [] => []
      end
  | PSeq a b => flat_map (match_here ic b) (match_here ic a s)
  | PAlt a b => match_here ic a s ++ match_here ic b s
  | PStar a =>
      (fix star (n : nat) (s : jsstring) {struct n} : list jsstring :=
         match n with
         | O => [s]
         | S n' =>
             flat_map
               (fun s' => if (List.length s' <? List.length s)%nat then star n' s' else [])
               (match_here ic a s)
             ++ [s]
         end) (S (List.length s)) s
  end.

(** Try each start position in turn; [k] is the absolute position of
    [suffix]. *)
Fixpoint search_from (ic : bool) (p : pattern) (suffix : jsstring) (k : nat)
  : option (nat * nat) :=
  match match_here ic p suffix with
  | rest :: _ => Some (k, (k + (List.length suffix - List.length rest))%nat)
  | [] =>
      match suffix with
      | [] => None
      | _ :: suffix' => search_from ic p suffix' (S k)
      end
  end.

Definition search (re : regexp) (text : jsstring) (i : nat) : option (nat * nat) :=
  if (List.length text <? i)%nat then None
  else search_from (ignoreCase re) (source re) (skipn i text) i.

Definition ascii_lower (s : jsstring) : jsstring :=
  map (fun c => if (65 <=? c)%N && (c <=? 90)%N then (c + 32)%N else c) s.

#[export] Instance host : FindMatches.Host := {|
  FindMatches.RegExp := regexp;
  FindMatches.new_RegExp := compile;
  FindMatches.regexp_search := search;
  FindMatches.toLowerCase := ascii_lower
|}.

End MiniRegExp.

(* ------------------------------------------------------------------ *)
(** ** src/format/utils.ts *)

Module Utils.

Definition ensureFinalNewline (input : jsstring) : jsstring :=
  if JS.length input =? 0 then input
  else if JS.endsWith input [JS.LF] then input else input ++ [JS.LF].

(** [input.replace(/\r\n/g, newline)]: every CR LF pair, scanning left to
    right, becomes one LF. *)
Fixpoint replace_crlf (s : jsstring) : jsstring :=
  match s with
  | [] => []
  | c :: s' =>
      match s' with
      | d :: s'' =>
          if N.eqb c JS.CR && N.eqb d JS.LF then JS.LF :: replace_crlf s''
          else c :: replace_crlf s'
      | [] => [c]
      end
  end.

(** [.replace(/\r/g, newline)]. *)
Definition replace_cr (s : jsstring) : jsstring :=
  map (fun c => if N.eqb c JS.CR then JS.LF else c) s.

Definition normalizeNewlines (input : jsstring) : jsstring :=
  replace_cr (replace_crlf input).

Definition is_blank (c : N) : bool := N.eqb c JS.SPACE || N.eqb c JS.TAB.

(** [line.replace(/[ \t]+$/g, empty)]: without the multiline flag the
    pattern matches once, the maximal run of spaces and tabs that ends the
    string, and that run is dropped. *)
Fixpoint strip_trailing_blank (line : jsstring) : jsstring :=
  match line with
  | [] => []
  | c :: rest =>
      let rest' := strip_trailing_blank rest in
      if is_blank c && JS.is_empty rest' then [] else c :: rest'
  end.

Definition trimTrailingWhitespacePerLine (input : jsstring) : jsstring :=
  JS.join_with [JS.LF] (map strip_trailing_blank (JS.split_on JS.LF input)).

Definition BOM : N := 65279%N.

Definition stripBOM (input : jsstring) : jsstring :=
  match JS.charCodeAt0 input with
  | Some c => if N.eqb c BOM then JS.slice_from input 1 else input
  | None => input
  end.

End Utils.

(* ------------------------------------------------------------------ *)
(** ** src/format/formatContent.ts: the whitespace-only formatter *)

Module FormatContent.

Inductive ContentType : Type :=
| json | xml | python | javascript | plaintext | unknown.

Record FormatResult : Type := mkFormatResult {
  type : ContentType;
  label : jsstring;
  output : jsstring
}.

Definition looksLikeJson (trimmed : jsstring) : bool :=
  JS.startsWith trimmed (JS.lit "{") || JS.startsWith trimmed (JS.lit "[").

Definition looksLikeXml (trimmed : jsstring) : bool :=
  JS.startsWith trimmed (JS.lit "<").

(** [.replace(/\t/g, four spaces)]. *)
Definition expand_tabs (s : jsstring) : jsstring :=
  flat_map (fun c => if N.eqb c JS.TAB then JS.lit "    " else [c]) s.

Definition formatPythonBasic (raw : jsstring) : FormatResult :=
  let normalized := expand_tabs (Utils.normalizeNewlines raw) in
  let output := Utils.ensureFinalNewline (Utils.trimTrailingWhitespacePerLine normalized) in
  mkFormatResult python (JS.lit "Python (basic)") output.

End FormatContent.

(* ------------------------------------------------------------------ *)
(** ** src/format/formatJsonBestEffort.ts: the position-preserving reformatter *)

Module FormatJsonBestEffort.

Record LineColumn : Type := mkLineColumn {
  line : Z;
  column : Z
}.

Record BestEffortFormatResult : Type := mkFormatResult {
  output : jsstring;
  (* Highlight location in the OUTPUT (1-based), if we were given an error position. *)
  highlight : option LineColumn
}.

Definition is_whitespace (c : jsstring) : bool :=
  JS.eqb c [JS.SPACE] || JS.eqb c [JS.TAB] || JS.eqb c [JS.LF] || JS.eqb c [JS.CR].

(** The [for (let i = start; i < limit; i += 1)] scan of
    [nextNonWhitespaceIndex], over the characters from [i] on.  A position
    past the end reads [undefined], which is not whitespace. *)
Fixpoint scan_non_whitespace (chars : jsstring) (i limit : Z) : Z :=
  if limit <=? i then -1
  else
    match chars with
    | [] => i
    | c :: chars' =>
        if is_whitespace [c] then scan_non_whitespace chars' (i + 1) limit else i
    end.

Definition nextNonWhitespaceIndex (text : jsstring) (start limit : Z) : Z :=
  scan_non_whitespace (skipn (Z.to_nat start) text) start limit.

(** The [for (let i = 0; i < p; i += 1)] scan of [offsetToLineColumn]. *)
Fixpoint scan_line_column (chars : jsstring) (line column : Z) : LineColumn :=
  match chars with
  | [] => mkLineColumn line column
  | c :: chars' =>
      if (c =? JS.LF)%N then scan_line_column chars' (line + 1) 1
      else scan_line_column chars' line (column + 1)
  end.

Definition offsetToLineColumn (text : jsstring) (position : Z) : LineColumn :=
  let p := Z.max 0 (Z.min position (JS.length text)) in
  scan_line_column (firstn (Z.to_nat p) text) 1 1.

Definition sentinel : jsstring := [0%N].

(** The loop variable and the mutable locals of [formatJsonBestEffort]. *)
Record FormatState : Type := mkFormat {
  i : Z;
  out : list jsstring;
  indent : Z;
  inString : bool;
  escaping : bool;
  pendingSpace : bool;
  insertedSentinel : bool
}.

Definition out_push (parts : list jsstring) (st : FormatState) : FormatState :=
  mkFormat (i st) (out st ++ parts) (indent st) (inString st) (escaping st)
    (pendingSpace st) (insertedSentinel st).

Definition set_i (j : Z) (st : FormatState) : FormatState :=
  mkFormat j (out st) (indent st) (inString st) (escaping st)
    (pendingSpace st) (insertedSentinel st).

Definition set_indent (n : Z) (st : FormatState) : FormatState :=
  mkFormat (i st) (out st) n (inString st) (escaping st)
    (pendingSpace st) (insertedSentinel st).

Definition set_inString (b : bool) (st : FormatState) : FormatState :=
  mkFormat (i st) (out st) (indent st) b (escaping st)
    (pendingSpace st) (insertedSentinel st).

Definition set_escaping (b : bool) (st : FormatState) : FormatState :=
  mkFormat (i st) (out st) (indent st) (inString st) b
    (pendingSpace st) (insertedSentinel st).

Definition set_pendingSpace (b : bool) (st : FormatState) : FormatState :=
  mkFormat (i st) (out st) (indent st) (inString st) (escaping st)
    b (insertedSentinel st).

Definition set_insertedSentinel (st : FormatState) : FormatState :=
  mkFormat (i st) (out st) (indent st) (inString st) (escaping st)
    (pendingSpace st) true.

(** [errorPosition] is [None] for [null], [undefined] and non-finite
    numbers, which the [typeof]/[Number.isFinite] guards all ignore. *)
Definition maybeInsertSentinel (errorPosition : option Z) (srcIndex : Z)
    (st : FormatState) : FormatState :=
  if insertedSentinel st then st
  else
    match errorPosition with
    | None => st
    | Some p =>
        if negb (srcIndex =? p) then st
        else set_insertedSentinel (out_push [sentinel] st)
    end.

Definition pushIndent (st : FormatState) : outcome FormatState :=
  pad <- JS.repeat (JS.lit "  ") (Z.max 0 (indent st)) ;;
  Returns (out_push [pad] st).

(** [out[out.length - 1]], with [undefined] read as the empty string. *)
Definition last_out (st : FormatState) : jsstring := List.last (out st) [].

(** The body of the main loop for the character [ch = raw[i]], up to its
    [continue] (or its end); the loop's own [i += 1] is in [format_step]. *)
Definition format_body (raw : jsstring) (limit : Z) (ch : jsstring)
    (st : FormatState) : outcome FormatState :=
  if inString st then
    let st := out_push [ch] st in
    if escaping st then Returns (set_escaping false st)
    else if JS.eqb ch [JS.BACKSLASH] then Returns (set_escaping true st)
    else if JS.eqb ch [JS.QUOTE] then Returns (set_inString false st)
    else Returns st
  else if is_whitespace ch then
    (* Outside strings: normalize whitespace. *)
    Returns (set_pendingSpace true st)
  else
    let st :=
      if pendingSpace st then
        let last := last_out st in
        let lastIsNewline := JS.endsWith last [JS.LF] in
        let st :=
          if negb lastIsNewline && (0 <? JS.length last) then out_push [JS.lit " "] st
          else st in
        set_pendingSpace false st
      else st in
    if JS.eqb ch [JS.QUOTE] then Returns (out_push [ch] (set_inString true st))
    else if JS.eqb ch (JS.lit "{") || JS.eqb ch (JS.lit "[") then
      (* Handle {} / [] compactly. *)
      let close := if JS.eqb ch (JS.lit "{") then JS.lit "}" else JS.lit "]" in
      let j := nextNonWhitespaceIndex raw (i st + 1) limit in
      if negb (j =? -1) && JS.eqb (JS.get_or_empty raw j) close then
        Returns (set_i j (out_push [ch; close] st))
      else
        let st := out_push [ch; [JS.LF]] st in
        let st := set_indent (indent st + 1) st in
        pushIndent st
    else if JS.eqb ch (JS.lit "}") || JS.eqb ch (JS.lit "]") then
      let st := out_push [[JS.LF]] st in
      let st := set_indent (Z.max 0 (indent st - 1)) st in
      st <- pushIndent st ;;
      Returns (out_push [ch] st)
    else if JS.eqb ch (JS.lit ",") then
      pushIndent (out_push [JS.lit ","; [JS.LF]] st)
    else if JS.eqb ch (JS.lit ":") then Returns (out_push [JS.lit ": "] st)
    else Returns (out_push [ch] st).

(** One pass of [for (let i = 0; i < limit; i += 1)]: the test, the body,
    the increment.  [raw[i]] past the end is [undefined]; pushed into [out]
    it joins as the empty string and it equals no character, which is how
    the empty string behaves here too. *)
Definition format_step (raw : jsstring) (errorPosition : option Z)
    (st : FormatState) : outcome (loop_step FormatState FormatState) :=
  let limit := JS.length raw in
  if i st <? limit then
    let st := maybeInsertSentinel errorPosition (i st) st in
    let ch := JS.get_or_empty raw (i st) in
    st <- format_body raw limit ch st ;;
    Returns (Continue (set_i (i st + 1) st))
  else Returns (Break st).

Definition initial : FormatState := mkFormat 0 [] 0 false false false false.

Definition formatJsonBestEffort_within (fuel : nat) (raw : jsstring)
    (errorPosition : option Z) : outcome BestEffortFormatResult :=
  st <- run_loop (format_step raw errorPosition) fuel initial ;;
  (* Sentinel at end-of-input (position === raw.length) *)
  let st :=
    match errorPosition with
    | Some p =>
        if negb (insertedSentinel st) && (p =? JS.length raw)
        then set_insertedSentinel (out_push [sentinel] st)
        else st
    | None => st
    end in
  let withSentinel := JS.join (out st) in
  let sentinelIndex := JS.indexOf withSentinel sentinel 0 in
  let highlight :=
    if 0 <=? sentinelIndex then Some (offsetToLineColumn withSentinel sentinelIndex)
    else None in
  let output := Utils.ensureFinalNewline (JS.remove_first 0%N withSentinel) in
  Returns (mkFormatResult output highlight).

(** The loop index grows on every pass, so one pass per character plus the
    closing test is enough. *)
Definition formatJsonBestEffort (raw : jsstring) (errorPosition : option Z)
  : outcome BestEffortFormatResult :=
  formatJsonBestEffort_within (S (List.length raw)) raw errorPosition.

End FormatJsonBestEffort.

(* ------------------------------------------------------------------ *)
(** ** src/App.tsx: match navigation *)

Module App.

(** The part of the component state that navigation reads and writes: the
    current match list, the active index, and the selection of the input
    textarea when it is mounted. *)
Record FindState : Type := mkFindState {
  findMatches : list FindMatches.FindMatch;
  activeFindIndex : Z;
  textarea : option (Z * Z)
}.

Definition gotoFindIndex (nextIndex : Z) (st : FindState) : outcome FindState :=
  let n := Z.of_nat (List.length (findMatches st)) in
  if n =? 0 then Returns st
  else
    let i := Z.rem (Z.rem nextIndex n + n) n in
    let st := mkFindState (findMatches st) i (textarea st) in
    let m := JS.get_index (findMatches st) i in
    match textarea st with
    | None => Returns st
    | Some _ =>
        (* Set selection immediately (even if not focused) so state is correct. *)
        match m with
        | None => Throws (JS.lit "Cannot read properties of undefined (reading 'start')")
        | Some m =>
            Returns (mkFindState (findMatches st) i
                       (Some (FindMatches.start m, FindMatches.end_ m)))
        end
    end.

Definition gotoNextMatch (st : FindState) : outcome FindState :=
  if Z.of_nat (List.length (findMatches st)) =? 0 then Returns st
  else gotoFindIndex (if activeFindIndex st <? 0 then 0 else activeFindIndex st + 1) st.

Definition gotoPrevMatch (st : FindState) : outcome FindState :=
  if Z.of_nat (List.length (findMatches st)) =? 0 then Returns st
  else gotoFindIndex (if activeFindIndex st <? 0 then 0 else activeFindIndex st - 1) st.

(** The effect that re-validates the active index whenever the number of
    matches changes. *)
Definition syncActiveIndex (st : FindState) : FindState :=
  if Z.of_nat (List.length (findMatches st)) =? 0
  then mkFindState (findMatches st) (-1) (textarea st)
  else
    let prev := activeFindIndex st in
    if (0 <=? prev) && (prev <? Z.of_nat (List.length (findMatches st))) then st
    else mkFindState (findMatches st) 0 (textarea st).

(** [closeFind]: the query is emptied, so the match list is, and the
    active index is reset. *)
Definition closeFind (st : FindState) : FindState :=
  mkFindState [] (-1) (textarea st).

(** The 0-based line that [scrollTextareaToIndex] scrolls to: the number
    of newlines before the clamped index. *)
Definition scroll_line (value : jsstring) (index : Z) : Z :=
  let before := JS.slice value 0 (Z.max 0 (Z.min index (JS.length value))) in
  Z.max 0 (Z.of_nat (List.length (JS.split_on JS.LF before)) - 1).

(** The match list as [App] hands it to [HighlightedTextarea]. *)
Definition to_range (m : FindMatches.FindMatch) : HighlightedTextarea.HighlightRange :=
  HighlightedTextarea.mkRange (FindMatches.start m) (FindMatches.end_ m).

End App.

(* ------------------------------------------------------------------ *)
(** ** src/components/CodeViewer.tsx: one highlighted column per line *)

Module CodeViewer.

Record CodeViewerHighlight : Type := mkHighlight {
  line : Z;            (* 1-based *)
  column : option Z    (* 1-based *)
}.

Definition splitLinesPreserveTrailingEmpty (text : jsstring) : list jsstring :=
  JS.split_on JS.LF text.

(** What one line renders as: the bare text, or the text split around the
    highlighted column. *)
Inductive RenderedLine : Type :=
| Plain (lineText : jsstring)
| Split (before highlighted after : jsstring).

Record Line : Type := mkLine {
  lineNo : Z;
  isHighlighted : bool;
  rendered : RenderedLine
}.

Definition render_line (highlight : option CodeViewerHighlight) (idx : nat)
    (lineText : jsstring) : Line :=
  let lineNo := Z.of_nat idx + 1 in
  let isHighlighted :=
    match highlight with
    | Some h => line h =? lineNo
    | None => false
    end in
  let col := match highlight with Some h => column h | None => None end in
  let rendered :=
    match col with
    | Some c =>
        if isHighlighted && (1 <=? c) then
          let i := c - 1 in
          if (0 <=? i) && (i <? JS.length lineText) then
            Split (JS.slice lineText 0 i)
              (match JS.get lineText i with
               | Some ch => if N.eqb ch JS.SPACE then [JS.NBSP] else [ch]
               | None => []
               end)
              (JS.slice_from lineText (i + 1))
          else Plain lineText
        else Plain lineText
    | None => Plain lineText
    end in
  mkLine lineNo isHighlighted rendered.

(** [lines.map((lineText, idx) => ...)] *)
Fixpoint render_from (highlight : option CodeViewerHighlight) (idx : nat)
    (lines : list jsstring) : list Line :=
  match lines with
  | [] => []
  | lineText :: rest => render_line highlight idx lineText :: render_from highlight (S idx) rest
  end.

Definition render_lines (text : jsstring) (highlight : option CodeViewerHighlight)
  : list Line :=
  render_from highlight 0 (splitLinesPreserveTrailingEmpty text).

(** The body of the viewer: the placeholder when the text is empty and a
    (non-empty) placeholder is given, the rendered lines otherwise. *)
Inductive Content : Type :=
| Placeholder (placeholder : jsstring)
| Lines (lines : list Line).

Definition content (text : jsstring) (placeholder : option jsstring)
    (highlight : option CodeViewerHighlight) : Content :=
  match placeholder with
  | Some ph =>
      if (JS.length text =? 0) && negb (JS.is_empty ph) then Placeholder ph
      else Lines (render_lines text highlight)
  | None => Lines (render_lines text highlight)
  end.

End CodeViewer.

(* ================================================================== *)
(** * Specification predicates *)

Module Spec.

Import HighlightedTextarea.

(** The error offset lies in the half-open interval [a, b). *)
Definition hits (errorPos : option Z) (a b : Z) : bool :=
  match errorPos with
  | Some p => (a <=? p) && (p <? b)
  | None => false
  end.

(** [Renders text errorPos a segs b]: the segments [segs], read left to
    right, lay out the buffer from offset [a] to offset [b].  A text or
    find segment carries exactly a slice of the buffer that does not
    contain the error offset; an error segment stands for the single
    character at the error offset and carries its glyph. *)
Inductive Renders (text : jsstring) (errorPos : option Z)
  : Z -> list Segment -> Z -> Prop :=
| Renders_nil : forall a, Renders text errorPos a [] a
| Renders_text : forall a b c rest,
    0 <= a <= b -> b <= JS.length text -> hits errorPos a b = false ->
    Renders text errorPos b rest c ->
    Renders text errorPos a (SegText (JS.slice text a b) :: rest) c
| Renders_find : forall a b c cur rest,
    0 <= a <= b -> b <= JS.length text -> hits errorPos a b = false ->
    Renders text errorPos b rest c ->
    Renders text errorPos a (SegFind (JS.slice text a b) cur :: rest) c
| Renders_error : forall p c rest,
    errorPos = Some p -> 0 <= p < JS.length text ->
    Renders text errorPos (p + 1) rest c ->
    Renders text errorPos p (SegError (error_glyph (JS.get_or_empty text p)) :: rest) c.

(** The buffer as the overlay shows it: a space at the error offset is
    replaced by U+00A0, everything else is unchanged. *)
Definition with_error_glyph (text : jsstring) (errorPos : option Z) : jsstring :=
  match errorPos with
  | Some p =>
      match JS.get text p with
      | Some c =>
          if N.eqb c JS.SPACE
          then JS.slice text 0 p ++ [JS.NBSP] ++ JS.slice_from text (p + 1)
          else text
      | None => text
      end
  | None => text
  end.

(** The text shown for the buffer between [a] and [b]. *)
Definition shown (text : jsstring) (errorPos : option Z) (a b : Z) : jsstring :=
  match errorPos with
  | Some p =>
      if (a <=? p) && (p <? b)
      then JS.slice text a p ++ error_glyph (JS.get_or_empty text p) ++ JS.slice text (p + 1) b
      else JS.slice text a b
  | None => JS.slice text a b
  end.

(** What a single segment of a layout may carry: a text or find segment
    an exact slice of the buffer, an error segment the glyph of the
    character at the error offset. *)
Definition faithful_segment (text : jsstring) (errorPos : option Z) (s : Segment) : Prop :=
  match s with
  | SegText v | SegFind v _ =>
      exists a b, 0 <= a <= b /\ b <= JS.length text /\ hits errorPos a b = false
                  /\ v = JS.slice text a b
  | SegError v =>
      exists p, errorPos = Some p /\ 0 <= p < JS.length text
                /\ v = error_glyph (JS.get_or_empty text p)
  end.

(** The loop invariant of [renderWithHighlights]: the segments so far lay
    out the buffer up to the cursor, and once the error has been rendered
    it lies behind the cursor. *)
Definition behind (errorPos : option Z) (st : RenderState) : Prop :=
  errorRendered st = true ->
  match errorPos with Some p => p < cursor st | None => False end.

Definition Inv (text : jsstring) (errorPos : option Z) (st : RenderState) : Prop :=
  Renders text errorPos 0 (segs st) (cursor st)
  /\ 0 <= cursor st <= JS.length text
  /\ behind errorPos st.

(** A range as [clampRanges] leaves it. *)
Definition clamped (text : jsstring) (r : HighlightRange) : Prop :=
  0 <= start r /\ start r < end_ r /\ end_ r <= JS.length text.

(** Match lists: each range is non-empty and starts no earlier than [lo],
    and the next one starts no earlier than its end. *)
Fixpoint spaced (lo : Z) (ms : list FindMatches.FindMatch) : Prop :=
  match ms with
  | [] => True
  | m :: rest =>
      lo <= FindMatches.start m /\ FindMatches.start m < FindMatches.end_ m
      /\ spaced (FindMatches.end_ m) rest
  end.

(** Sorted ascending by start. *)
Definition ascending (ms : list FindMatches.FindMatch) : Prop :=
  StronglySorted (fun a b => FindMatches.start a <= FindMatches.start b) ms.

(** Two half-open ranges share no offset. *)
Definition disjoint (a b : FindMatches.FindMatch) : Prop :=
  FindMatches.end_ a <= FindMatches.start b \/ FindMatches.end_ b <= FindMatches.start a.

Definition pairwise_disjoint (ms : list FindMatches.FindMatch) : Prop :=
  ForallOrdPairs disjoint ms.

(** The invariant of both scan loops of [computeFindMatches], on the state
    [(scan position, matches)]: the matches found are spaced out and lie
    behind the scan position. *)
Definition scan_inv (st : Z * list FindMatches.FindMatch) : Prop :=
  0 <= fst st /\ spaced 0 (snd st)
  /\ Forall (fun m => FindMatches.end_ m <= fst st) (snd st).

(** How far the scan position is from the end of the subject. *)
Definition scan_room (subject : jsstring) (st : Z * list FindMatches.FindMatch) : nat :=
  Z.to_nat (JS.length subject + 1 - fst st).

(** The sample input of the reformatter, an object with the one member
    [a] of value 1 written without any whitespace (7 characters), and its
    reformatted text on three lines. *)
Definition object_a_1 : jsstring := JS.lit "{" ++ JS.quoted "a" ++ JS.lit ":1}".

Definition object_a_1_formatted : jsstring :=
  JS.lit "{" ++ [JS.LF] ++ JS.lit "  " ++ JS.quoted "a" ++ JS.lit ": 1" ++ [JS.LF]
  ++ JS.lit "}" ++ [JS.LF].

(** A run of whitespace, as the reformatter sees it outside strings. *)
Definition blank (ws : jsstring) : Prop :=
  Forall (fun c => FormatJsonBestEffort.is_whitespace [c] = true) ws.

(** The opening and the closing character of a container. *)
Definition opener (curly : bool) : N := if curly then 123%N else 91%N.
Definition closer (curly : bool) : N := if curly then 125%N else 93%N.

(** The haystack and the needle of a literal search. *)
Definition haystack {H : FindMatches.Host} (text : jsstring)
    (options : FindMatches.FindOptions) : jsstring :=
  if FindMatches.matchCase options then text else FindMatches.toLowerCase text.

Definition needle_of {H : FindMatches.Host} (options : FindMatches.FindOptions) : jsstring :=
  if FindMatches.matchCase options then FindMatches.query options
  else FindMatches.toLowerCase (FindMatches.query options).

(** The needle occurs in the haystack at position [k]. *)
Definition occurs (needle hay : jsstring) (k : nat) : Prop :=
  JS.starts_with needle (skipn k hay) = true.

(** The offset [k] lies inside one of the matches. *)
Definition covered (ms : list FindMatches.FindMatch) (k : nat) : Prop :=
  exists m, In m ms /\ FindMatches.start m <= Z.of_nat k < FindMatches.end_ m.

(** The find segments of an overlay, in order: their text and whether
    they are the current match. *)
Definition find_parts (l : list Segment) : list (jsstring * bool) :=
  flat_map (fun s => match s with SegFind v cur => [(v, cur)] | _ => [] end) l.

(** Range lists as the match engine produces them: each range is
    non-empty and begins no earlier than [lo], the next one no earlier
    than its end. *)
Fixpoint spaced_ranges (lo : Z) (rs : list HighlightRange) : Prop :=
  match rs with
  | [] => True
  | r :: rest => lo <= start r /\ start r < end_ r /\ spaced_ranges (end_ r) rest
  end.

(** What the find segments of a well-spaced range list must be: the slice
    of each range, flagged when its index is the active one; [idx] is the
    index of the first range of [rs]. *)
Fixpoint expected_parts (text : jsstring) (activeFindIndex : option Z) (idx : nat)
    (rs : list HighlightRange) : list (jsstring * bool) :=
  match rs with
  | [] => []
  | r :: rest =>
      (JS.slice text (start r) (end_ r), is_active idx activeFindIndex)
      :: expected_parts text activeFindIndex (S idx) rest
  end.

(** A segment that carries some text. *)
Definition solid (s : Segment) : Prop := seg_value s <> [].

(** A character filter that drops the four whitespace characters. *)
Definition kills_whitespace (f : N -> bool) : Prop :=
  forall c, FormatJsonBestEffort.is_whitespace [c] = true -> f c = false.

(** Not one of the four whitespace characters. *)
Definition non_whitespace (c : N) : bool := negb (FormatJsonBestEffort.is_whitespace [c]).

Definition is_nul (c : N) : bool := N.eqb c 0%N.

(** Neither whitespace nor the NUL character that the reformatter uses as
    its sentinel. *)
Definition visible (c : N) : bool := non_whitespace c && negb (is_nul c).

(** What the reformatter's loop keeps true, seen through a character filter
    [f] that drops whitespace: the kept characters of the output so far are
    those of the input consumed so far, with the sentinel in between once
    it is in. *)
Definition copied (f : N -> bool) (raw : jsstring) (errorPosition : option Z)
    (st : FormatJsonBestEffort.FormatState) : Prop :=
  0 <= FormatJsonBestEffort.i st <= JS.length raw
  /\ (if FormatJsonBestEffort.insertedSentinel st then
        errorPosition <> None
        /\ exists a b,
             filter f (JS.slice raw 0 (FormatJsonBestEffort.i st)) = a ++ b
             /\ filter f (concat (FormatJsonBestEffort.out st))
                = a ++ filter f FormatJsonBestEffort.sentinel ++ b
      else filter f (concat (FormatJsonBestEffort.out st))
           = filter f (JS.slice raw 0 (FormatJsonBestEffort.i st))).

End Spec.

(* ================================================================== *)
(** * Facts about strings *)

Section StringFacts.

Lemma firstn_firstn_skipn (A : Type) (l : list A) (n m : nat) :
  firstn n l ++ firstn m (skipn n l) = firstn (n + m) l.
Proof.
  revert l; induction n as [|n IH]; intros l; [reflexivity|].
  destruct l as [|x l]; simpl.
  - now rewrite firstn_nil.
  - now rewrite IH.
Qed.

Lemma slice_in_range (s : jsstring) (a b : Z) :
  0 <= a <= b -> b <= JS.length s ->
  JS.slice s a b = firstn (Z.to_nat (b - a)) (skipn (Z.to_nat a) s).
Proof.
  intros Ha Hb. unfold JS.slice, JS.rel_index.
  destruct (Z.ltb_spec a 0); [lia|].
  destruct (Z.ltb_spec b 0); [lia|].
  now rewrite !Z.min_l by lia.
Qed.

Lemma slice_length (s : jsstring) (a b : Z) :
  0 <= a <= b -> b <= JS.length s -> JS.length (JS.slice s a b) = b - a.
Proof.
  intros Ha Hb. rewrite slice_in_range by assumption.
  unfold JS.length in *. rewrite length_firstn, length_skipn. lia.
Qed.

Lemma slice_app (s : jsstring) (a b c : Z) :
  0 <= a <= b -> b <= c -> c <= JS.length s ->
  JS.slice s a b ++ JS.slice s b c = JS.slice s a c.
Proof.
  intros Ha Hb Hc. rewrite !slice_in_range by lia.
  replace (Z.to_nat b) with (Z.to_nat (b - a) + Z.to_nat a)%nat by lia.
  rewrite <- skipn_skipn.
  rewrite firstn_firstn_skipn. f_equal. lia.
Qed.

Lemma slice_all (s : jsstring) : JS.slice s 0 (JS.length s) = s.
Proof.
  rewrite slice_in_range by (unfold JS.length; lia).
  simpl. unfold JS.length. rewrite Z.sub_0_r, Nat2Z.id. apply firstn_all.
Qed.

Lemma slice_empty (s : jsstring) (a b : Z) :
  0 <= a <= b -> b <= JS.length s -> JS.slice s a b = [] -> a = b.
Proof.
  intros Ha Hb E. pose proof (slice_length s a b Ha Hb) as L.
  rewrite E in L. unfold JS.length in L. simpl in L. lia.
Qed.

Lemma slice_one (s : jsstring) (p : Z) :
  0 <= p < JS.length s -> JS.slice s p (p + 1) = JS.get_or_empty s p.
Proof.
  intros Hp. rewrite slice_in_range by lia.
  unfold JS.get_or_empty, JS.get.
  destruct (Z.ltb_spec p 0); [lia|].
  replace (Z.to_nat (p + 1 - p)) with 1%nat by lia.
  unfold JS.length in Hp.
  assert (Hn : (Z.to_nat p < List.length s)%nat) by lia.
  revert Hn. generalize (Z.to_nat p). clear.
  induction s as [|x s IH]; intros n Hn; simpl in Hn; [lia|].
  destruct n as [|n]; simpl; [reflexivity|]. apply IH. lia.
Qed.

End StringFacts.

(* ================================================================== *)
(** * Clamping and sorting the ranges *)

Section ClampFacts.
Import HighlightedTextarea.

Lemma compareRanges_total (a b : HighlightRange) :
  compareRanges a b <= 0 \/ compareRanges b a <= 0.
Proof.
  unfold compareRanges.
  destruct (Z.eqb_spec (start a - start b) 0), (Z.eqb_spec (start b - start a) 0); lia.
Qed.

Lemma compareRanges_trans (a b c : HighlightRange) :
  compareRanges a b <= 0 -> compareRanges b c <= 0 -> compareRanges a c <= 0.
Proof.
  unfold compareRanges.
  destruct (Z.eqb_spec (start a - start b) 0), (Z.eqb_spec (start b - start c) 0),
    (Z.eqb_spec (start a - start c) 0); lia.
Qed.

Lemma insert_range_perm (r : HighlightRange) (l : list HighlightRange) :
  Permutation (insert_range r l) (r :: l).
Proof.
  induction l as [|x l IH]; simpl; [reflexivity|].
  destruct (compareRanges r x <=? 0); [reflexivity|].
  rewrite IH. apply perm_swap.
Qed.

Lemma insert_range_sorted (r : HighlightRange) (l : list HighlightRange) :
  StronglySorted (fun a b => compareRanges a b <= 0) l ->
  StronglySorted (fun a b => compareRanges a b <= 0) (insert_range r l).
Proof.
  induction 1 as [|x l Hl IH Hx]; simpl.
  - constructor; constructor.
  - destruct (Z.leb_spec (compareRanges r x) 0) as [Hle|Hgt].
    + constructor; [constructor; assumption|].
      constructor; [assumption|].
      eapply Forall_impl; [|exact Hx]. intros y Hy. eapply compareRanges_trans; eauto.
    + constructor; [assumption|].
      assert (Hxr : compareRanges x r <= 0) by (destruct (compareRanges_total x r); lia).
      rewrite Forall_forall in *. intros y Hy.
      apply (Permutation_in _ (insert_range_perm r l)) in Hy. destruct Hy as [<-|Hy]; auto.
Qed.

(** The stand-in for [Array.prototype.sort] sorts. *)
Lemma sort_ranges_sorts (l : list HighlightRange) :
  StronglySorted (fun a b => compareRanges a b <= 0) (sort_ranges l)
  /\ Permutation (sort_ranges l) l.
Proof.
  induction l as [|x l [IHs IHp]]; simpl; [split; constructor|]. split.
  - now apply insert_range_sorted.
  - rewrite insert_range_perm. now constructor.
Qed.

End ClampFacts.

(* ================================================================== *)
(** * The range compositor lays out the buffer *)

Section Layout.

Import HighlightedTextarea Spec.

Variable text : jsstring.
Variable errorPos : option Z.


Lemma Renders_app a l1 b l2 c :
  Renders text errorPos a l1 b -> Renders text errorPos b l2 c -> Renders text errorPos a (l1 ++ l2) c.
Proof.
  induction 1; simpl; intros; [assumption|..]; constructor; auto.
Qed.

Lemma Renders_le a l b : Renders text errorPos a l b -> a <= b.
Proof. induction 1; lia. Qed.

Lemma slice_nil a : 0 <= a <= JS.length text -> JS.slice text a a = [].
Proof.
  intros Ha. rewrite slice_in_range by lia.
  now replace (Z.to_nat (a - a)) with 0%nat by lia.
Qed.

Lemma Renders_segs_text a l b :
  Renders text errorPos a l b -> 0 <= a -> b <= JS.length text -> segs_text l = shown text errorPos a b.
Proof.
  unfold segs_text, shown.
  induction 1 as [a | a b c rest Hab Hb Hh HR IH | a b c cur rest Hab Hb Hh HR IH
                  | p c rest Hp Hr HR IH]; intros H0 Hc; simpl.
  - destruct errorPos as [p|]; [|now rewrite slice_nil by lia].
    destruct (Z.leb_spec a p), (Z.ltb_spec p a); simpl; try lia;
      now rewrite slice_nil by lia.
  - pose proof (Renders_le _ _ _ HR). rewrite IH by lia. unfold hits in Hh.
    destruct errorPos as [p|]; [|apply slice_app; lia].
    destruct (Z.leb_spec a p), (Z.ltb_spec p b), (Z.leb_spec b p), (Z.ltb_spec p c);
      simpl in *; try lia; try discriminate;
      rewrite ?app_assoc; rewrite ?slice_app by lia; reflexivity.
  - pose proof (Renders_le _ _ _ HR). rewrite IH by lia. unfold hits in Hh.
    destruct errorPos as [p|]; [|apply slice_app; lia].
    destruct (Z.leb_spec a p), (Z.ltb_spec p b), (Z.leb_spec b p), (Z.ltb_spec p c);
      simpl in *; try lia; try discriminate;
      rewrite ?app_assoc; rewrite ?slice_app by lia; reflexivity.
  - pose proof (Renders_le _ _ _ HR). rewrite IH by lia. rewrite Hp.
    destruct (Z.leb_spec (p + 1) p), (Z.leb_spec p p), (Z.ltb_spec p c);
      simpl; try lia.
    now rewrite slice_nil by lia.
Qed.

Lemma Renders_error_count a l b :
  Renders text errorPos a l b -> List.length (filter is_error l) = if hits errorPos a b then 1%nat else 0%nat.
Proof.
  induction 1 as [a | a b c rest Hab Hb Hh HR IH | a b c cur rest Hab Hb Hh HR IH
                  | p c rest Hp Hr HR IH]; simpl.
  - unfold hits. destruct errorPos as [p|]; [|reflexivity].
    destruct (Z.leb_spec a p), (Z.ltb_spec p a); simpl; auto; lia.
  - pose proof (Renders_le _ _ _ HR). rewrite IH. unfold hits in *.
    destruct errorPos as [p|]; [|reflexivity].
    destruct (Z.leb_spec a p), (Z.ltb_spec p b), (Z.leb_spec b p), (Z.ltb_spec p c);
      simpl in *; try lia; try discriminate; reflexivity.
  - pose proof (Renders_le _ _ _ HR). rewrite IH. unfold hits in *.
    destruct errorPos as [p|]; [|reflexivity].
    destruct (Z.leb_spec a p), (Z.ltb_spec p b), (Z.leb_spec b p), (Z.ltb_spec p c);
      simpl in *; try lia; try discriminate; reflexivity.
  - pose proof (Renders_le _ _ _ HR). rewrite IH. unfold hits. rewrite Hp.
    destruct (Z.leb_spec (p + 1) p), (Z.leb_spec p p), (Z.ltb_spec p c);
      simpl; try lia; reflexivity.
Qed.

Lemma Renders_faithful a l b : Renders text errorPos a l b -> Forall (faithful_segment text errorPos) l.
Proof.
  induction 1; constructor; simpl; eauto 8.
Qed.

Lemma error_within_false st a b :
  error_within errorPos st a b = false -> behind errorPos st -> cursor st <= a ->
  hits errorPos a b = false.
Proof.
  unfold error_within, behind, hits. destruct errorPos as [p|]; [|reflexivity].
  destruct (errorRendered st); simpl; [|tauto].
  intros _ Hb Ha. specialize (Hb eq_refl).
  destruct (Z.leb_spec a p); simpl; [lia | reflexivity].
Qed.

Lemma error_within_true st a b :
  error_within errorPos st a b = true ->
  errorPos = Some (pos_of errorPos) /\ a <= pos_of errorPos < b.
Proof.
  unfold error_within. destruct errorPos as [p|]; [|discriminate].
  simpl. rewrite !andb_true_iff, Z.leb_le, Z.ltb_lt. intuition.
Qed.

Lemma hits_before p a b : errorPos = Some p -> b <= p -> hits errorPos a b = false.
Proof.
  intros -> Hb. unfold hits. destruct (Z.ltb_spec p b); [lia|]. apply andb_false_r.
Qed.

Lemma hits_after p a b : errorPos = Some p -> p < a -> hits errorPos a b = false.
Proof.
  intros -> Ha. unfold hits. destruct (Z.leb_spec a p); [lia|]. reflexivity.
Qed.

Lemma lays_pushText st a b :
  Renders text errorPos 0 (segs st) a -> 0 <= a <= b -> b <= JS.length text ->
  hits errorPos a b = false ->
  Renders text errorPos 0 (segs (pushText (JS.slice text a b) st)) b.
Proof.
  intros HR Hab Hb Hh. unfold pushText.
  destruct (JS.is_empty (JS.slice text a b)) eqn:E.
  - destruct (JS.slice text a b) eqn:E'; [|discriminate].
    now rewrite <- (slice_empty _ _ _ Hab Hb E').
  - simpl. eapply Renders_app; [eassumption|].
    constructor; auto. constructor.
Qed.

Lemma lays_pushFind st a b cur :
  Renders text errorPos 0 (segs st) a -> 0 <= a <= b -> b <= JS.length text ->
  hits errorPos a b = false ->
  Renders text errorPos 0
    (segs (if JS.is_empty (JS.slice text a b) then st
           else push (SegFind (JS.slice text a b) cur) st)) b.
Proof.
  intros HR Hab Hb Hh.
  destruct (JS.is_empty (JS.slice text a b)) eqn:E.
  - destruct (JS.slice text a b) eqn:E'; [|discriminate].
    now rewrite <- (slice_empty _ _ _ Hab Hb E').
  - simpl. eapply Renders_app; [eassumption|].
    constructor; auto. constructor.
Qed.

Lemma lays_pushErrorChar st p :
  Renders text errorPos 0 (segs st) p -> errorPos = Some p -> 0 <= p < JS.length text ->
  Renders text errorPos 0 (segs (pushErrorChar (JS.get_or_empty text p) st)) (p + 1).
Proof.
  intros HR Hp Hr. simpl. eapply Renders_app; [eassumption|].
  constructor; auto. constructor.
Qed.

Lemma pushText_cursor s st : cursor (pushText s st) = cursor st.
Proof. unfold pushText. now destruct (JS.is_empty s). Qed.

Lemma pushText_errorRendered s st : errorRendered (pushText s st) = errorRendered st.
Proof. unfold pushText. now destruct (JS.is_empty s). Qed.

Lemma gap_step_inv st start :
  Inv text errorPos st -> cursor st <= start <= JS.length text -> Inv text errorPos (gap_step text errorPos start st).
Proof.
  intros (HR & Hc & Hb) Hs. unfold gap_step.
  destruct (Z.ltb_spec (cursor st) start) as [Hlt|Hge].
  2:{ replace start with (cursor st) in * by lia. repeat split; auto; lia. }
  destruct (error_within errorPos st (cursor st) start) eqn:E.
  - apply error_within_true in E as [Hp Hr].
    set (p := pos_of errorPos) in *.
    assert (H1 : Renders text errorPos 0
                   (segs (pushErrorChar (JS.get_or_empty text p)
                            (pushText (JS.slice text (cursor st) p) st))) (p + 1)).
    { apply lays_pushErrorChar; auto; [|lia].
      apply lays_pushText; auto; try lia. eapply hits_before; eauto; lia. }
    cbn [set_cursor set_errorRendered cursor segs errorRendered].
    destruct (Z.ltb_spec (p + 1) start).
    + repeat split; cbn [set_cursor cursor segs errorRendered]; try lia.
      * apply (lays_pushText (mkRender _ _ _)); cbn [segs]; auto; try lia.
        eapply hits_after; eauto; lia.
      * unfold behind. cbn [set_cursor cursor errorRendered]. rewrite Hp. lia.
    + replace start with (p + 1) by lia.
      repeat split; cbn [set_cursor cursor segs errorRendered]; auto; try lia.
      unfold behind. cbn [set_cursor cursor errorRendered]. rewrite Hp. lia.
  - pose proof (error_within_false _ _ _ E Hb (Z.le_refl _)) as Hh.
    repeat split; cbn [set_cursor cursor segs errorRendered]; try lia.
    + apply lays_pushText; auto; lia.
    + unfold behind in *. cbn [set_cursor cursor errorRendered].
      rewrite pushText_errorRendered. intros Ht. specialize (Hb Ht).
      destruct errorPos; [lia|auto].
Qed.

Lemma gap_step_cursor st start :
  cursor st <= start -> cursor (gap_step text errorPos start st) = start.
Proof.
  intros Hs. unfold gap_step.
  destruct (Z.ltb_spec (cursor st) start); [reflexivity | lia].
Qed.

Lemma match_step_inv activeFindIndex idx st e :
  Inv text errorPos st -> cursor st < e <= JS.length text ->
  Inv text errorPos (match_step text errorPos activeFindIndex idx (cursor st) e st).
Proof.
  intros (HR & Hc & Hb) He. unfold match_step.
  destruct (error_within errorPos st (cursor st) e) eqn:E.
  - apply error_within_true in E as [Hp Hr].
    set (p := pos_of errorPos) in *.
    set (cur := is_active idx activeFindIndex).
    set (st1 := if JS.is_empty (JS.slice text (cursor st) p) then st
                else push (SegFind (JS.slice text (cursor st) p) cur) st).
    assert (H1 : Renders text errorPos 0 (segs st1) p).
    { apply lays_pushFind; auto; try lia. eapply hits_before; eauto; lia. }
    set (st2 := set_errorRendered (pushErrorChar (JS.get_or_empty text p) st1)).
    assert (H2 : Renders text errorPos 0 (segs st2) (p + 1)).
    { apply lays_pushErrorChar; auto; lia. }
    repeat split; cbn [set_cursor cursor segs errorRendered]; try lia.
    + apply lays_pushFind; auto; try lia. eapply hits_after; eauto; lia.
    + unfold behind. cbn [set_cursor cursor errorRendered]. rewrite Hp. lia.
  - pose proof (error_within_false _ _ _ E Hb (Z.le_refl _)) as Hh.
    repeat split; cbn [set_cursor push cursor segs errorRendered]; try lia.
    + eapply Renders_app; [eassumption|]. constructor; auto; try lia. constructor.
    + unfold behind in *. cbn [set_cursor push cursor errorRendered].
      intros Ht. specialize (Hb Ht). destruct errorPos; [lia|auto].
Qed.

Lemma range_step_inv activeFindIndex idx r st :
  clamped text r -> Inv text errorPos st ->
  Inv text errorPos (range_step text errorPos activeFindIndex idx r st).
Proof.
  intros (H0 & Hse & He) HI. unfold range_step.
  destruct (Z.leb_spec (end_ r) (cursor st)); [assumption|].
  set (s := if start r <? cursor st then cursor st else start r).
  assert (Hs : cursor st <= s /\ s < end_ r).
  { unfold s. destruct (Z.ltb_spec (start r) (cursor st)); lia. }
  pose proof (gap_step_cursor st s (proj1 Hs)) as Hc.
  assert (HI' : Inv text errorPos (gap_step text errorPos s st)) by (apply gap_step_inv; [assumption|lia]).
  rewrite <- Hc at 1. apply match_step_inv; [assumption|]. rewrite Hc. lia.
Qed.

Lemma for_ranges_inv activeFindIndex ranges :
  Forall (clamped text) ranges ->
  forall remaining idx st,
    (idx + remaining = List.length ranges)%nat -> Inv text errorPos st ->
    exists st', for_ranges text errorPos activeFindIndex ranges remaining idx st = Returns st'
                /\ Inv text errorPos st'.
Proof.
  intros Hall. induction remaining as [|n IH]; intros idx st Hlen HI; simpl.
  - eauto.
  - destruct (nth_error ranges idx) as [r|] eqn:E.
    + apply IH; [lia|]. apply range_step_inv; [|assumption].
      rewrite Forall_forall in Hall. eapply Hall, nth_error_In; eauto.
    + apply nth_error_None in E. lia.
Qed.

Lemma tail_step_lays st :
  Inv text errorPos st -> Renders text errorPos 0 (segs (tail_step text errorPos st)) (JS.length text).
Proof.
  intros (HR & Hc & Hb). unfold tail_step, JS.slice_from.
  destruct (Z.ltb_spec (cursor st) (JS.length text)) as [Hlt|Hge].
  2:{ now replace (JS.length text) with (cursor st) by lia. }
  destruct (error_within errorPos st (cursor st) (JS.length text)) eqn:E.
  - apply error_within_true in E as [Hp Hr].
    set (p := pos_of errorPos) in *.
    cbn [set_cursor set_errorRendered cursor].
    apply (lays_pushText (mkRender _ _ _)); cbn [segs]; try lia.
    + apply lays_pushErrorChar; auto; [|lia].
      apply lays_pushText; auto; try lia. eapply hits_before; eauto; lia.
    + eapply hits_after; eauto; lia.
  - pose proof (error_within_false _ _ _ E Hb (Z.le_refl _)) as Hh.
    apply lays_pushText; auto; lia.
Qed.

Lemma insert_range_Forall (P : HighlightRange -> Prop) r l :
  P r -> Forall P l -> Forall P (insert_range r l).
Proof.
  intros Hr. induction 1 as [|x l Hx Hl IH]; simpl.
  - auto.
  - destruct (compareRanges r x <=? 0); auto.
Qed.

Lemma clampRanges_clamped findRanges :
  Forall (clamped text) (clampRanges (JS.length text) findRanges).
Proof.
  assert (Hlen : 0 <= JS.length text) by (unfold JS.length; lia).
  assert (Hc : forall rs, Forall (clamped text) (clamp_each (JS.length text) rs)).
  { induction rs as [|r rs IH]; simpl; [constructor|].
    destruct (Z.leb_spec (Z.max 0 (Z.min (JS.length text) (end_ r)))
                         (Z.max 0 (Z.min (JS.length text) (start r)))); [assumption|].
    constructor; [|assumption]. unfold clamped; simpl. lia. }
  assert (Hs : forall l, Forall (clamped text) l -> Forall (clamped text) (sort_ranges l)).
  { induction 1; simpl; [constructor|]. now apply insert_range_Forall. }
  destruct findRanges as [[|r rs]|]; simpl; try constructor.
  apply (Hs (clamp_each (JS.length text) (r :: rs))), Hc.
Qed.

(** The compositor always returns, and what it returns is a layout of the
    whole buffer. *)
Lemma renderWithHighlights_lays findRanges activeFindIndex :
  exists node,
    renderWithHighlights text errorPos findRanges activeFindIndex = Returns node
    /\ ((node = NodeText text /\ text = [])
        \/ exists l, node = NodeSegments l /\ l <> []
                     /\ Renders text errorPos 0 l (JS.length text)).
Proof.
  unfold renderWithHighlights.
  destruct (for_ranges_inv activeFindIndex _ (clampRanges_clamped findRanges)
              (List.length (clampRanges (JS.length text) findRanges)) 0%nat
              (mkRender [] 0 false)) as (st & -> & HI).
  - reflexivity.
  - repeat split; simpl; try (unfold JS.length; lia); [constructor | discriminate].
  - simpl. pose proof (tail_step_lays st HI) as HR.
    destruct (segs (tail_step text errorPos st)) as [|x l] eqn:E.
    + inversion HR as [a Ha Hb | | |]. 
      assert (Ht : text = []).
      { destruct text; [reflexivity|]. unfold JS.length in *. simpl in *. lia. }
      destruct errorPos as [p|]; [|simpl; eauto].
      assert (Hp : (0 <=? p) && (p <? JS.length text) = false).
      { destruct (Z.leb_spec 0 p), (Z.ltb_spec p (JS.length text)); simpl; auto; lia. }
      rewrite <- H in Hp. rewrite Hp. simpl. eauto.
    + simpl. eexists; split; [reflexivity|]. right.
      eexists; repeat split; [discriminate | exact HR].
Qed.

End Layout.

(* ================================================================== *)
(** * Loops that make progress return *)

Section LoopFacts.

Context {S R : Type}.
Variable step : S -> outcome (loop_step S R).

Lemma run_loop_more_fuel (fuel fuel' : nat) (s : S) (r : R) :
  run_loop step fuel s = Returns r -> (fuel <= fuel')%nat ->
  run_loop step fuel' s = Returns r.
Proof.
  revert fuel' s. induction fuel as [|fuel IH]; intros fuel' s; simpl; [discriminate|].
  intros Hrun Hle. destruct fuel' as [|fuel']; [lia|]. simpl.
  destruct (step s) as [[s'|r']| |]; simpl in *; try discriminate; auto.
  apply IH; [assumption|lia].
Qed.

Variable I : S -> Prop.
Variable Q : R -> Prop.
Variable measure : S -> nat.

Hypothesis step_progress : forall s, I s ->
  (exists s', step s = Returns (Continue s') /\ I s' /\ (measure s' < measure s)%nat)
  \/ (exists r, step s = Returns (Break r) /\ Q r).

Lemma run_loop_returns (fuel : nat) (s : S) :
  I s -> (measure s < fuel)%nat -> exists r, run_loop step fuel s = Returns r /\ Q r.
Proof.
  revert s. induction fuel as [|fuel IH]; intros s Hs Hm; [lia|]. simpl.
  destruct (step_progress s Hs) as [(s' & -> & Hs' & Hlt) | (r & -> & Hr)]; simpl.
  - apply IH; [assumption|lia].
  - eauto.
Qed.

End LoopFacts.

(* ================================================================== *)
(** * The match engine *)

Section IndexOfFacts.

Lemma starts_with_length (needle hay : jsstring) :
  JS.starts_with needle hay = true -> (List.length needle <= List.length hay)%nat.
Proof.
  revert hay. induction needle as [|x n IH]; intros [|y h]; simpl; try lia; try discriminate.
  rewrite andb_true_iff. intros [_ Hs]. apply IH in Hs. lia.
Qed.

Lemma index_from_bounds (needle hay : jsstring) (k r : nat) :
  JS.index_from needle hay k = Some r ->
  (k <= r /\ r + List.length needle <= k + List.length hay)%nat.
Proof.
  revert k. induction hay as [|y h IH]; intros k; simpl.
  - destruct (JS.starts_with needle []) eqn:E; [|discriminate].
    intros [= <-]. apply starts_with_length in E. simpl in E. lia.
  - destruct (JS.starts_with needle (y :: h)) eqn:E.
    + intros [= <-]. apply starts_with_length in E. simpl in E. lia.
    + intros Hr. apply IH in Hr. lia.
Qed.

Lemma indexOf_bounds (hay needle : jsstring) (i : Z) :
  0 <= i -> needle <> [] -> JS.indexOf hay needle i <> -1 ->
  i <= JS.indexOf hay needle i
  /\ JS.indexOf hay needle i + JS.length needle <= JS.length hay.
Proof.
  intros Hi Hn. unfold JS.indexOf, JS.length.
  set (p := Z.to_nat (Z.min (Z.max i 0) (Z.of_nat (List.length hay)))).
  destruct (JS.index_from needle (skipn p hay) p) as [r|] eqn:E; [|congruence].
  intros _. apply index_from_bounds in E. rewrite length_skipn in E.
  assert (0 < List.length needle)%nat by (destruct needle; [congruence|simpl; lia]).
  lia.
Qed.

End IndexOfFacts.

Section SpacedFacts.

Import FindMatches Spec.

Lemma spaced_snoc (lo : Z) (ms : list FindMatch) (m : FindMatch) :
  spaced lo ms -> lo <= start m -> Forall (fun x => end_ x <= start m) ms ->
  start m < end_ m -> spaced lo (ms ++ [m]).
Proof.
  revert lo. induction ms as [|x ms IH]; intros lo; simpl.
  - auto.
  - intros (H1 & H2 & H3) Hlo Hall Hm. inversion Hall; subst.
    repeat split; auto.
Qed.

Lemma spaced_lower (lo : Z) (ms : list FindMatch) :
  spaced lo ms -> Forall (fun m => lo <= start m) ms.
Proof.
  revert lo. induction ms as [|x ms IH]; intros lo; simpl; [constructor|].
  intros (H1 & H2 & H3). constructor; [assumption|].
  apply IH in H3. eapply Forall_impl; [|exact H3]. simpl. intros; lia.
Qed.

Lemma spaced_ascending (lo : Z) (ms : list FindMatch) : spaced lo ms -> ascending ms.
Proof.
  revert lo. induction ms as [|x ms IH]; intros lo; simpl; [constructor|].
  intros (H1 & H2 & H3). constructor; [exact (IH _ H3)|].
  pose proof (spaced_lower _ _ H3) as H4.
  eapply Forall_impl; [|exact H4]. simpl. intros; lia.
Qed.

Lemma spaced_disjoint (lo : Z) (ms : list FindMatch) : spaced lo ms -> pairwise_disjoint ms.
Proof.
  revert lo. induction ms as [|x ms IH]; intros lo; simpl; [constructor|].
  intros (H1 & H2 & H3). constructor; [|exact (IH _ H3)].
  pose proof (spaced_lower _ _ H3) as H4. eapply Forall_impl; [|exact H4].
  unfold disjoint. simpl. intros; lia.
Qed.

Lemma spaced_nonempty (lo : Z) (ms : list FindMatch) :
  spaced lo ms -> Forall (fun m => start m < end_ m) ms.
Proof.
  revert lo. induction ms as [|x ms IH]; intros lo; simpl; [constructor|].
  intros (H1 & H2 & H3). constructor; eauto.
Qed.

End SpacedFacts.

Section Engine.

Import FindMatches Spec.

Context {H : Host}.

(** What the scan of a regular-expression engine guarantees: a match
    found from position [i] starts at or after [i] and lies inside the
    subject. *)
Hypothesis search_bounds : forall re text i s e,
  regexp_search re text i = Some (s, e) ->
  (i <= s /\ s <= e /\ e <= List.length text)%nat.

Lemma scan_inv_advance (i i' : Z) (ms : list FindMatch) :
  scan_inv (i, ms) -> i <= i' -> scan_inv (i', ms).
Proof.
  unfold scan_inv; simpl. intros (H0 & Hs & Hall) Hle. repeat split; auto; try lia.
  eapply Forall_impl; [|exact Hall]. simpl. intros; lia.
Qed.

Lemma scan_inv_record (i i' s e : Z) (ms : list FindMatch) :
  scan_inv (i, ms) -> i <= s -> s < e -> e <= i' ->
  scan_inv (i', ms ++ [mkMatch s e]).
Proof.
  unfold scan_inv; simpl. intros (H0 & Hs & Hall) H1 H2 H3. repeat split; try lia.
  - apply spaced_snoc; simpl; auto; try lia.
    eapply Forall_impl; [|exact Hall]. simpl. intros; lia.
  - apply Forall_app. split.
    + eapply Forall_impl; [|exact Hall]. simpl. intros; lia.
    + constructor; [simpl; lia|constructor].
Qed.

Lemma regex_step_progress (re : RegExp) (text : jsstring) (ww : bool)
    (st : Z * list FindMatch) :
  scan_inv st ->
  (exists st', regex_step re text ww st = Returns (Continue st')
               /\ scan_inv st' /\ (scan_room text st' < scan_room text st)%nat)
  \/ (exists r, regex_step re text ww st = Returns (Break r) /\ spaced 0 r).
Proof.
  destruct st as [li ms]. intros HI. pose proof HI as (H0 & Hs & Hall). simpl in H0, Hs, Hall.
  unfold regex_step, exec.
  destruct (Z.ltb_spec (JS.length text) li); [right; eauto|].
  destruct (regexp_search re text (Z.to_nat li)) as [[s e]|] eqn:E; [|right; eauto].
  apply search_bounds in E as (B1 & B2 & B3).
  rewrite slice_length by (unfold JS.length; lia).
  destruct (Z.eqb_spec (Z.of_nat e - Z.of_nat s) 0) as [Hz|Hnz].
  - destruct (Z.ltb_spec (Z.of_nat e) (JS.length text)); [left|right; eauto].
    eexists; split; [reflexivity|]. split.
    + apply scan_inv_advance with li; [assumption|lia].
    + unfold scan_room; simpl. lia.
  - destruct (ww && negb (isWholeWord text (Z.of_nat s)
                            (Z.of_nat s + (Z.of_nat e - Z.of_nat s)))).
    + left. eexists; split; [reflexivity|]. split.
      * apply scan_inv_advance with li; [assumption|lia].
      * unfold scan_room, JS.length in *; simpl. lia.
    + assert (HI' : scan_inv (Z.of_nat e,
                      ms ++ [mkMatch (Z.of_nat s) (Z.of_nat s + (Z.of_nat e - Z.of_nat s))])).
      { apply scan_inv_record with li; auto; lia. }
      destruct (MAX_MATCHES <=? _).
      * right. eexists; split; [reflexivity|]. apply HI'.
      * left. eexists; split; [reflexivity|]. split; [exact HI'|].
        unfold scan_room, JS.length in *; simpl. lia.
Qed.

Lemma literal_step_progress (hay needle text : jsstring) (ww : bool)
    (st : Z * list FindMatch) :
  needle <> [] -> scan_inv st ->
  (exists st', literal_step hay needle text ww st = Returns (Continue st')
               /\ scan_inv st' /\ (scan_room hay st' < scan_room hay st)%nat)
  \/ (exists r, literal_step hay needle text ww st = Returns (Break r) /\ spaced 0 r).
Proof.
  destruct st as [i ms]. intros Hn HI. pose proof HI as (H0 & Hs & Hall).
  simpl in H0, Hs, Hall. unfold literal_step.
  destruct (Z.eqb_spec (JS.indexOf hay needle i) (-1)) as [|Hidx]; [right; eauto|].
  destruct (indexOf_bounds hay needle i H0 Hn Hidx) as [B1 B2].
  set (idx := JS.indexOf hay needle i) in *.
  assert (Hlen : 0 < JS.length needle).
  { unfold JS.length. destruct needle; [congruence|simpl; lia]. }
  destruct (negb ww || isWholeWord text idx (idx + JS.length needle)).
  - assert (HI' : scan_inv (idx + Z.max (JS.length needle) 1,
                    ms ++ [mkMatch idx (idx + JS.length needle)])).
    { apply scan_inv_record with i; auto; lia. }
    destruct (MAX_MATCHES <=? _).
    + right. eexists; split; [reflexivity|]. apply HI'.
    + left. eexists; split; [reflexivity|]. split; [exact HI'|].
      unfold scan_room; simpl. lia.
  - left. eexists; split; [reflexivity|]. split.
    + apply scan_inv_advance with i; [assumption|lia].
    + unfold scan_room; simpl. lia.
Qed.

Lemma scan_inv_initial : scan_inv (0, []).
Proof. unfold scan_inv; simpl. repeat split; [lia|constructor]. Qed.

(** With any budget of at least [loop_budget], the engine returns, and
    its matches are spaced out; its error is set exactly when the pattern
    does not compile. *)
Lemma computeFindMatches_within_spaced (fuel : jsstring -> nat) (text : jsstring)
    (options : FindOptions) :
  (forall s, (loop_budget s <= fuel s)%nat) ->
  exists r, computeFindMatches_within fuel text options = Returns r
            /\ spaced 0 (matches r).
Proof.
  intros Hfuel. unfold computeFindMatches_within.
  destruct (JS.is_empty (query options)); [eexists; split; [reflexivity|exact I]|].
  destruct (regex options).
  - destruct (new_RegExp (query options) (regexp_flags options)) as [re|msg];
      [|eexists; split; [reflexivity|exact I]].
    destruct (run_loop_returns (regex_step re text (wholeWord options))
                scan_inv (spaced 0) (scan_room text)
                (regex_step_progress re text (wholeWord options))
                (fuel text) (0, []) scan_inv_initial) as (ms & -> & Hms).
    + specialize (Hfuel text). unfold loop_budget, scan_room, JS.length in *. simpl. lia.
    + simpl. eauto.
  - set (hay := if matchCase options then text else toLowerCase text).
    set (needle := if matchCase options then query options else toLowerCase (query options)).
    destruct needle as [|c needle'] eqn:En; [eexists; split; [reflexivity|exact I]|].
    simpl JS.is_empty. cbv iota.
    destruct (run_loop_returns (literal_step hay (c :: needle') text (wholeWord options))
                scan_inv (spaced 0) (scan_room hay)
                (fun st => literal_step_progress hay (c :: needle') text (wholeWord options) st
                             ltac:(discriminate))
                (fuel hay) (0, []) scan_inv_initial) as (ms & -> & Hms).
    + specialize (Hfuel hay). unfold loop_budget, scan_room, JS.length in *. simpl. lia.
    + simpl. eauto.
Qed.

Lemma computeFindMatches_spaced (text : jsstring) (options : FindOptions) :
  exists r, computeFindMatches text options = Returns r /\ spaced 0 (matches r).
Proof.
  apply computeFindMatches_within_spaced. intros; lia.
Qed.

End Engine.

(* ================================================================== *)
(** * The reference host keeps the engine's promise *)

Section ReferenceHost.

Import MiniRegExp.

Lemma search_from_bounds (ic : bool) (p : pattern) (suffix : jsstring) (k s e : nat) :
  search_from ic p suffix k = Some (s, e) ->
  (k <= s /\ s <= e /\ e <= k + List.length suffix)%nat.
Proof.
  revert k. induction suffix as [|x suffix IH]; intros k; simpl.
  - destruct (match_here ic p []) as [|rest ?]; [discriminate|].
    intros [= <- <-]. simpl. lia.
  - destruct (match_here ic p (x :: suffix)) as [|rest ?].
    + intros Hs. apply IH in Hs. lia.
    + intros [= <- <-]. destruct (List.length rest); lia.
Qed.

Lemma reference_search_bounds (re : regexp) (text : jsstring) (i s e : nat) :
  search re text i = Some (s, e) -> (i <= s /\ s <= e /\ e <= List.length text)%nat.
Proof.
  unfold search. destruct (Nat.ltb_spec (List.length text) i); [discriminate|].
  intros Hs. apply search_from_bounds in Hs. rewrite length_skipn in Hs. lia.
Qed.

End ReferenceHost.

(* ================================================================== *)
(** * The reformatter *)

Section Reformatter.

Import FormatJsonBestEffort Spec.

Lemma scan_non_whitespace_from (chars : jsstring) (i limit : Z) :
  scan_non_whitespace chars i limit = -1 \/ i <= scan_non_whitespace chars i limit.
Proof.
  revert i. induction chars as [|c chars IH]; intros i; simpl.
  - destruct (limit <=? i); [left; reflexivity | right; lia].
  - destruct (limit <=? i); [left; reflexivity |].
    destruct (is_whitespace [c]); [|right; lia].
    destruct (IH (i + 1)) as [->|Hle]; [left; reflexivity | right; lia].
Qed.

Lemma pushIndent_returns (st : FormatState) :
  exists pad, pushIndent st = Returns (out_push [pad] st).
Proof.
  unfold pushIndent, JS.repeat.
  destruct (Z.ltb_spec (Z.max 0 (indent st)) 0); [lia|]. simpl. eauto.
Qed.

Lemma format_body_returns (raw : jsstring) (limit : Z) (ch : jsstring) (st : FormatState) :
  exists st', format_body raw limit ch st = Returns st' /\ i st <= i st'.
Proof.
  unfold format_body.
  destruct (inString st).
  { simpl. destruct (escaping st); [eexists; split; [reflexivity|simpl; lia]|].
    destruct (JS.eqb ch [JS.BACKSLASH]); [eexists; split; [reflexivity|simpl; lia]|].
    destruct (JS.eqb ch [JS.QUOTE]); eexists; split; try reflexivity; simpl; lia. }
  destruct (is_whitespace ch); [eexists; split; [reflexivity|simpl; lia]|].
  set (st1 := if pendingSpace st then _ else st).
  assert (Hi : i st1 = i st).
  { unfold st1. destruct (pendingSpace st); [|reflexivity].
    destruct (negb _ && _); reflexivity. }
  clearbody st1. rewrite <- Hi.
  destruct (JS.eqb ch [JS.QUOTE]); [eexists; split; [reflexivity|simpl; lia]|].
  destruct (JS.eqb ch (JS.lit "{") || JS.eqb ch (JS.lit "[")).
  { destruct (negb (nextNonWhitespaceIndex raw (i st1 + 1) limit =? -1) && _) eqn:E.
    - eexists; split; [reflexivity|]. simpl.
      apply andb_true_iff in E as [E _]. apply negb_true_iff, Z.eqb_neq in E.
      unfold nextNonWhitespaceIndex in *.
      destruct (scan_non_whitespace_from (skipn (Z.to_nat (i st1 + 1)) raw) (i st1 + 1) limit);
        [congruence|lia].
    - destruct (pushIndent_returns
                  (set_indent (indent (out_push [ch; [JS.LF]] st1) + 1)
                     (out_push [ch; [JS.LF]] st1))) as (pad & ->).
      eexists; split; [reflexivity|simpl; lia]. }
  destruct (JS.eqb ch (JS.lit "}") || JS.eqb ch (JS.lit "]")).
  { destruct (pushIndent_returns
                (set_indent (Z.max 0 (indent (out_push [[JS.LF]] st1) - 1))
                   (out_push [[JS.LF]] st1))) as (pad & ->).
    eexists; split; [reflexivity|simpl; lia]. }
  destruct (JS.eqb ch (JS.lit ",")).
  { destruct (pushIndent_returns (out_push [JS.lit ","; [JS.LF]] st1)) as (pad & ->).
    eexists; split; [reflexivity|simpl; lia]. }
  destruct (JS.eqb ch (JS.lit ":")); eexists; split; try reflexivity; simpl; lia.
Qed.

Lemma maybeInsertSentinel_i (errorPosition : option Z) (k : Z) (st : FormatState) :
  i (maybeInsertSentinel errorPosition k st) = i st.
Proof.
  unfold maybeInsertSentinel. destruct (insertedSentinel st); [reflexivity|].
  destruct errorPosition as [p|]; [|reflexivity].
  destruct (negb (k =? p)); reflexivity.
Qed.

Lemma format_step_progress (raw : jsstring) (errorPosition : option Z) (st : FormatState) :
  True ->
  (exists st', format_step raw errorPosition st = Returns (Continue st')
               /\ True /\ (Z.to_nat (JS.length raw - i st') < Z.to_nat (JS.length raw - i st))%nat)
  \/ (exists r, format_step raw errorPosition st = Returns (Break r) /\ True).
Proof.
  intros _. unfold format_step.
  destruct (Z.ltb_spec (i st) (JS.length raw)); [left|right; eauto].
  destruct (format_body_returns raw (JS.length raw)
              (JS.get_or_empty raw (i (maybeInsertSentinel errorPosition (i st) st)))
              (maybeInsertSentinel errorPosition (i st) st)) as (st' & -> & Hi).
  rewrite maybeInsertSentinel_i in Hi.
  eexists; split; [reflexivity|]. split; [exact I|]. simpl. lia.
Qed.

Lemma formatJsonBestEffort_returns (raw : jsstring) (errorPosition : option Z) :
  exists r, formatJsonBestEffort raw errorPosition = Returns r.
Proof.
  unfold formatJsonBestEffort, formatJsonBestEffort_within.
  destruct (run_loop_returns (format_step raw errorPosition)
              (fun _ => True) (fun _ => True)
              (fun st => Z.to_nat (JS.length raw - i st))
              (format_step_progress raw errorPosition)
              (S (List.length raw)) initial I) as (st & -> & _).
  - unfold JS.length. simpl. lia.
  - simpl. eauto.
Qed.

Lemma scan_non_whitespace_blank (ws : jsstring) (c : N) (rest : jsstring) (k limit : Z) :
  blank ws -> is_whitespace [c] = false -> k + JS.length ws < limit ->
  scan_non_whitespace (ws ++ c :: rest) k limit = k + JS.length ws.
Proof.
  intros Hws Hc. revert k. induction Hws as [|x ws Hx Hws IH]; intros k Hk.
  - unfold JS.length in *; simpl in *.
    destruct (Z.leb_spec limit k); [lia|]. rewrite Hc. lia.
  - unfold JS.length in *. cbn [app scan_non_whitespace].
    destruct (Z.leb_spec limit k); [simpl List.length in Hk; lia|].
    rewrite Hx. rewrite IH by (simpl List.length in Hk; lia).
    simpl List.length. lia.
Qed.

Lemma get_or_empty_after (a : jsstring) (c : N) (rest : jsstring) :
  JS.get_or_empty (a ++ c :: rest) (JS.length a) = [c].
Proof.
  unfold JS.get_or_empty, JS.get, JS.length.
  destruct (Z.ltb_spec (Z.of_nat (List.length a)) 0); [lia|].
  rewrite Nat2Z.id, nth_error_app2 by lia. now rewrite Nat.sub_diag.
Qed.

(** An error offset strictly inside the whitespace of an otherwise empty
    container gets no highlight: the compaction jumps over it. *)
Lemma formatJsonBestEffort_inside_empty_pair (curly : bool) (ws : jsstring) (p : Z) :
  blank ws -> 1 <= p <= JS.length ws ->
  0 <= p < JS.length (opener curly :: ws ++ [closer curly])
  /\ formatJsonBestEffort (opener curly :: ws ++ [closer curly]) (Some p)
     = Returns (mkFormatResult [opener curly; closer curly; JS.LF] None).
Proof.
  intros Hws Hp.
  set (raw := opener curly :: ws ++ [closer curly]).
  assert (Hlen : JS.length raw = JS.length ws + 2).
  { unfold raw, JS.length. simpl List.length. rewrite length_app. simpl. lia. }
  split; [lia|].
  set (st1 := mkFormat (JS.length ws + 1) [[opener curly]; [closer curly]]
                0 false false false false).
  assert (H1 : format_step raw (Some p) initial = Returns (Continue (set_i (i st1 + 1) st1))).
  { unfold format_step. cbn [i initial].
    destruct (Z.ltb_spec 0 (JS.length raw)); [|lia].
    unfold maybeInsertSentinel. cbn [insertedSentinel initial].
    destruct (Z.eqb_spec 0 p); [lia|]. cbn [negb].
    change (JS.get_or_empty raw 0) with [opener curly].
    unfold format_body. cbn [inString initial pendingSpace i].
    assert (Hj : nextNonWhitespaceIndex raw (0 + 1) (JS.length raw) = JS.length ws + 1).
    { unfold nextNonWhitespaceIndex. change (skipn (Z.to_nat (0 + 1)) raw) with (ws ++ [closer curly]).
      rewrite scan_non_whitespace_blank; [lia|assumption| |lia].
      destruct curly; reflexivity. }
    rewrite Hj.
    assert (Hc : JS.get_or_empty raw (JS.length ws + 1) = [closer curly]).
    { replace (JS.length ws + 1) with (JS.length (opener curly :: ws))
        by (unfold JS.length; simpl List.length; lia).
      apply (get_or_empty_after (opener curly :: ws)). }
    rewrite Hc.
    destruct (Z.eqb_spec (JS.length ws + 1) (-1)); [unfold JS.length in *; lia|].
    destruct curly; reflexivity. }
  assert (H2 : format_step raw (Some p) (set_i (i st1 + 1) st1)
               = Returns (Break (set_i (i st1 + 1) st1))).
  { unfold format_step. cbn [i set_i st1].
    destruct (Z.ltb_spec (JS.length ws + 1 + 1) (JS.length raw)); [lia|reflexivity]. }
  unfold formatJsonBestEffort, formatJsonBestEffort_within.
  assert (Hrun : run_loop (format_step raw (Some p)) (S (List.length raw)) initial
                 = Returns (set_i (i st1 + 1) st1)).
  { unfold raw at 2. simpl List.length. rewrite length_app. simpl List.length.
    rewrite Nat.add_comm. cbn [Nat.add run_loop]. rewrite H1. cbn [bind run_loop].
    rewrite H2. reflexivity. }
  rewrite Hrun. cbn [bind insertedSentinel set_i st1 negb andb].
  destruct (Z.eqb_spec p (JS.length raw)); [lia|].
  destruct curly; reflexivity.
Qed.

End Reformatter.

(* ================================================================== *)
(** * Range compositor: properties of the rendered overlay *)

Section Compositor.

Import HighlightedTextarea Spec.

Lemma get_in_range (text : jsstring) (p : Z) (c : N) :
  JS.get text p = Some c -> 0 <= p < JS.length text.
Proof.
  unfold JS.get, JS.length. destruct (Z.ltb_spec p 0); [discriminate|].
  intros Hc. assert (nth_error text (Z.to_nat p) <> None) as Hn by congruence.
  apply nth_error_Some in Hn. lia.
Qed.

Lemma get_out_of_range (text : jsstring) (p : Z) :
  JS.get text p = None -> p < 0 \/ JS.length text <= p.
Proof.
  unfold JS.get, JS.length. destruct (Z.ltb_spec p 0); [lia|].
  intros Hn. apply nth_error_None in Hn. lia.
Qed.

Lemma shown_whole (text : jsstring) (errorPos : option Z) :
  shown text errorPos 0 (JS.length text) = with_error_glyph text errorPos.
Proof.
  unfold shown, with_error_glyph, JS.slice_from.
  destruct errorPos as [p|]; [|apply slice_all].
  destruct (JS.get text p) as [c|] eqn:Hc.
  - pose proof (get_in_range _ _ _ Hc) as Hp.
    destruct (Z.leb_spec 0 p), (Z.ltb_spec p (JS.length text)); try lia. simpl.
    unfold JS.get_or_empty. rewrite Hc. unfold error_glyph. simpl. rewrite andb_true_r.
    destruct (N.eqb c JS.SPACE); [reflexivity|].
    replace [c] with (JS.slice text p (p + 1))
      by (rewrite slice_one by lia; unfold JS.get_or_empty; now rewrite Hc).
    rewrite !slice_app by lia. apply slice_all.
  - destruct (get_out_of_range _ _ Hc);
      destruct (Z.leb_spec 0 p), (Z.ltb_spec p (JS.length text)); try lia;
      simpl; apply slice_all.
Qed.

Lemma error_glyph_no_space (text : jsstring) (p : Z) :
  ~ In JS.SPACE (error_glyph (JS.get_or_empty text p)).
Proof.
  unfold JS.get_or_empty. destruct (JS.get text p) as [c|]; [|simpl; tauto].
  unfold error_glyph. simpl. rewrite andb_true_r.
  destruct (N.eqb_spec c JS.SPACE) as [->|Hc]; simpl.
  - intros [Hn|[]]. discriminate.
  - intros [Hn|[]]. congruence.
Qed.

(** C1 (counterexample): with the error offset on a space, the segments
    carry U+00A0 where the buffer has the space, so their concatenation
    is not the buffer. *)
Lemma renderWithHighlights_space_error_not_verbatim :
  renderWithHighlights (JS.lit " ") (Some 0) None None
    = Returns (NodeSegments [SegError [JS.NBSP]])
  /\ node_text (NodeSegments [SegError [JS.NBSP]]) <> JS.lit " ".
Proof.
  split; [reflexivity|]. vm_compute. discriminate.
Qed.

(** C1 (amended): for every buffer, error offset, match list and active
    index the compositor returns, and the concatenation of the text of its
    segments is the buffer, except that a space at the error offset
    appears as U+00A0. *)
Theorem renderWithHighlights_concat (text : jsstring) (errorPos : option Z)
    (findRanges : option (list HighlightRange)) (activeFindIndex : option Z) :
  exists node,
    renderWithHighlights text errorPos findRanges activeFindIndex = Returns node
    /\ node_text node = with_error_glyph text errorPos.
Proof.
  destruct (renderWithHighlights_lays text errorPos findRanges activeFindIndex)
    as (node & Hrun & Hnode).
  exists node. split; [exact Hrun|].
  destruct Hnode as [[-> Ht] | (l & -> & _ & HR)].
  - unfold node_text, segs_text; simpl. rewrite app_nil_r.
    rewrite Ht. unfold with_error_glyph. destruct errorPos as [p|]; [|reflexivity].
    destruct (JS.get [] p) as [c|] eqn:Hc; [|reflexivity].
    apply get_in_range in Hc. change (JS.length []) with 0 in Hc. lia.
  - unfold node_text; simpl. rewrite <- shown_whole.
    apply Renders_segs_text with (a := 0); [assumption|lia|lia].
Qed.

(** C2: when the error offset lies inside the buffer, exactly one segment
    of the output is tagged as the error, whatever the match ranges and the
    active index are. *)
Theorem renderWithHighlights_error_once (text : jsstring) (p : Z)
    (findRanges : option (list HighlightRange)) (activeFindIndex : option Z) :
  0 <= p < JS.length text ->
  exists node,
    renderWithHighlights text (Some p) findRanges activeFindIndex = Returns node
    /\ error_count node = 1%nat.
Proof.
  intros Hp.
  destruct (renderWithHighlights_lays text (Some p) findRanges activeFindIndex)
    as (node & Hrun & Hnode).
  exists node. split; [exact Hrun|].
  destruct Hnode as [[-> Ht] | (l & -> & _ & HR)].
  - rewrite Ht in Hp. unfold JS.length in Hp; simpl in Hp. lia.
  - unfold error_count; simpl. rewrite (Renders_error_count _ _ _ _ _ HR).
    unfold hits. destruct (Z.leb_spec 0 p), (Z.ltb_spec p (JS.length text)); simpl; auto; lia.
Qed.

Lemma renderWithHighlights_error_once_witness :
  0 <= 2 < JS.length (JS.lit "ab cd")
  /\ exists node,
       renderWithHighlights (JS.lit "ab cd") (Some 2)
         (Some [mkRange 3 9; mkRange 1 4; mkRange 0 2]) (Some 1) = Returns node
       /\ error_count node = 1%nat.
Proof.
  assert (Hp : 0 <= 2 < JS.length (JS.lit "ab cd")) by (vm_compute; split; congruence).
  split; [exact Hp|].
  exact (renderWithHighlights_error_once (JS.lit "ab cd") 2
           (Some [mkRange 3 9; mkRange 1 4; mkRange 0 2]) (Some 1) Hp).
Defined.

(** C9 (counterexample): a space inside a match segment stays a literal
    space. *)
Lemma renderWithHighlights_find_keeps_space :
  renderWithHighlights (JS.lit "a b") None (Some [mkRange 0 3]) (Some 0)
    = Returns (NodeSegments [SegFind (JS.lit "a b") true])
  /\ In JS.SPACE (JS.lit "a b").
Proof.
  split; [reflexivity|]. simpl. auto.
Qed.

(** C9 (amended): the error segment carries the glyph of the character at
    the error offset, so a space there is shown as U+00A0 and an error
    segment never carries a literal space; every match segment and every
    plain segment carries an exact slice of the buffer. *)
Theorem renderWithHighlights_segments_faithful (text : jsstring) (errorPos : option Z)
    (findRanges : option (list HighlightRange)) (activeFindIndex : option Z) :
  exists node,
    renderWithHighlights text errorPos findRanges activeFindIndex = Returns node
    /\ Forall (faithful_segment text errorPos) (node_segments node)
    /\ Forall (fun s => match s with
                        | SegError v => ~ In JS.SPACE v
                        | _ => True
                        end) (node_segments node)
    /\ error_glyph [JS.SPACE] = [JS.NBSP].
Proof.
  destruct (renderWithHighlights_lays text errorPos findRanges activeFindIndex)
    as (node & Hrun & Hnode).
  assert (HF : Forall (faithful_segment text errorPos) (node_segments node)).
  { destruct Hnode as [[-> Ht] | (l & -> & _ & HR)]; simpl.
    - constructor; [|constructor]. simpl. exists 0, (JS.length text).
      rewrite slice_all. repeat split; try (unfold JS.length; lia).
      rewrite Ht. unfold hits. destruct errorPos as [p|]; [|reflexivity].
      change (JS.length []) with 0.
      destruct (Z.leb_spec 0 p), (Z.ltb_spec p 0); simpl; try reflexivity; lia.
    - eapply Renders_faithful; eassumption. }
  exists node. repeat split; auto.
  eapply Forall_impl; [|exact HF]. intros [v|v cur|v]; simpl; auto.
  intros (p & _ & _ & ->). apply error_glyph_no_space.
Qed.

End Compositor.

(* ================================================================== *)
(** * Match engine: properties of the match list *)

Section MatchEngine.

Import FindMatches Spec.

Context {H : Host}.

Hypothesis search_bounds : forall re text i s e,
  regexp_search re text i = Some (s, e) ->
  (i <= s /\ s <= e /\ e <= List.length text)%nat.

(** C3: for every buffer and every combination of options the engine
    returns a match list that is sorted ascending by start and whose
    ranges are pairwise non-overlapping. *)
Theorem computeFindMatches_sorted_disjoint (text : jsstring) (options : FindOptions) :
  exists r,
    computeFindMatches text options = Returns r
    /\ ascending (matches r) /\ pairwise_disjoint (matches r).
Proof.
  destruct (computeFindMatches_spaced search_bounds text options) as (r & Hr & Hs).
  exists r. split; [exact Hr|]. split.
  - exact (spaced_ascending 0 _ Hs).
  - exact (spaced_disjoint 0 _ Hs).
Qed.

(** No range of the result is empty: a zero-length match is never
    recorded. *)
Lemma computeFindMatches_ranges_nonempty (text : jsstring) (options : FindOptions) :
  exists r,
    computeFindMatches text options = Returns r
    /\ Forall (fun m => start m < end_ m) (matches r).
Proof.
  destruct (computeFindMatches_spaced search_bounds text options) as (r & Hr & Hs).
  exists r. split; [exact Hr|]. exact (spaced_nonempty 0 _ Hs).
Qed.

(** The iteration budget does not show in the result. *)
Lemma computeFindMatches_budget_irrelevant (fuel : jsstring -> nat) (text : jsstring)
    (options : FindOptions) :
  (forall s, (loop_budget s <= fuel s)%nat) ->
  computeFindMatches_within fuel text options = computeFindMatches text options.
Proof.
  intros Hfuel.
  destruct (computeFindMatches_spaced search_bounds text options) as (r & Hr & _).
  rewrite Hr. revert Hr. unfold computeFindMatches, computeFindMatches_within.
  destruct (JS.is_empty (query options)); [auto|].
  destruct (regex options).
  - destruct (new_RegExp (query options) (regexp_flags options)) as [re|msg]; [|auto].
    destruct (run_loop _ (loop_budget text) _) as [ms| |] eqn:E; simpl; try discriminate.
    intros <-. now rewrite (run_loop_more_fuel _ _ _ _ _ E (Hfuel text)).
  - destruct (JS.is_empty _); [auto|].
    destruct (run_loop _ (loop_budget _) _) as [ms| |] eqn:E; simpl; try discriminate.
    intros <-. now rewrite (run_loop_more_fuel _ _ _ _ _ E (Hfuel _)).
Qed.

(** C6: in regex mode, a pattern that does not compile yields an empty
    match list together with a non-empty error string, for every buffer. *)
Theorem computeFindMatches_invalid_regex (text : jsstring) (options : FindOptions)
    (message : jsstring) :
  JS.is_empty (query options) = false ->
  regex options = true ->
  new_RegExp (query options) (regexp_flags options) = SyntaxError message ->
  exists e,
    computeFindMatches text options = Returns (mkResult [] (Some e)) /\ e <> [].
Proof.
  intros Hq Hr Hc. unfold computeFindMatches, computeFindMatches_within.
  rewrite Hq, Hr, Hc. eexists; split; [reflexivity|].
  destruct message; simpl; [vm_compute|]; discriminate.
Qed.

(** An error never comes with matches: whenever the result carries an
    error string, its match list is empty. *)
Lemma computeFindMatches_error_without_matches (text : jsstring) (options : FindOptions)
    (r : FindResult) :
  computeFindMatches text options = Returns r -> error r <> None -> matches r = [].
Proof.
  unfold computeFindMatches, computeFindMatches_within.
  destruct (JS.is_empty (query options)); [intros [= <-]; reflexivity|].
  destruct (regex options).
  - destruct (new_RegExp (query options) (regexp_flags options)) as [re|msg];
      [|intros [= <-]; reflexivity].
    destruct (run_loop _ _ _) as [ms| |]; simpl; try discriminate.
    intros [= <-]. simpl. congruence.
  - destruct (JS.is_empty _); [intros [= <-]; reflexivity|].
    destruct (run_loop _ _ _) as [ms| |]; simpl; try discriminate.
    intros [= <-]. simpl. congruence.
Qed.

(** The engine is total. *)
Lemma computeFindMatches_returns (text : jsstring) (options : FindOptions) :
  exists r, computeFindMatches text options = Returns r.
Proof.
  destruct (computeFindMatches_spaced search_bounds text options) as (r & Hr & _). eauto.
Qed.

(** C7: the match engine, the range compositor and the reformatter return
    normally on every buffer, options and offset; none of them raises or
    loops. *)
Theorem core_components_return :
  (forall text options, exists r, computeFindMatches text options = Returns r)
  /\ (forall text errorPos findRanges activeFindIndex,
        exists node,
          HighlightedTextarea.renderWithHighlights text errorPos findRanges activeFindIndex
          = Returns node)
  /\ (forall raw errorPosition,
        exists r, FormatJsonBestEffort.formatJsonBestEffort raw errorPosition = Returns r).
Proof.
  split; [exact computeFindMatches_returns|]. split.
  - intros text errorPos findRanges activeFindIndex.
    destruct (renderWithHighlights_lays text errorPos findRanges activeFindIndex)
      as (node & Hrun & _). eauto.
  - exact formatJsonBestEffort_returns.
Qed.

End MatchEngine.

Section MatchEngineOnReferenceHost.

Import FindMatches Spec.

Lemma computeFindMatches_sorted_disjoint_witness :
  exists r,
    computeFindMatches (H := MiniRegExp.host) (JS.lit "xab aab b")
      (mkOptions (JS.lit "(a|x)*b") false true true) = Returns r
    /\ ascending (matches r) /\ pairwise_disjoint (matches r).
Proof.
  exact (computeFindMatches_sorted_disjoint (H := MiniRegExp.host)
           reference_search_bounds (JS.lit "xab aab b")
           (mkOptions (JS.lit "(a|x)*b") false true true)).
Defined.

Lemma computeFindMatches_invalid_regex_witness :
  exists e,
    computeFindMatches (H := MiniRegExp.host) (JS.lit "f(x) = (")
      (mkOptions (JS.lit "(") true false true) = Returns (mkResult [] (Some e))
    /\ e <> [].
Proof.
  apply (computeFindMatches_invalid_regex (H := MiniRegExp.host) (JS.lit "f(x) = (")
           (mkOptions (JS.lit "(") true false true) (JS.lit "Unterminated group"));
    reflexivity.
Defined.

Lemma core_components_return_witness :
  (exists r, computeFindMatches (H := MiniRegExp.host) []
               (mkOptions (JS.lit "a*") false false true) = Returns r)
  /\ (exists node,
        HighlightedTextarea.renderWithHighlights (JS.lit "ab") (Some 2)
          (Some [HighlightedTextarea.mkRange 0 2]) None = Returns node)
  /\ (exists r, FormatJsonBestEffort.formatJsonBestEffort (JS.lit "{") (Some 1) = Returns r).
Proof.
  destruct (core_components_return (H := MiniRegExp.host) reference_search_bounds)
    as (Hfind & Hrender & Hformat).
  split; [apply Hfind|]. split; [apply Hrender | apply Hformat].
Defined.

(** C4 (counterexample): the result for the pattern [a*] on [bbb] holds no
    match at all, so it does not include the zero-length positions. *)
Lemma star_on_bbb_result_is_empty :
  computeFindMatches (H := MiniRegExp.host) (JS.lit "bbb")
    (mkOptions (JS.lit "a*") false false true) = Returns (mkResult [] None).
Proof. reflexivity. Qed.

(** C4 (amended): the search for [a*] in [bbb] in regex mode returns, with
    an empty match list and no error; the scan meets a zero-length match at
    each of the positions 0, 1, 2 and 3, each of the first three moves the
    scan position on by one without recording a match, and the one at the
    end of the buffer ends the scan. *)
Theorem computeFindMatches_star_on_bbb :
  exists re,
    @new_RegExp MiniRegExp.host (JS.lit "a*")
      (regexp_flags (mkOptions (JS.lit "a*") false false true)) = Compiled re
    /\ exec re (JS.lit "bbb") 0 = (Some (0, []), 0)
    /\ exec re (JS.lit "bbb") 1 = (Some (1, []), 1)
    /\ exec re (JS.lit "bbb") 2 = (Some (2, []), 2)
    /\ exec re (JS.lit "bbb") 3 = (Some (3, []), 3)
    /\ (forall ms, regex_step re (JS.lit "bbb") false (0, ms) = Returns (Continue (1, ms)))
    /\ (forall ms, regex_step re (JS.lit "bbb") false (1, ms) = Returns (Continue (2, ms)))
    /\ (forall ms, regex_step re (JS.lit "bbb") false (2, ms) = Returns (Continue (3, ms)))
    /\ (forall ms, regex_step re (JS.lit "bbb") false (3, ms) = Returns (Break ms))
    /\ computeFindMatches (H := MiniRegExp.host) (JS.lit "bbb")
         (mkOptions (JS.lit "a*") false false true) = Returns (mkResult [] None).
Proof.
  eexists. split; [reflexivity|]. repeat split; intros; reflexivity.
Qed.

(** Whole-word search: only the standalone word matches. *)
Example whole_word_cat :
  computeFindMatches (H := MiniRegExp.host) (JS.lit "concatenate cat catalog")
    (mkOptions (JS.lit "cat") false true false)
  = Returns (mkResult [mkMatch 12 15] None).
Proof. reflexivity. Qed.

(** Case sensitivity: one match with [matchCase], three without. *)
Example match_case_cat :
  computeFindMatches (H := MiniRegExp.host) (JS.lit "cat Cat CAT")
    (mkOptions (JS.lit "Cat") true false false)
  = Returns (mkResult [mkMatch 4 7] None)
  /\ computeFindMatches (H := MiniRegExp.host) (JS.lit "cat Cat CAT")
       (mkOptions (JS.lit "Cat") false false false)
     = Returns (mkResult [mkMatch 0 3; mkMatch 4 7; mkMatch 8 11] None).
Proof. split; reflexivity. Qed.

(** Literal occurrences that overlap are found one after the other. *)
Example literal_aa_in_aaaa :
  computeFindMatches (H := MiniRegExp.host) (JS.lit "aaaa")
    (mkOptions (JS.lit "aa") true false false)
  = Returns (mkResult [mkMatch 0 2; mkMatch 2 4] None).
Proof. reflexivity. Qed.

(** A regular expression with a non-empty and an empty way to match. *)
Example regex_b_star_in_abba :
  computeFindMatches (H := MiniRegExp.host) (JS.lit "abba")
    (mkOptions (JS.lit "b*") true false true)
  = Returns (mkResult [mkMatch 1 3] None).
Proof. reflexivity. Qed.

End MatchEngineOnReferenceHost.

(* ================================================================== *)
(** * Reformatter: where the tracked offset lands *)

Section ReformatterExamples.

Import FormatJsonBestEffort Spec.

(** C5 (counterexample): with the error offset at the end of the input the
    highlight is not line 3, column 1. *)
Lemma end_offset_highlight_not_column_1 :
  JS.length object_a_1 = 7
  /\ formatJsonBestEffort object_a_1 (Some 7)
     <> Returns (mkFormatResult object_a_1_formatted (Some (mkLineColumn 3 1))).
Proof.
  split; [reflexivity|]. vm_compute. discriminate.
Qed.

(** C5 (amended): reformatting the sample object with the error offset 7, the end
    of the input, yields the three-line output with a final newline and
    the highlight line 3, column 2: the position just after the closing
    brace. *)
Theorem formatJsonBestEffort_end_offset :
  formatJsonBestEffort object_a_1 (Some 7)
  = Returns (mkFormatResult object_a_1_formatted (Some (mkLineColumn 3 2))).
Proof. reflexivity. Qed.

(** C10: an in-range error offset can get no highlight: offset 1 of
    [{  }] lies in the whitespace that the empty-container compaction
    skips, the sentinel is never inserted, and the result has no
    highlight. *)
Theorem formatJsonBestEffort_no_highlight_inside_empty_pair :
  exists raw p,
    raw = JS.lit "{  }"
    /\ 0 <= p < JS.length raw
    /\ formatJsonBestEffort raw (Some p) = Returns (mkFormatResult (JS.lit "{}" ++ [JS.LF]) None)
    /\ run_loop (format_step raw (Some p)) 5 initial
       = Returns (mkFormat 4 [JS.lit "{"; JS.lit "}"] 0 false false false false).
Proof.
  exists (JS.lit "{  }"), 1. split; [reflexivity|]. split; [vm_compute; split; congruence|].
  split; reflexivity.
Qed.

End ReformatterExamples.

(* ================================================================== *)
(** * Navigation: wraparound *)

Section Navigation.

Import App.

Lemma rem_wrap_before (n : Z) : 0 < n -> Z.rem (Z.rem (-1) n + n) n = n - 1.
Proof.
  intros Hn. destruct (Z.eq_dec n 1) as [->|Hn1]; [reflexivity|].
  change (Z.rem (-1) n) with (Z.rem (- (1)) n).
  rewrite (Z.rem_opp_l 1 n) by lia. rewrite (Z.rem_small 1 n) by lia.
  replace (- (1) + n) with (n - 1) by lia. apply Z.rem_small. lia.
Qed.

Lemma rem_wrap_after (n : Z) : 0 < n -> Z.rem (Z.rem n n + n) n = 0.
Proof.
  intros Hn. rewrite Z.rem_same by lia. simpl. apply Z.rem_same. lia.
Qed.

Lemma get_index_in_range {A : Type} (l : list A) (k : Z) :
  0 <= k < Z.of_nat (List.length l) -> exists x, JS.get_index l k = Some x.
Proof.
  intros Hk. unfold JS.get_index. destruct (Z.ltb_spec k 0); [lia|].
  destruct (nth_error l (Z.to_nat k)) as [x|] eqn:E; [eauto|].
  apply nth_error_None in E. lia.
Qed.

(** C8: with N matches, going to index -1 (one before the first, as
    [gotoPrevMatch] asks from index 0) lands on N-1, going to index N (one
    past the last, as [gotoNextMatch] asks from index N-1) lands on 0, and
    with no match navigation leaves the state, active index included, as
    it is. *)
Theorem gotoFindIndex_wraparound :
  (forall m ms active ta,
      let n := Z.of_nat (List.length (m :: ms)) in
      (exists st, gotoFindIndex (-1) (mkFindState (m :: ms) active ta) = Returns st
                  /\ activeFindIndex st = n - 1)
      /\ (exists st, gotoFindIndex n (mkFindState (m :: ms) active ta) = Returns st
                     /\ activeFindIndex st = 0)
      /\ gotoPrevMatch (mkFindState (m :: ms) 0 ta)
         = gotoFindIndex (-1) (mkFindState (m :: ms) 0 ta)
      /\ gotoNextMatch (mkFindState (m :: ms) (n - 1) ta)
         = gotoFindIndex n (mkFindState (m :: ms) (n - 1) ta))
  /\ (forall k active ta,
        gotoFindIndex k (mkFindState [] active ta) = Returns (mkFindState [] active ta)
        /\ gotoNextMatch (mkFindState [] active ta) = Returns (mkFindState [] active ta)
        /\ gotoPrevMatch (mkFindState [] active ta) = Returns (mkFindState [] active ta)
        /\ gotoFindIndex k (mkFindState [] (-1) ta) = Returns (mkFindState [] (-1) ta)).
Proof.
  split; [|intros; repeat split; reflexivity].
  intros m ms active ta n.
  assert (Hn : 0 < n) by (unfold n; simpl List.length; lia).
  assert (Hgo : forall k a, 0 <= Z.rem (Z.rem k n + n) n < n ->
            exists st, gotoFindIndex k (mkFindState (m :: ms) a ta) = Returns st
                       /\ activeFindIndex st = Z.rem (Z.rem k n + n) n).
  { intros k a Hk. unfold gotoFindIndex. cbn [findMatches]. fold n.
    destruct (Z.eqb_spec n 0); [lia|].
    cbn [findMatches textarea].
    destruct ta as [sel|]; [|eexists; split; reflexivity].
    destruct (get_index_in_range (m :: ms) _ Hk) as (x & ->).
    eexists; split; reflexivity. }
  split; [|split; [|split]].
  - destruct (Hgo (-1) active) as (st & Hst & Ha).
    + rewrite rem_wrap_before by lia. lia.
    + exists st. split; [exact Hst|]. rewrite Ha. apply rem_wrap_before. lia.
  - destruct (Hgo n active) as (st & Hst & Ha).
    + rewrite rem_wrap_after by lia. lia.
    + exists st. split; [exact Hst|]. rewrite Ha. apply rem_wrap_after. lia.
  - unfold gotoPrevMatch. cbn [findMatches activeFindIndex]. fold n.
    destruct (Z.eqb_spec n 0); [lia|]. reflexivity.
  - unfold gotoNextMatch. cbn [findMatches activeFindIndex]. fold n.
    destruct (Z.eqb_spec n 0); [lia|].
    destruct (Z.ltb_spec (n - 1) 0); [lia|]. now replace (n - 1 + 1) with n by lia.
Qed.

End Navigation.


(* ================================================================== *)
(** * Splitting into lines and joining back *)

Section SplitFacts.

Variable sep : N.

Lemma split_on_cons (c : N) (s : jsstring) :
  JS.split_on sep (c :: s)
  = if N.eqb c sep then [] :: JS.split_on sep s
    else (c :: hd [] (JS.split_on sep s)) :: tl (JS.split_on sep s).
Proof.
  simpl. destruct (N.eqb c sep); [reflexivity|].
  destruct (JS.split_on sep s) as [|piece pieces] eqn:E; [|reflexivity].
  destruct s as [|d s]; simpl in E; [discriminate|].
  destruct (N.eqb d sep); [discriminate|].
  destruct (JS.split_on sep s); discriminate.
Qed.

Lemma split_on_not_nil (s : jsstring) : JS.split_on sep s <> [].
Proof.
  destruct s as [|c s]; [discriminate|]. rewrite split_on_cons.
  destruct (N.eqb c sep); discriminate.
Qed.

Lemma split_on_hd_tl (s : jsstring) :
  JS.split_on sep s = hd [] (JS.split_on sep s) :: tl (JS.split_on sep s).
Proof.
  pose proof (split_on_not_nil s). destruct (JS.split_on sep s); [congruence|reflexivity].
Qed.

Lemma join_with_cons (piece : jsstring) (rest : list jsstring) :
  rest <> [] -> JS.join_with [sep] (piece :: rest) = piece ++ sep :: JS.join_with [sep] rest.
Proof. destruct rest; [congruence|reflexivity]. Qed.

Lemma join_split (s : jsstring) : JS.join_with [sep] (JS.split_on sep s) = s.
Proof.
  induction s as [|c s IH]; [reflexivity|]. rewrite split_on_cons.
  destruct (N.eqb_spec c sep) as [->|Hc].
  - rewrite join_with_cons by apply split_on_not_nil. simpl. now rewrite IH.
  - rewrite (split_on_hd_tl s) in IH.
    destruct (tl (JS.split_on sep s)) as [|p ps] eqn:E.
    + simpl in *. now rewrite IH.
    + rewrite join_with_cons in IH by discriminate.
      rewrite join_with_cons by discriminate.
      rewrite <- app_comm_cons. f_equal. exact IH.
Qed.

Lemma split_on_free (s : jsstring) : Forall (fun piece => ~ In sep piece) (JS.split_on sep s).
Proof.
  induction s as [|c s IH]; [repeat constructor; auto|]. rewrite split_on_cons.
  rewrite (split_on_hd_tl s) in IH. inversion IH as [|? ? Hh Ht]; subst.
  destruct (N.eqb_spec c sep) as [->|Hc].
  - constructor; [auto|]. now rewrite split_on_hd_tl.
  - constructor; [|assumption]. simpl. intros [->|Hin]; [congruence|auto].
Qed.

Lemma split_on_length (s : jsstring) :
  List.length (JS.split_on sep s) = S (count_occ N.eq_dec s sep).
Proof.
  induction s as [|c s IH]; [reflexivity|]. rewrite split_on_cons.
  rewrite (split_on_hd_tl s) in IH. simpl in IH. simpl count_occ.
  destruct (N.eqb_spec c sep) as [->|Hc].
  - destruct (N.eq_dec sep sep); [|congruence]. simpl.
    rewrite split_on_hd_tl. simpl. now rewrite IH.
  - destruct (N.eq_dec c sep); [congruence|]. simpl. exact IH.
Qed.

Lemma split_on_free_piece (piece : jsstring) :
  ~ In sep piece -> JS.split_on sep piece = [piece].
Proof.
  induction piece as [|c piece IH]; [reflexivity|]. intros Hn. rewrite split_on_cons.
  destruct (N.eqb_spec c sep) as [->|Hc]; [exfalso; apply Hn; now left|].
  rewrite IH by (intros Hin; apply Hn; now right). reflexivity.
Qed.

Lemma split_on_app_sep (piece rest : jsstring) :
  ~ In sep piece ->
  JS.split_on sep (piece ++ sep :: rest) = piece :: JS.split_on sep rest.
Proof.
  induction piece as [|c piece IH]; intros Hn.
  - simpl app. rewrite split_on_cons. now rewrite N.eqb_refl.
  - simpl app. rewrite split_on_cons.
    destruct (N.eqb_spec c sep) as [->|Hc]; [exfalso; apply Hn; now left|].
    rewrite IH by (intros Hin; apply Hn; now right). reflexivity.
Qed.

Lemma split_join (pieces : list jsstring) :
  pieces <> [] -> Forall (fun piece => ~ In sep piece) pieces ->
  JS.split_on sep (JS.join_with [sep] pieces) = pieces.
Proof.
  induction pieces as [|p ps IH]; [congruence|]. intros _ Hall.
  inversion Hall as [|? ? Hp Hps]; subst.
  destruct ps as [|q ps].
  - simpl. now apply split_on_free_piece.
  - rewrite join_with_cons by discriminate.
    rewrite split_on_app_sep by assumption. f_equal. apply IH; [discriminate|assumption].
Qed.

Lemma split_on_snoc_sep (s : jsstring) :
  JS.split_on sep (s ++ [sep]) = JS.split_on sep s ++ [[]].
Proof.
  induction s as [|c s IH].
  - simpl. now rewrite N.eqb_refl.
  - simpl app. rewrite !split_on_cons, IH.
    destruct (N.eqb c sep); [reflexivity|].
    rewrite (split_on_hd_tl s). reflexivity.
Qed.

End SplitFacts.

(* ================================================================== *)
(** * The text utilities *)

Section UtilsFacts.

Import Utils.

Lemma replace_crlf_fixed (s : jsstring) : ~ In JS.CR s -> replace_crlf s = s.
Proof.
  induction s as [|c s IH]; [reflexivity|]. intros Hn.
  assert (Hc : N.eqb c JS.CR = false) by (apply N.eqb_neq; intros ->; apply Hn; now left).
  cbn [replace_crlf]. rewrite Hc. cbn [andb].
  destruct s as [|d s]; [reflexivity|].
  f_equal. apply IH. intros Hin. apply Hn. now right.
Qed.

Lemma replace_cr_fixed (s : jsstring) : ~ In JS.CR s -> replace_cr s = s.
Proof.
  induction s as [|c s IH]; [reflexivity|]. intros Hn. simpl.
  destruct (N.eqb_spec c JS.CR) as [->|_]; [exfalso; apply Hn; now left|].
  f_equal. apply IH. intros Hin. apply Hn. now right.
Qed.

Lemma replace_cr_free (s : jsstring) : ~ In JS.CR (replace_cr s).
Proof.
  unfold replace_cr. rewrite in_map_iff. intros (c & Hc & _).
  destruct (N.eqb_spec c JS.CR); [discriminate|congruence].
Qed.

Lemma replace_crlf_length (s : jsstring) :
  (List.length (replace_crlf s) <= List.length s)%nat.
Proof.
  assert (H : forall n s, (List.length s <= n)%nat ->
              (List.length (replace_crlf s) <= List.length s)%nat).
  { induction n as [|n IH]; intros [|c [|d s']] Hs; simpl in *; try lia.
    destruct (N.eqb c JS.CR && N.eqb d JS.LF); simpl.
    - specialize (IH s'). lia.
    - specialize (IH (d :: s')). simpl in IH. lia. }
  apply (H (List.length s)). lia.
Qed.

Lemma normalizeNewlines_fixed (s : jsstring) :
  ~ In JS.CR s -> normalizeNewlines s = s.
Proof.
  intros Hn. unfold normalizeNewlines. rewrite replace_crlf_fixed by assumption.
  now apply replace_cr_fixed.
Qed.

Lemma normalizeNewlines_no_cr_idempotent_facts (input : jsstring) :
  ~ In JS.CR (normalizeNewlines input)
  /\ normalizeNewlines (normalizeNewlines input) = normalizeNewlines input
  /\ JS.length (normalizeNewlines input) <= JS.length input.
Proof.
  assert (Hfree : ~ In JS.CR (normalizeNewlines input)) by apply replace_cr_free.
  split; [exact Hfree|]. split; [now apply normalizeNewlines_fixed|].
  unfold normalizeNewlines, replace_cr, JS.length. rewrite length_map.
  pose proof (replace_crlf_length input). lia.
Qed.

(** X1: the result of [normalizeNewlines] holds no carriage return, is
    never longer than the input, and normalizing it again changes
    nothing. *)
Theorem normalizeNewlines_no_cr_idempotent (input : jsstring) :
  ~ In JS.CR (normalizeNewlines input)
  /\ normalizeNewlines (normalizeNewlines input) = normalizeNewlines input
  /\ JS.length (normalizeNewlines input) <= JS.length input.
Proof. exact (normalizeNewlines_no_cr_idempotent_facts input). Qed.

Lemma strip_trailing_blank_idempotent (line : jsstring) :
  strip_trailing_blank (strip_trailing_blank line) = strip_trailing_blank line.
Proof.
  induction line as [|c rest IH]; [reflexivity|]. cbn [strip_trailing_blank].
  destruct (is_blank c && JS.is_empty (strip_trailing_blank rest)) eqn:E; [reflexivity|].
  cbn [strip_trailing_blank]. rewrite IH, E. reflexivity.
Qed.

Lemma strip_trailing_blank_last (line : jsstring) :
  strip_trailing_blank line = []
  \/ is_blank (last (strip_trailing_blank line) 0%N) = false.
Proof.
  induction line as [|c rest IH]; [now left|]. cbn [strip_trailing_blank].
  destruct (is_blank c) eqn:Ec; simpl andb.
  - destruct (strip_trailing_blank rest) as [|d r] eqn:Er; [now left|].
    right. destruct IH as [|IH]; [discriminate|]. exact IH.
  - right. destruct (strip_trailing_blank rest) as [|d r] eqn:Er; [exact Ec|].
    destruct IH as [|IH]; [discriminate|]. exact IH.
Qed.

Lemma strip_trailing_blank_Forall (P : N -> Prop) (line : jsstring) :
  Forall P line -> Forall P (strip_trailing_blank line).
Proof.
  induction 1 as [|c rest Hc Hrest IH]; [constructor|]. cbn [strip_trailing_blank].
  destruct (is_blank c && JS.is_empty (strip_trailing_blank rest)); auto.
Qed.

(** Only a run of spaces and tabs at the end is dropped. *)
Lemma strip_trailing_blank_prefix (line : jsstring) :
  exists dropped,
    line = strip_trailing_blank line ++ dropped
    /\ Forall (fun c => is_blank c = true) dropped.
Proof.
  induction line as [|c rest (dropped & Hd & Hb)]; [exists []; split; [reflexivity|constructor]|].
  cbn [strip_trailing_blank].
  destruct (is_blank c) eqn:Ec; simpl andb.
  - destruct (strip_trailing_blank rest) as [|d r] eqn:Er.
    + exists (c :: dropped). simpl in *. subst rest. split; [reflexivity|]. now constructor.
    + exists dropped. simpl. split; [now rewrite Hd at 1|assumption].
  - exists dropped. simpl. split; [now rewrite Hd at 1|assumption].
Qed.

Lemma Forall_split_on (P : N -> Prop) (sep : N) (s : jsstring) :
  Forall P s -> Forall (Forall P) (JS.split_on sep s).
Proof.
  induction 1 as [|c s Hc Hs IH]; [repeat constructor|]. rewrite split_on_cons.
  rewrite (split_on_hd_tl sep s) in IH. inversion IH; subst.
  destruct (N.eqb c sep).
  - constructor; [constructor|]. now rewrite split_on_hd_tl.
  - constructor; [constructor|]; assumption.
Qed.

Lemma Forall_join_with (P : N -> Prop) (sep : N) (pieces : list jsstring) :
  P sep -> Forall (Forall P) pieces -> Forall P (JS.join_with [sep] pieces).
Proof.
  intros Hsep. induction 1 as [|p ps Hp Hps IH]; [constructor|].
  destruct ps as [|q ps]; [exact Hp|].
  rewrite join_with_cons by discriminate. apply Forall_app. split; [exact Hp|].
  constructor; assumption.
Qed.

Lemma trim_Forall (P : N -> Prop) (s : jsstring) :
  P JS.LF -> Forall P s -> Forall P (trimTrailingWhitespacePerLine s).
Proof.
  intros HLF Hs. unfold trimTrailingWhitespacePerLine.
  apply Forall_join_with; [assumption|].
  apply Forall_map. eapply Forall_impl; [|apply Forall_split_on; exact Hs].
  intros line. apply strip_trailing_blank_Forall.
Qed.

Lemma trim_lines (s : jsstring) :
  JS.split_on JS.LF (trimTrailingWhitespacePerLine s)
  = map strip_trailing_blank (JS.split_on JS.LF s).
Proof.
  unfold trimTrailingWhitespacePerLine. apply split_join.
  - pose proof (split_on_not_nil JS.LF s).
    destruct (JS.split_on JS.LF s); [congruence|discriminate].
  - apply Forall_map. eapply Forall_impl; [|apply (split_on_free JS.LF s)].
    intros line Hfree Hin. apply Hfree.
    destruct (strip_trailing_blank_prefix line) as (dropped & Hl & _).
    rewrite Hl. apply in_or_app. now left.
Qed.

Lemma trim_fixed (s : jsstring) :
  Forall (fun line => strip_trailing_blank line = line) (JS.split_on JS.LF s) ->
  trimTrailingWhitespacePerLine s = s.
Proof.
  intros Hall. unfold trimTrailingWhitespacePerLine.
  rewrite <- (join_split JS.LF s) at 2. f_equal.
  rewrite <- (map_id (JS.split_on JS.LF s)) at 2.
  apply map_ext_in. intros line Hin. rewrite Forall_forall in Hall. now apply Hall.
Qed.

Lemma trim_trimmed (s : jsstring) :
  Forall (fun line => strip_trailing_blank line = line)
    (JS.split_on JS.LF (trimTrailingWhitespacePerLine s)).
Proof.
  rewrite trim_lines. apply Forall_map, Forall_forall. intros line _.
  apply strip_trailing_blank_idempotent.
Qed.

(** X2: [trimTrailingWhitespacePerLine] keeps the number of lines, leaves
    no line that ends in a space or a tab, and trimming again changes
    nothing. *)
Theorem trimTrailingWhitespacePerLine_lines (input : jsstring) :
  List.length (JS.split_on JS.LF (trimTrailingWhitespacePerLine input))
  = List.length (JS.split_on JS.LF input)
  /\ Forall (fun line => line = [] \/ is_blank (last line 0%N) = false)
       (JS.split_on JS.LF (trimTrailingWhitespacePerLine input))
  /\ trimTrailingWhitespacePerLine (trimTrailingWhitespacePerLine input)
     = trimTrailingWhitespacePerLine input.
Proof.
  split; [rewrite trim_lines; apply length_map|]. split.
  - rewrite trim_lines. apply Forall_map, Forall_forall. intros line _.
    apply strip_trailing_blank_last.
  - apply trim_fixed, trim_trimmed.
Qed.

Lemma endsWith_lf (s : jsstring) :
  JS.endsWith s [JS.LF] = true <-> exists t, s = t ++ [JS.LF].
Proof.
  unfold JS.endsWith. cbn [rev app]. split.
  - destruct (rev s) as [|c r] eqn:E; cbn [JS.starts_with]; [discriminate|].
    rewrite andb_true_r. intros Hc. apply N.eqb_eq in Hc. subst c.
    exists (rev r). rewrite <- (rev_involutive s), E. reflexivity.
  - intros (t & ->). rewrite rev_app_distr. cbn [rev app JS.starts_with].
    now rewrite N.eqb_refl.
Qed.

Lemma ensureFinalNewline_cons (c : N) (s : jsstring) :
  ensureFinalNewline (c :: s)
  = if JS.endsWith (c :: s) [JS.LF] then c :: s else (c :: s) ++ [JS.LF].
Proof. reflexivity. Qed.

Lemma ensureFinalNewline_final_facts (input : jsstring) :
  (ensureFinalNewline input = input \/ ensureFinalNewline input = input ++ [JS.LF])
  /\ (ensureFinalNewline input = [] \/ exists t, ensureFinalNewline input = t ++ [JS.LF])
  /\ ensureFinalNewline (ensureFinalNewline input) = ensureFinalNewline input.
Proof.
  destruct input as [|c s]; [repeat split; now left|].
  rewrite ensureFinalNewline_cons.
  destruct (JS.endsWith (c :: s) [JS.LF]) eqn:E.
  - split; [now left|]. split; [right; now apply endsWith_lf|].
    now rewrite ensureFinalNewline_cons, E.
  - split; [now right|]. split; [right; eauto|].
    assert (E' : JS.endsWith ((c :: s) ++ [JS.LF]) [JS.LF] = true) by (apply endsWith_lf; eauto).
    change ((c :: s) ++ [JS.LF]) with (c :: (s ++ [JS.LF])) in *.
    now rewrite ensureFinalNewline_cons, E'.
Qed.

(** X3: [ensureFinalNewline] only ever appends one newline, its result is
    empty or ends with a newline, and applying it again changes nothing. *)
Theorem ensureFinalNewline_final (input : jsstring) :
  (ensureFinalNewline input = input \/ ensureFinalNewline input = input ++ [JS.LF])
  /\ (ensureFinalNewline input = [] \/ exists t, ensureFinalNewline input = t ++ [JS.LF])
  /\ ensureFinalNewline (ensureFinalNewline input) = ensureFinalNewline input.
Proof. exact (ensureFinalNewline_final_facts input). Qed.

End UtilsFacts.

(* ================================================================== *)
(** * The whitespace-only formatter *)

Section FormatContentFacts.

Import Utils FormatContent.

Lemma expand_tabs_Forall (P : N -> Prop) (s : jsstring) :
  P JS.SPACE -> Forall P s -> Forall P (expand_tabs s).
Proof.
  intros Hsp. induction 1 as [|c s Hc Hs IH]; [constructor|]. simpl.
  destruct (N.eqb c JS.TAB); [|constructor; assumption].
  repeat (constructor; [exact Hsp|]). exact IH.
Qed.

Lemma expand_tabs_free (s : jsstring) : Forall (fun c => c <> JS.TAB) (expand_tabs s).
Proof.
  induction s as [|c s IH]; [constructor|]. simpl.
  destruct (N.eqb_spec c JS.TAB); [|constructor; assumption].
  repeat (constructor; [discriminate|]). exact IH.
Qed.

Lemma expand_tabs_fixed (s : jsstring) :
  Forall (fun c => c <> JS.TAB) s -> expand_tabs s = s.
Proof.
  induction 1 as [|c s Hc Hs IH]; [reflexivity|]. simpl.
  destruct (N.eqb_spec c JS.TAB); [congruence|]. simpl. now rewrite IH.
Qed.

Lemma ensureFinalNewline_Forall (P : N -> Prop) (s : jsstring) :
  P JS.LF -> Forall P s -> Forall P (ensureFinalNewline s).
Proof.
  intros HLF Hs. destruct (ensureFinalNewline_final_facts s) as ([-> | ->] & _); [assumption|].
  apply Forall_app. split; [assumption|]. constructor; [assumption|constructor].
Qed.

Lemma ensureFinalNewline_trimmed (s : jsstring) :
  Forall (fun line => strip_trailing_blank line = line) (JS.split_on JS.LF s) ->
  Forall (fun line => strip_trailing_blank line = line)
    (JS.split_on JS.LF (ensureFinalNewline s)).
Proof.
  intros Hs. destruct (ensureFinalNewline_final_facts s) as ([-> | ->] & _); [assumption|].
  rewrite split_on_snoc_sep. apply Forall_app. split; [assumption|].
  constructor; [reflexivity|constructor].
Qed.

Lemma not_in_Forall (x : N) (s : jsstring) : ~ In x s <-> Forall (fun c => c <> x) s.
Proof.
  rewrite Forall_forall. split.
  - intros Hn c Hc ->. auto.
  - intros Hall Hin. exact (Hall x Hin eq_refl).
Qed.

(** X4: the output of [formatPythonBasic] holds no tab and no carriage
    return, no line of it ends in a space, it is empty or ends with a
    newline, and formatting it again gives the same text. *)
Theorem formatPythonBasic_normal_form (raw : jsstring) :
  let out := output (formatPythonBasic raw) in
  ~ In JS.TAB out
  /\ ~ In JS.CR out
  /\ Forall (fun line => line = [] \/ is_blank (last line 0%N) = false)
       (JS.split_on JS.LF out)
  /\ (out = [] \/ exists t, out = t ++ [JS.LF])
  /\ output (formatPythonBasic out) = out.
Proof.
  cbn zeta. unfold formatPythonBasic. cbn [output].
  set (z := expand_tabs (normalizeNewlines raw)).
  set (out := ensureFinalNewline (trimTrailingWhitespacePerLine z)).
  assert (Htab : Forall (fun c => c <> JS.TAB) out).
  { apply ensureFinalNewline_Forall; [discriminate|].
    apply trim_Forall; [discriminate|]. apply expand_tabs_free. }
  assert (Hcr : Forall (fun c => c <> JS.CR) out).
  { apply ensureFinalNewline_Forall; [discriminate|].
    apply trim_Forall; [discriminate|].
    apply expand_tabs_Forall; [discriminate|].
    apply not_in_Forall, (normalizeNewlines_no_cr_idempotent_facts raw). }
  assert (Htrim : Forall (fun line => strip_trailing_blank line = line)
                    (JS.split_on JS.LF out)).
  { apply ensureFinalNewline_trimmed, trim_trimmed. }
  split; [now apply not_in_Forall|]. split; [now apply not_in_Forall|]. split.
  { eapply Forall_impl; [|exact Htrim]. intros line Hl. rewrite <- Hl.
    apply strip_trailing_blank_last. }
  split; [apply (ensureFinalNewline_final_facts (trimTrailingWhitespacePerLine z))|].
  rewrite normalizeNewlines_fixed by now apply not_in_Forall.
  rewrite expand_tabs_fixed by assumption.
  rewrite trim_fixed by assumption.
  apply (ensureFinalNewline_final_facts (trimTrailingWhitespacePerLine z)).
Qed.

End FormatContentFacts.

(* ================================================================== *)
(** * The position mapper *)

Section SplitAppend.

Variable sep : N.

Lemma split_on_app (a b : jsstring) :
  JS.split_on sep (a ++ b)
  = removelast (JS.split_on sep a)
    ++ (last (JS.split_on sep a) [] ++ hd [] (JS.split_on sep b))
       :: tl (JS.split_on sep b).
Proof.
  induction a as [|x a IH].
  - simpl. apply split_on_hd_tl.
  - simpl app. rewrite !split_on_cons, IH.
    pose proof (split_on_not_nil sep a) as Hne.
    destruct (JS.split_on sep a) as [|h t]; [congruence|]. cbn [hd tl].
    destruct (N.eqb x sep).
    + reflexivity.
    + destruct t as [|h' t]; reflexivity.
Qed.

Lemma split_on_app_length (a b : jsstring) :
  (List.length (JS.split_on sep (a ++ b)) + 1
   = List.length (JS.split_on sep a) + List.length (JS.split_on sep b))%nat.
Proof.
  rewrite !split_on_length, count_occ_app. lia.
Qed.

Lemma split_on_app_nth (a b : jsstring) :
  nth (List.length (JS.split_on sep a) - 1) (JS.split_on sep (a ++ b)) []
  = last (JS.split_on sep a) [] ++ hd [] (JS.split_on sep b).
Proof.
  rewrite split_on_app.
  pose proof (split_on_not_nil sep a) as Hne.
  assert (Hl : List.length (removelast (JS.split_on sep a))
               = (List.length (JS.split_on sep a) - 1)%nat).
  { destruct (exists_last Hne) as (l & x & ->).
    rewrite removelast_last, length_app. simpl. lia. }
  rewrite app_nth2 by lia. rewrite Hl, Nat.sub_diag. reflexivity.
Qed.

Lemma split_on_app_last (a b : jsstring) :
  ~ In sep b ->
  last (JS.split_on sep (a ++ b)) [] = last (JS.split_on sep a) [] ++ b.
Proof.
  intros Hb. rewrite split_on_app, (split_on_free_piece sep b Hb). cbn [hd tl].
  now rewrite last_last.
Qed.

End SplitAppend.

Section PositionMapper.

Import FormatJsonBestEffort.

Lemma scan_line_column_lines (chars : jsstring) (l c : Z) :
  scan_line_column chars l c
  = mkLineColumn
      (l + Z.of_nat (List.length (JS.split_on JS.LF chars)) - 1)
      (if Nat.eqb (List.length (JS.split_on JS.LF chars)) 1
       then c + JS.length chars
       else 1 + JS.length (last (JS.split_on JS.LF chars) [])).
Proof.
  revert l c. induction chars as [|x chars IH]; intros l c.
  - unfold JS.length. simpl. f_equal; lia.
  - cbn [scan_line_column]. rewrite split_on_cons.
    pose proof (split_on_not_nil JS.LF chars) as Hne.
    destruct (N.eqb_spec x JS.LF) as [->|Hx].
    + rewrite IH. cbn [List.length].
      destruct (JS.split_on JS.LF chars) as [|h t] eqn:E; [congruence|].
      cbn [List.length Nat.eqb]. f_equal; [lia|].
      destruct t as [|h' t].
      * simpl. assert (Hc : JS.split_on JS.LF chars = [chars]).
        { apply split_on_free_piece. intros Hin.
          pose proof (split_on_length JS.LF chars) as Hl. rewrite E in Hl. simpl in Hl.
          apply (count_occ_In N.eq_dec) in Hin. lia. }
        rewrite E in Hc. now injection Hc as ->.
      * reflexivity.
    + rewrite IH. destruct (JS.split_on JS.LF chars) as [|h t] eqn:E; [congruence|].
      cbn [hd tl List.length]. f_equal.
      destruct t as [|h' t]; cbn [Nat.eqb List.length].
      * unfold JS.length. simpl List.length. lia.
      * reflexivity.
Qed.

Lemma split_on_single (sep : N) (s : jsstring) :
  List.length (JS.split_on sep s) = 1%nat -> JS.split_on sep s = [s].
Proof.
  intros Hl. apply split_on_free_piece. intros Hin.
  rewrite split_on_length in Hl. apply (count_occ_In N.eq_dec) in Hin. lia.
Qed.

(** The prefix of the buffer that a position is mapped through. *)
Lemma offsetToLineColumn_prefix (text : jsstring) (position : Z) :
  offsetToLineColumn text position
  = scan_line_column (JS.slice text 0 (Z.max 0 (Z.min position (JS.length text)))) 1 1.
Proof.
  unfold offsetToLineColumn. rewrite slice_in_range by (unfold JS.length; lia).
  now rewrite Z.sub_0_r.
Qed.

Lemma offsetToLineColumn_lines_facts (text : jsstring) (position : Z) :
  let prefix := JS.slice text 0 (Z.max 0 (Z.min position (JS.length text))) in
  offsetToLineColumn text position
  = mkLineColumn (Z.of_nat (List.length (JS.split_on JS.LF prefix)))
      (1 + JS.length (last (JS.split_on JS.LF prefix) [])).
Proof.
  cbn zeta. rewrite offsetToLineColumn_prefix, scan_line_column_lines. f_equal; [lia|].
  destruct (Nat.eqb_spec (List.length (JS.split_on JS.LF
             (JS.slice text 0 (Z.max 0 (Z.min position (JS.length text)))))) 1) as [E|_];
    [|reflexivity].
  now rewrite (split_on_single _ _ E).
Qed.

(** X5: [offsetToLineColumn] counts lines and columns of the text before
    the clamped position: the line is the number of lines of that prefix
    and the column is one more than the length of its last line. *)
Theorem offsetToLineColumn_lines (text : jsstring) (position : Z) :
  let prefix := JS.slice text 0 (Z.max 0 (Z.min position (JS.length text))) in
  offsetToLineColumn text position
  = mkLineColumn (Z.of_nat (List.length (JS.split_on JS.LF prefix)))
      (1 + JS.length (last (JS.split_on JS.LF prefix) [])).
Proof. exact (offsetToLineColumn_lines_facts text position). Qed.

Lemma slice_prefix_app (text : jsstring) (p q : Z) :
  0 <= p <= q -> q <= JS.length text ->
  JS.slice text 0 q = JS.slice text 0 p ++ JS.slice text p q.
Proof. intros Hp Hq. symmetry. apply slice_app; lia. Qed.

(** X6: the position mapper is strictly increasing on the offsets of a
    buffer: a later offset lies on a later line, or on the same line
    farther right by exactly the distance between the offsets. *)
Theorem offsetToLineColumn_increasing (text : jsstring) (p q : Z) :
  0 <= p -> p < q -> q <= JS.length text ->
  line (offsetToLineColumn text p) < line (offsetToLineColumn text q)
  \/ (line (offsetToLineColumn text p) = line (offsetToLineColumn text q)
      /\ column (offsetToLineColumn text q) = column (offsetToLineColumn text p) + (q - p)).
Proof.
  intros H0 Hpq Hq.
  rewrite (offsetToLineColumn_lines_facts text p), (offsetToLineColumn_lines_facts text q). cbn zeta.
  replace (Z.max 0 (Z.min p (JS.length text))) with p by lia.
  replace (Z.max 0 (Z.min q (JS.length text))) with q by lia.
  rewrite (slice_prefix_app text p q) by lia. cbn [line column].
  set (a := JS.slice text 0 p). set (mid := JS.slice text p q).
  pose proof (split_on_app_length JS.LF a mid) as Hl.
  pose proof (split_on_not_nil JS.LF mid) as Hne.
  destruct (in_dec N.eq_dec JS.LF mid) as [Hin|Hnin].
  - left. pose proof (split_on_length JS.LF mid) as Hm.
    apply (count_occ_In N.eq_dec) in Hin. lia.
  - right. rewrite (split_on_free_piece _ _ Hnin) in Hl. simpl in Hl. split; [lia|].
    rewrite split_on_app_last by assumption.
    assert (Hm : JS.length mid = q - p) by (unfold mid; apply slice_length; lia).
    unfold JS.length in *. rewrite length_app. lia.
Qed.

Lemma offsetToLineColumn_increasing_witness :
  line (offsetToLineColumn (JS.lit "ab" ++ [JS.LF] ++ JS.lit "cd") 1)
  < line (offsetToLineColumn (JS.lit "ab" ++ [JS.LF] ++ JS.lit "cd") 4)
  \/ (line (offsetToLineColumn (JS.lit "ab" ++ [JS.LF] ++ JS.lit "cd") 1)
      = line (offsetToLineColumn (JS.lit "ab" ++ [JS.LF] ++ JS.lit "cd") 4)
      /\ column (offsetToLineColumn (JS.lit "ab" ++ [JS.LF] ++ JS.lit "cd") 4)
         = column (offsetToLineColumn (JS.lit "ab" ++ [JS.LF] ++ JS.lit "cd") 1) + (4 - 1)).
Proof.
  apply (offsetToLineColumn_increasing (JS.lit "ab" ++ [JS.LF] ++ JS.lit "cd") 1 4);
    vm_compute; congruence.
Defined.

Lemma get_app_right (a b : jsstring) (k : Z) :
  0 <= k -> JS.get (a ++ b) (JS.length a + k) = JS.get b k.
Proof.
  intros Hk. unfold JS.get, JS.length.
  destruct (Z.ltb_spec (Z.of_nat (List.length a) + k) 0); [lia|].
  destruct (Z.ltb_spec k 0); [lia|].
  rewrite nth_error_app2 by lia. f_equal. lia.
Qed.

Lemma slice_split_at (text : jsstring) (p : Z) :
  0 <= p <= JS.length text ->
  text = JS.slice text 0 p ++ JS.slice_from text p.
Proof.
  intros Hp. unfold JS.slice_from. rewrite slice_app by lia. symmetry. apply slice_all.
Qed.

Lemma offsetToLineColumn_round_trip_facts (text : jsstring) (p : Z) :
  0 <= p <= JS.length text ->
  let lc := offsetToLineColumn text p in
  let lineText := nth (Z.to_nat (line lc - 1)) (JS.split_on JS.LF text) [] in
  1 <= line lc <= Z.of_nat (List.length (JS.split_on JS.LF text))
  /\ JS.get lineText (column lc - 1)
     = match JS.get text p with
       | Some ch => if N.eqb ch JS.LF then None else Some ch
       | None => None
       end.
Proof.
  intros Hp. cbn zeta. rewrite (offsetToLineColumn_lines_facts text p). cbn zeta.
  replace (Z.max 0 (Z.min p (JS.length text))) with p by lia. cbn [line column].
  set (a := JS.slice text 0 p). set (b := JS.slice_from text p).
  assert (Ht : text = a ++ b) by (apply slice_split_at; assumption).
  assert (Ha : JS.length a = p) by (unfold a; rewrite slice_length; lia).
  clearbody a b. subst text. clear Hp.
  pose proof (split_on_not_nil JS.LF a) as Hna.
  pose proof (split_on_not_nil JS.LF b) as Hnb.
  pose proof (split_on_app_length JS.LF a b) as Hl.
  assert (Hla : (1 <= List.length (JS.split_on JS.LF a))%nat)
    by (destruct (JS.split_on JS.LF a); [congruence|simpl; lia]).
  assert (Hlb : (1 <= List.length (JS.split_on JS.LF b))%nat)
    by (destruct (JS.split_on JS.LF b); [congruence|simpl; lia]).
  split; [lia|].
  replace (Z.to_nat (Z.of_nat (List.length (JS.split_on JS.LF a)) - 1))
    with (List.length (JS.split_on JS.LF a) - 1)%nat by lia.
  rewrite split_on_app_nth.
  replace (1 + JS.length (last (JS.split_on JS.LF a) []) - 1)
    with (JS.length (last (JS.split_on JS.LF a) []) + 0) by lia.
  rewrite get_app_right by lia.
  replace p with (JS.length a + 0) by lia.
  rewrite get_app_right by lia.
  destruct b as [|ch b']; [reflexivity|].
  rewrite split_on_cons. unfold JS.get. change (0 <? 0) with false. cbv iota.
  change (Z.to_nat 0) with 0%nat. cbn [nth_error].
  destruct (N.eqb ch JS.LF); reflexivity.
Qed.

(** X7: the line and column computed for an offset of the buffer point
    back at the character of that offset: in the buffer split into lines,
    the computed line holds that character at the computed column; when
    the offset is on a newline or at the end of the buffer, the column is
    just past the end of its line. *)
Theorem offsetToLineColumn_round_trip (text : jsstring) (p : Z) :
  0 <= p <= JS.length text ->
  let lc := offsetToLineColumn text p in
  let lineText := nth (Z.to_nat (line lc - 1)) (JS.split_on JS.LF text) [] in
  1 <= line lc <= Z.of_nat (List.length (JS.split_on JS.LF text))
  /\ JS.get lineText (column lc - 1)
     = match JS.get text p with
       | Some ch => if N.eqb ch JS.LF then None else Some ch
       | None => None
       end.
Proof. exact (offsetToLineColumn_round_trip_facts text p). Qed.

Lemma offsetToLineColumn_round_trip_witness :
  0 <= 4 <= JS.length (JS.lit "ab" ++ [JS.LF] ++ JS.lit "cd")
  /\ JS.get (nth (Z.to_nat (line (offsetToLineColumn (JS.lit "ab" ++ [JS.LF] ++ JS.lit "cd") 4) - 1))
               (JS.split_on JS.LF (JS.lit "ab" ++ [JS.LF] ++ JS.lit "cd")) [])
       (column (offsetToLineColumn (JS.lit "ab" ++ [JS.LF] ++ JS.lit "cd") 4) - 1)
     = Some 100%N.
Proof.
  assert (Hp : 0 <= 4 <= JS.length (JS.lit "ab" ++ [JS.LF] ++ JS.lit "cd"))
    by (vm_compute; split; congruence).
  split; [exact Hp|].
  exact (proj2 (offsetToLineColumn_round_trip (JS.lit "ab" ++ [JS.LF] ++ JS.lit "cd") 4 Hp)).
Defined.

(** X8: the line that navigation scrolls to is the line of the position
    mapper, counted from 0. *)
Theorem scroll_line_agrees (value : jsstring) (index : Z) :
  App.scroll_line value index = line (offsetToLineColumn value index) - 1.
Proof.
  rewrite (offsetToLineColumn_lines_facts value index). cbn zeta. cbn [line].
  unfold App.scroll_line.
  pose proof (split_on_not_nil JS.LF
                (JS.slice value 0 (Z.max 0 (Z.min index (JS.length value))))) as Hne.
  destruct (JS.split_on JS.LF _); [congruence|]. simpl List.length. lia.
Qed.

End PositionMapper.

(* ================================================================== *)
(** * Line numbers and the line viewer *)

Section LineViews.

Import FormatJsonBestEffort.

Lemma digits_of_uint_free (u : Decimal.uint) :
  Forall (fun c => c <> JS.LF) (JS.digits_of_uint u).
Proof.
  induction u; simpl; constructor; try discriminate; assumption.
Qed.

(** X9: the gutter of the textarea shows one decimal number per line of
    the value, 1, 2, ... in order, followed by one empty line; so it has as
    many newlines as the value has lines. *)
Theorem lineNumbersText_lines (value : jsstring) :
  JS.split_on JS.LF (HighlightedTextarea.lineNumbersText value)
  = map (fun i => JS.string_of_nat (i + 1))
      (seq 0 (List.length (JS.split_on JS.LF value))) ++ [[]]
  /\ count_occ N.eq_dec (HighlightedTextarea.lineNumbersText value) JS.LF
     = List.length (JS.split_on JS.LF value).
Proof.
  assert (H : JS.split_on JS.LF (HighlightedTextarea.lineNumbersText value)
              = map (fun i => JS.string_of_nat (i + 1))
                  (seq 0 (List.length (JS.split_on JS.LF value))) ++ [[]]).
  { unfold HighlightedTextarea.lineNumbersText.
    pose proof (split_on_not_nil JS.LF value) as Hne.
    destruct (List.length (JS.split_on JS.LF value)) as [|n] eqn:En;
      [destruct (JS.split_on JS.LF value); [congruence|discriminate]|].
    cbn [Nat.eqb]. rewrite split_on_snoc_sep. f_equal.
    apply split_join.
    - simpl. discriminate.
    - apply Forall_map, Forall_forall. intros i _.
      apply not_in_Forall, digits_of_uint_free. }
  split; [exact H|].
  pose proof (split_on_length JS.LF (HighlightedTextarea.lineNumbersText value)) as Hl.
  rewrite H, length_app, length_map, length_seq in Hl. simpl in Hl. lia.
Qed.




End LineViews.

(* ================================================================== *)
(** * More on the match engine: what is recorded and what is not *)

Section LoopInvariant.

Context {S R : Type}.
Variable step : S -> outcome (loop_step S R).
Variable J : S -> Prop.
Variable Q : R -> Prop.

Hypothesis step_keeps : forall s, J s ->
  match step s with
  | Returns (Continue s') => J s'
  | Returns (Break r) => Q r
  | _ => True
  end.

Lemma run_loop_invariant (fuel : nat) (s : S) (r : R) :
  J s -> run_loop step fuel s = Returns r -> Q r.
Proof.
  revert s. induction fuel as [|fuel IH]; intros s Hs; simpl; [discriminate|].
  pose proof (step_keeps s Hs) as Hk.
  destruct (step s) as [[s'|r']| |]; simpl; try discriminate.
  - now apply IH.
  - now intros [= <-].
Qed.

End LoopInvariant.

Section IndexOfMore.

Lemma starts_with_firstn (needle hay : jsstring) :
  JS.starts_with needle hay = true -> firstn (List.length needle) hay = needle.
Proof.
  revert hay. induction needle as [|x n IH]; intros [|y h]; simpl; try discriminate; auto.
  rewrite andb_true_iff, N.eqb_eq. intros [-> Hs]. now rewrite IH.
Qed.

Lemma index_from_first (needle hay : jsstring) (k : nat) :
  match JS.index_from needle hay k with
  | Some r =>
      JS.starts_with needle (skipn (r - k) hay) = true
      /\ forall j, (j < r - k)%nat -> JS.starts_with needle (skipn j hay) = false
  | None => forall j, (j <= List.length hay)%nat -> JS.starts_with needle (skipn j hay) = false
  end.
Proof.
  revert k. induction hay as [|y h IH]; intros k; cbn [JS.index_from].
  - destruct (JS.starts_with needle []) eqn:E.
    + rewrite Nat.sub_diag. split; [exact E|]. intros j Hj. lia.
    + intros j Hj. simpl in Hj. now replace j with 0%nat by lia.
  - destruct (JS.starts_with needle (y :: h)) eqn:E.
    + rewrite Nat.sub_diag. split; [exact E|]. intros j Hj. lia.
    + specialize (IH (S k)). destruct (JS.index_from needle h (S k)) as [r|] eqn:Er.
      * pose proof (index_from_bounds _ _ _ _ Er) as [Hkr _].
        destruct IH as [Hocc Hfirst].
        replace (r - k)%nat with (S (r - S k)) by lia. split; [exact Hocc|].
        intros [|j] Hj; [exact E|]. apply Hfirst. lia.
      * intros [|j] Hj; [exact E|]. apply IH. simpl in Hj. lia.
Qed.

Lemma starts_with_nil (needle : jsstring) : needle <> [] -> JS.starts_with needle [] = false.
Proof. destruct needle; [congruence|reflexivity]. Qed.

Lemma indexOf_found (hay needle : jsstring) (i : Z) :
  0 <= i -> needle <> [] -> JS.indexOf hay needle i <> -1 ->
  Spec.occurs needle hay (Z.to_nat (JS.indexOf hay needle i))
  /\ JS.slice hay (JS.indexOf hay needle i) (JS.indexOf hay needle i + JS.length needle)
     = needle
  /\ forall k, i <= Z.of_nat k < JS.indexOf hay needle i -> ~ Spec.occurs needle hay k.
Proof.
  intros Hi Hn Hidx.
  destruct (indexOf_bounds hay needle i Hi Hn Hidx) as [B1 B2].
  revert Hidx B1 B2. unfold JS.indexOf, Spec.occurs.
  set (p := Z.to_nat (Z.min (Z.max i 0) (JS.length hay))).
  pose proof (index_from_first needle (skipn p hay) p) as Hf.
  destruct (JS.index_from needle (skipn p hay) p) as [r|] eqn:E; [|congruence].
  intros _ B1 B2. pose proof (index_from_bounds _ _ _ _ E) as [Hpr _].
  destruct Hf as [Hocc Hfirst]. rewrite skipn_skipn in Hocc.
  replace (r - p + p)%nat with r in Hocc by lia.
  assert (Hp : p = Z.to_nat i) by (unfold p, JS.length in *; lia).
  rewrite Nat2Z.id. split; [exact Hocc|]. split.
  - rewrite slice_in_range by (unfold JS.length in *; lia).
    rewrite Nat2Z.id.
    replace (Z.to_nat (Z.of_nat r + JS.length needle - Z.of_nat r))
      with (List.length needle) by (unfold JS.length; lia).
    now apply starts_with_firstn.
  - intros k Hk Hoc. specialize (Hfirst (k - p)%nat).
    rewrite skipn_skipn in Hfirst.
    replace (k - p + p)%nat with k in Hfirst by lia.
    rewrite Hfirst in Hoc by lia. discriminate.
Qed.

Lemma indexOf_absent (hay needle : jsstring) (i : Z) :
  0 <= i -> needle <> [] -> JS.indexOf hay needle i = -1 ->
  forall k, i <= Z.of_nat k -> ~ Spec.occurs needle hay k.
Proof.
  intros Hi Hn. unfold JS.indexOf, Spec.occurs.
  set (p := Z.to_nat (Z.min (Z.max i 0) (JS.length hay))).
  pose proof (index_from_first needle (skipn p hay) p) as Hf.
  destruct (JS.index_from needle (skipn p hay) p) as [r|] eqn:E; [lia|].
  intros _ k Hk Hoc.
  destruct (Nat.le_gt_cases k (List.length hay)) as [Hle|Hgt].
  - specialize (Hf (k - p)%nat). rewrite skipn_skipn, length_skipn in Hf.
    assert (Hp : (p <= k)%nat) by (unfold p, JS.length in *; lia).
    replace (k - p + p)%nat with k in Hf by lia.
    rewrite Hf in Hoc by lia. discriminate.
  - rewrite skipn_all2 in Hoc by lia. rewrite starts_with_nil in Hoc by assumption.
    discriminate.
Qed.

End IndexOfMore.

Section EngineRecords.

Import FindMatches Spec.

Context {H : Host}.

(** Where a result of [computeFindMatches] comes from. *)
Lemma computeFindMatches_cases (text : jsstring) (options : FindOptions) (r : FindResult) :
  computeFindMatches text options = Returns r ->
  (matches r = [] /\ (regex options = false -> error r = None))
  \/ (regex options = true /\ error r = None
      /\ exists re, new_RegExp (query options) (regexp_flags options) = Compiled re
                    /\ run_loop (regex_step re text (wholeWord options))
                         (loop_budget text) (0, []) = Returns (matches r))
  \/ (regex options = false /\ error r = None /\ needle_of options <> []
      /\ run_loop (literal_step (haystack text options) (needle_of options) text
                     (wholeWord options))
           (loop_budget (haystack text options)) (0, []) = Returns (matches r)).
Proof.
  unfold computeFindMatches, computeFindMatches_within, haystack, needle_of.
  destruct (JS.is_empty (query options)); [intros [= <-]; left; now split|].
  destruct (regex options).
  - destruct (new_RegExp (query options) (regexp_flags options)) as [re|msg];
      [|intros [= <-]; left; split; [reflexivity|discriminate]].
    destruct (run_loop _ _ _) as [ms| |] eqn:E; simpl; try discriminate.
    intros [= <-]. right; left. simpl. eauto 6.
  - destruct (if matchCase options then query options else toLowerCase (query options))
      as [|c n] eqn:En; [intros [= <-]; left; now split|]. simpl JS.is_empty. cbv iota.
    destruct (run_loop _ _ _) as [ms| |] eqn:E; simpl; try discriminate.
    intros [= <-]. right; right. simpl. repeat split; auto. discriminate.
Qed.

Lemma literal_loop_records (P : FindMatch -> Prop) (hay needle text : jsstring) (ww : bool) :
  needle <> [] ->
  (forall i, 0 <= i -> JS.indexOf hay needle i <> -1 ->
     negb ww || isWholeWord text (JS.indexOf hay needle i)
                  (JS.indexOf hay needle i + JS.length needle) = true ->
     P (mkMatch (JS.indexOf hay needle i) (JS.indexOf hay needle i + JS.length needle))) ->
  forall fuel ms,
    run_loop (literal_step hay needle text ww) fuel (0, []) = Returns ms ->
    Forall P ms /\ Z.of_nat (List.length ms) <= MAX_MATCHES.
Proof.
  intros Hn HP fuel ms.
  apply (run_loop_invariant (literal_step hay needle text ww)
           (fun st => 0 <= fst st /\ Forall P (snd st)
                      /\ Z.of_nat (List.length (snd st)) < MAX_MATCHES)
           (fun r => Forall P r /\ Z.of_nat (List.length r) <= MAX_MATCHES)).
  - intros [i acc] (Hi & Hall & Hlen). simpl in Hi, Hall, Hlen. unfold literal_step.
    destruct (Z.eqb_spec (JS.indexOf hay needle i) (-1)) as [|Hidx]; [split; [assumption|lia]|].
    destruct (indexOf_bounds hay needle i Hi Hn Hidx) as [B1 B2].
    destruct (negb ww || isWholeWord text _ _) eqn:Eww.
    + assert (Hall' : Forall P (acc ++ [mkMatch (JS.indexOf hay needle i)
                                          (JS.indexOf hay needle i + JS.length needle)])).
      { apply Forall_app. split; [assumption|]. constructor; [|constructor]. now apply HP. }
      destruct (Z.leb_spec MAX_MATCHES
                  (Z.of_nat (List.length (acc ++ [mkMatch (JS.indexOf hay needle i)
                     (JS.indexOf hay needle i + JS.length needle)])))) as [Hmax|Hmax].
      * split; [assumption|]. rewrite length_app in *. simpl in *. lia.
      * simpl. repeat split; try assumption; lia.
    + simpl. repeat split; try assumption; lia.
  - simpl. split; [lia|]. split; [constructor|reflexivity].
Qed.

Lemma regex_loop_records (P : FindMatch -> Prop) (re : RegExp) (text : jsstring) (ww : bool) :
  (forall li s e,
     regexp_search re text (Z.to_nat li) = Some (s, e) ->
     JS.length (JS.slice text (Z.of_nat s) (Z.of_nat e)) <> 0 ->
     ww && negb (isWholeWord text (Z.of_nat s)
                   (Z.of_nat s + JS.length (JS.slice text (Z.of_nat s) (Z.of_nat e)))) = false ->
     P (mkMatch (Z.of_nat s)
          (Z.of_nat s + JS.length (JS.slice text (Z.of_nat s) (Z.of_nat e))))) ->
  forall fuel ms,
    run_loop (regex_step re text ww) fuel (0, []) = Returns ms ->
    Forall P ms /\ Z.of_nat (List.length ms) <= MAX_MATCHES.
Proof.
  intros HP fuel ms.
  apply (run_loop_invariant (regex_step re text ww)
           (fun st => Forall P (snd st) /\ Z.of_nat (List.length (snd st)) < MAX_MATCHES)
           (fun r => Forall P r /\ Z.of_nat (List.length r) <= MAX_MATCHES)).
  - intros [li acc] (Hall & Hlen). simpl in Hall, Hlen. unfold regex_step, exec.
    destruct (JS.length text <? li); [split; [assumption|lia]|].
    destruct (regexp_search re text (Z.to_nat li)) as [[s e]|] eqn:E; [|split; [assumption|lia]].
    destruct (Z.eqb_spec (JS.length (JS.slice text (Z.of_nat s) (Z.of_nat e))) 0) as [Hz|Hnz].
    + destruct (Z.of_nat e <? JS.length text); simpl; split; auto; lia.
    + destruct (ww && negb (isWholeWord text _ _)) eqn:Eww; [simpl; now split|].
      assert (Hall' : Forall P (acc ++ [mkMatch (Z.of_nat s)
                (Z.of_nat s + JS.length (JS.slice text (Z.of_nat s) (Z.of_nat e)))])).
      { apply Forall_app. split; [assumption|]. constructor; [|constructor].
        now apply (HP li). }
      destruct (Z.leb_spec MAX_MATCHES
                  (Z.of_nat (List.length (acc ++ [mkMatch (Z.of_nat s)
                     (Z.of_nat s + JS.length (JS.slice text (Z.of_nat s) (Z.of_nat e)))]))))
        as [Hmax|Hmax].
      * split; [assumption|]. rewrite length_app in *. simpl in *. lia.
      * simpl. split; assumption.
  - simpl. split; [constructor|reflexivity].
Qed.

Lemma literal_loop_complete (hay needle text : jsstring) :
  needle <> [] ->
  forall fuel ms,
    run_loop (literal_step hay needle text false) fuel (0, []) = Returns ms ->
    Z.of_nat (List.length ms) < MAX_MATCHES ->
    forall k, occurs needle hay k -> covered ms k.
Proof.
  intros Hn fuel ms.
  apply (run_loop_invariant (literal_step hay needle text false)
           (fun st => 0 <= fst st
                      /\ forall k, Z.of_nat k < fst st -> occurs needle hay k -> covered (snd st) k)
           (fun r => Z.of_nat (List.length r) < MAX_MATCHES ->
                     forall k, occurs needle hay k -> covered r k)).
  - intros [i acc] (Hi & Hcov). simpl in Hi, Hcov. unfold literal_step.
    destruct (Z.eqb_spec (JS.indexOf hay needle i) (-1)) as [Habs|Hidx].
    + intros _ k Hk. destruct (Z.lt_ge_cases (Z.of_nat k) i) as [Hlt|Hge]; [auto|].
      exfalso. exact (indexOf_absent hay needle i Hi Hn Habs k Hge Hk).
    + destruct (indexOf_bounds hay needle i Hi Hn Hidx) as [B1 B2].
      destruct (indexOf_found hay needle i Hi Hn Hidx) as (_ & _ & Hfirst).
      set (idx := JS.indexOf hay needle i) in *.
      assert (Hlen : 0 < JS.length needle)
        by (unfold JS.length; destruct needle; [congruence|simpl; lia]).
      cbn [negb orb].
      assert (Hcov' : forall k, Z.of_nat k < idx + Z.max (JS.length needle) 1 ->
                        occurs needle hay k ->
                        covered (acc ++ [mkMatch idx (idx + JS.length needle)]) k).
      { intros k Hk Hoc.
        destruct (Z.lt_ge_cases (Z.of_nat k) i) as [Hlt|Hge].
        - destruct (Hcov k Hlt Hoc) as (m & Hm & Hr). exists m. split; [|exact Hr].
          apply in_or_app. now left.
        - destruct (Z.lt_ge_cases (Z.of_nat k) idx) as [Hlt'|Hge'].
          + exfalso. apply (Hfirst k); [lia|exact Hoc].
          + exists (mkMatch idx (idx + JS.length needle)). split.
            * apply in_or_app. right. now left.
            * simpl. lia. }
      destruct (Z.leb_spec MAX_MATCHES
                  (Z.of_nat (List.length (acc ++ [mkMatch idx (idx + JS.length needle)])))).
      * intros Hlt. lia.
      * simpl. split; [lia|exact Hcov'].
  - simpl. split; [lia|]. intros k Hk. lia.
Qed.

Lemma computeFindMatches_literal_returns (text : jsstring) (options : FindOptions) :
  regex options = false -> exists r, computeFindMatches text options = Returns r.
Proof.
  intros Hr. unfold computeFindMatches, computeFindMatches_within. rewrite Hr.
  destruct (JS.is_empty (query options)); [eauto|].
  set (hay := if matchCase options then text else toLowerCase text).
  destruct (if matchCase options then query options else toLowerCase (query options))
    as [|c n]; [simpl; eauto|]. simpl JS.is_empty. cbv iota.
  destruct (run_loop_returns (literal_step hay (c :: n) text (wholeWord options))
              scan_inv (spaced 0) (scan_room hay)
              (fun st => literal_step_progress hay (c :: n) text (wholeWord options) st
                           ltac:(discriminate))
              (loop_budget hay) (0, []) scan_inv_initial) as (ms & -> & _).
  - unfold loop_budget, scan_room, JS.length. simpl. lia.
  - simpl. eauto.
Qed.

Lemma literal_matches_are_occurrences_facts (text : jsstring) (options : FindOptions) :
  regex options = false ->
  exists r,
    computeFindMatches text options = Returns r
    /\ error r = None
    /\ Forall (fun m =>
                 0 <= start m
                 /\ end_ m <= JS.length (haystack text options)
                 /\ JS.slice (haystack text options) (start m) (end_ m) = needle_of options)
         (matches r).
Proof.
  intros Hr. destruct (computeFindMatches_literal_returns text options Hr) as (r & Hrun).
  exists r. split; [exact Hrun|].
  destruct (computeFindMatches_cases text options r Hrun)
    as [[Hm He] | [(Hreg & _) | (_ & He & Hn & Hloop)]]; [| congruence |].
  - split; [auto|]. rewrite Hm. constructor.
  - split; [exact He|].
    refine (proj1 (literal_loop_records _ _ _ _ _ Hn _ _ _ Hloop)).
    intros i Hi Hidx _. cbn [start end_].
    destruct (indexOf_bounds _ _ i Hi Hn Hidx) as [B1 B2].
    destruct (indexOf_found _ _ i Hi Hn Hidx) as (_ & Hs & _).
    repeat split; try assumption; lia.
Qed.

(** X11: in literal mode every match is a real occurrence: it lies inside
    the haystack (the text, lower-cased unless [matchCase]) and the
    haystack reads the needle there; no error is reported. *)
Theorem literal_matches_are_occurrences (text : jsstring) (options : FindOptions) :
  regex options = false ->
  exists r,
    computeFindMatches text options = Returns r
    /\ error r = None
    /\ Forall (fun m =>
                 0 <= start m
                 /\ end_ m <= JS.length (haystack text options)
                 /\ JS.slice (haystack text options) (start m) (end_ m) = needle_of options)
         (matches r).
Proof. exact (literal_matches_are_occurrences_facts text options). Qed.

Lemma computeFindMatches_literal_loop (text : jsstring) (options : FindOptions)
    (r : FindResult) :
  regex options = false -> query options <> [] -> needle_of options <> [] ->
  computeFindMatches text options = Returns r ->
  run_loop (literal_step (haystack text options) (needle_of options) text
              (wholeWord options))
    (loop_budget (haystack text options)) (0, []) = Returns (matches r).
Proof.
  intros Hr Hq Hn. unfold computeFindMatches, computeFindMatches_within.
  unfold haystack, needle_of in *. rewrite Hr.
  destruct (query options) as [|q0 q]; [congruence|]. simpl JS.is_empty. cbv iota.
  destruct (matchCase options).
  - destruct (run_loop _ _ _) as [ms| |]; simpl; try discriminate.
    now intros [= <-].
  - destruct (toLowerCase (q0 :: q)) as [|c n]; [congruence|]. simpl JS.is_empty. cbv iota.
    destruct (run_loop _ _ _) as [ms| |]; simpl; try discriminate.
    now intros [= <-].
Qed.

(** X12: in literal mode without the whole-word filter no occurrence is
    missed unless the cutoff was reached: every position where the needle
    occurs in the haystack lies inside a reported match. *)
Theorem literal_search_is_complete (text : jsstring) (options : FindOptions) :
  regex options = false -> wholeWord options = false ->
  query options <> [] -> needle_of options <> [] ->
  exists r,
    computeFindMatches text options = Returns r
    /\ (Z.of_nat (List.length (matches r)) < MAX_MATCHES ->
        forall k, occurs (needle_of options) (haystack text options) k ->
                  covered (matches r) k).
Proof.
  intros Hr Hww Hq Hn.
  destruct (computeFindMatches_literal_returns text options Hr) as (r & Hrun).
  exists r. split; [exact Hrun|].
  pose proof (computeFindMatches_literal_loop text options r Hr Hq Hn Hrun) as Hloop.
  rewrite Hww in Hloop. now apply (literal_loop_complete _ _ _ Hn _ _ Hloop).
Qed.

End EngineRecords.

Section EngineRecordsWithLaw.

Import FindMatches Spec.

Context {H : Host}.

Hypothesis search_bounds : forall re text i s e,
  regexp_search re text i = Some (s, e) ->
  (i <= s /\ s <= e /\ e <= List.length text)%nat.

(** X13: in both modes at most 5000 matches are returned, every match
    lies inside the subject of the scan (the text in regex mode, the
    haystack in literal mode), and under [wholeWord] every match passes
    the word-boundary test. *)
Theorem computeFindMatches_cutoff_and_bounds (text : jsstring) (options : FindOptions) :
  exists r,
    computeFindMatches text options = Returns r
    /\ Z.of_nat (List.length (matches r)) <= MAX_MATCHES
    /\ Forall (fun m =>
                 0 <= start m
                 /\ end_ m <= JS.length (if regex options then text else haystack text options)
                 /\ (if wholeWord options then isWholeWord text (start m) (end_ m) = true
                     else True))
         (matches r).
Proof.
  destruct (computeFindMatches_spaced search_bounds text options) as (r & Hrun & _).
  exists r. split; [exact Hrun|].
  destruct (computeFindMatches_cases text options r Hrun)
    as [[Hm He] | [(Hreg & _ & re & _ & Hloop) | (Hreg & _ & Hn & Hloop)]].
  - rewrite Hm. split; [unfold MAX_MATCHES; simpl; lia|constructor].
  - rewrite Hreg.
    destruct (regex_loop_records
                (fun m => 0 <= start m /\ end_ m <= JS.length text
                          /\ (if wholeWord options then isWholeWord text (start m) (end_ m) = true
                              else True))
                re text (wholeWord options)) with (fuel := loop_budget text) (ms := matches r)
      as [Hall Hlen]; [|exact Hloop|split; assumption].
    intros li s e Hs _ Hww. apply search_bounds in Hs as (B1 & B2 & B3).
    rewrite slice_length in * by (unfold JS.length; lia). cbn [start end_].
    split; [lia|]. split; [unfold JS.length; lia|].
    destruct (wholeWord options); [|exact I].
    simpl in Hww. now apply negb_false_iff in Hww.
  - rewrite Hreg.
    destruct (literal_loop_records
                (fun m => 0 <= start m /\ end_ m <= JS.length (haystack text options)
                          /\ (if wholeWord options then isWholeWord text (start m) (end_ m) = true
                              else True))
                (haystack text options) (needle_of options) text (wholeWord options) Hn)
      with (fuel := loop_budget (haystack text options)) (ms := matches r)
      as [Hall Hlen]; [|exact Hloop|split; assumption].
    intros i Hi Hidx Hww. cbn [start end_].
    destruct (indexOf_bounds _ _ i Hi Hn Hidx) as [B1 B2].
    split; [lia|]. split; [exact B2|].
    destruct (wholeWord options); [|exact I]. exact Hww.
Qed.

End EngineRecordsWithLaw.

Section EngineRecordsWitnesses.

Import FindMatches Spec.

Lemma literal_matches_are_occurrences_witness :
  exists r,
    computeFindMatches (H := MiniRegExp.host) (JS.lit "cat Cat CAT")
      (mkOptions (JS.lit "Cat") false false false) = Returns r
    /\ error r = None
    /\ Forall (fun m =>
                 0 <= start m
                 /\ end_ m <= JS.length (haystack (H := MiniRegExp.host) (JS.lit "cat Cat CAT")
                                          (mkOptions (JS.lit "Cat") false false false))
                 /\ JS.slice (haystack (H := MiniRegExp.host) (JS.lit "cat Cat CAT")
                                (mkOptions (JS.lit "Cat") false false false))
                      (start m) (end_ m)
                    = needle_of (H := MiniRegExp.host) (mkOptions (JS.lit "Cat") false false false))
         (matches r).
Proof.
  apply (literal_matches_are_occurrences (H := MiniRegExp.host)). reflexivity.
Defined.

Lemma literal_search_is_complete_witness :
  exists r,
    computeFindMatches (H := MiniRegExp.host) (JS.lit "aaaaa")
      (mkOptions (JS.lit "aa") true false false) = Returns r
    /\ (Z.of_nat (List.length (matches r)) < MAX_MATCHES ->
        forall k, occurs (needle_of (H := MiniRegExp.host) (mkOptions (JS.lit "aa") true false false))
                    (haystack (H := MiniRegExp.host) (JS.lit "aaaaa")
                       (mkOptions (JS.lit "aa") true false false)) k ->
                  covered (matches r) k).
Proof.
  apply (literal_search_is_complete (H := MiniRegExp.host)); try reflexivity; discriminate.
Defined.

Lemma computeFindMatches_cutoff_and_bounds_witness :
  exists r,
    computeFindMatches (H := MiniRegExp.host) (JS.lit "a cat, a cot")
      (mkOptions (JS.lit "c(a|o)t") false true true) = Returns r
    /\ Z.of_nat (List.length (matches r)) <= MAX_MATCHES
    /\ Forall (fun m => 0 <= start m /\ end_ m <= JS.length (JS.lit "a cat, a cot")
                        /\ isWholeWord (JS.lit "a cat, a cot") (start m) (end_ m) = true)
         (matches r).
Proof.
  exact (computeFindMatches_cutoff_and_bounds (H := MiniRegExp.host) reference_search_bounds
           (JS.lit "a cat, a cot") (mkOptions (JS.lit "c(a|o)t") false true true)).
Defined.

End EngineRecordsWitnesses.

(* ================================================================== *)
(** * More on the range compositor *)

Section CompositorMore.

Import HighlightedTextarea Spec.

Lemma clamp_each_bounds (textLen : Z) (rs : list HighlightRange) :
  Forall (fun r => 0 <= start r /\ start r < end_ r /\ end_ r <= textLen)
    (clamp_each textLen rs).
Proof.
  induction rs as [|r rs IH]; simpl; [constructor|].
  destruct (Z.leb_spec (Z.max 0 (Z.min textLen (end_ r)))
                       (Z.max 0 (Z.min textLen (start r)))); [assumption|].
  constructor; [simpl; lia|assumption].
Qed.

Lemma clamp_each_fixed (textLen : Z) (rs : list HighlightRange) :
  Forall (fun r => 0 <= start r /\ start r < end_ r /\ end_ r <= textLen) rs ->
  clamp_each textLen rs = rs.
Proof.
  induction 1 as [|[s e] rs (H0 & Hse & He) Hrs IH]; [reflexivity|]. simpl in *.
  replace (Z.max 0 (Z.min textLen s)) with s by lia.
  replace (Z.max 0 (Z.min textLen e)) with e by lia.
  destruct (Z.leb_spec e s); [lia|]. now rewrite IH.
Qed.

Lemma sort_ranges_fixed (rs : list HighlightRange) :
  StronglySorted (fun a b => compareRanges a b <= 0) rs -> sort_ranges rs = rs.
Proof.
  induction 1 as [|r rs Hs IH Hr]; [reflexivity|]. simpl. rewrite IH.
  destruct rs as [|x rs]; [reflexivity|]. simpl.
  inversion Hr as [|? ? Hx _]; subst.
  destruct (Z.leb_spec (compareRanges r x) 0); [reflexivity|lia].
Qed.

(** X14: whatever ranges it is given, [clampRanges] returns ranges that
    are non-empty and inside [0, textLen], sorted by start and then by
    end; each is the clamped form of a given range, and clamping the
    result again changes nothing. *)
Theorem clampRanges_normal_form (textLen : Z) (ranges : option (list HighlightRange)) :
  let out := clampRanges textLen ranges in
  Forall (fun r => 0 <= start r /\ start r < end_ r /\ end_ r <= textLen) out
  /\ StronglySorted (fun a b => compareRanges a b <= 0) out
  /\ Forall (fun r => exists r0, In r0 (match ranges with Some rs => rs | None => [] end)
                                 /\ start r = Z.max 0 (Z.min textLen (start r0))
                                 /\ end_ r = Z.max 0 (Z.min textLen (end_ r0))) out
  /\ clampRanges textLen (Some out) = out.
Proof.
  cbn zeta.
  assert (Hperm : forall rs, Permutation (clampRanges textLen (Some rs)) (clamp_each textLen rs)).
  { intros [|r rs]; [reflexivity|]. apply sort_ranges_sorts. }
  assert (Hsorted : forall rs, StronglySorted (fun a b => compareRanges a b <= 0)
                                 (clampRanges textLen (Some rs))).
  { intros [|r rs]; [constructor|]. apply sort_ranges_sorts. }
  assert (Hbounds : forall rs,
            Forall (fun r => 0 <= start r /\ start r < end_ r /\ end_ r <= textLen)
              (clampRanges textLen (Some rs))).
  { intros rs. eapply Permutation_Forall; [symmetry; apply Hperm|apply clamp_each_bounds]. }
  assert (Horigin : forall rs,
            Forall (fun r => exists r0, In r0 rs
                               /\ start r = Z.max 0 (Z.min textLen (start r0))
                               /\ end_ r = Z.max 0 (Z.min textLen (end_ r0)))
              (clamp_each textLen rs)).
  { induction rs as [|r rs IH]; simpl; [constructor|].
    assert (IH' : Forall (fun x => exists r0, (r = r0 \/ In r0 rs)
                            /\ start x = Z.max 0 (Z.min textLen (start r0))
                            /\ end_ x = Z.max 0 (Z.min textLen (end_ r0)))
                    (clamp_each textLen rs)).
    { eapply Forall_impl; [|exact IH]. intros x (r0 & Hin & Hx). exists r0. tauto. }
    destruct (Z.leb_spec (Z.max 0 (Z.min textLen (end_ r)))
                         (Z.max 0 (Z.min textLen (start r)))); [assumption|].
    constructor; [|assumption]. exists r. simpl. auto. }
  destruct ranges as [rs|].
  - split; [apply Hbounds|]. split; [apply Hsorted|]. split.
    + eapply Permutation_Forall; [symmetry; apply Hperm|apply Horigin].
    + set (out := clampRanges textLen (Some rs)).
      destruct out as [|r out'] eqn:E; [reflexivity|].
      unfold clampRanges. rewrite clamp_each_fixed by (rewrite <- E; apply Hbounds).
      apply sort_ranges_fixed. rewrite <- E. apply Hsorted.
  - simpl. repeat split; constructor.
Qed.

Lemma find_parts_app (a b : list Segment) :
  find_parts (a ++ b) = find_parts a ++ find_parts b.
Proof. apply flat_map_app. Qed.

Lemma find_parts_pushText (s : jsstring) (st : RenderState) :
  find_parts (segs (pushText s st)) = find_parts (segs st).
Proof.
  unfold pushText. destruct (JS.is_empty s); [reflexivity|].
  simpl. rewrite find_parts_app. simpl. apply app_nil_r.
Qed.

Lemma find_parts_pushErrorChar (ch : jsstring) (st : RenderState) :
  find_parts (segs (pushErrorChar ch st)) = find_parts (segs st).
Proof. simpl. rewrite find_parts_app. simpl. apply app_nil_r. Qed.

Lemma gap_step_find_parts (text : jsstring) (errorPos : option Z) (start : Z)
    (st : RenderState) :
  find_parts (segs (gap_step text errorPos start st)) = find_parts (segs st).
Proof.
  unfold gap_step. destruct (cursor st <? start); [|reflexivity].
  cbn [set_cursor segs].
  destruct (error_within errorPos st (cursor st) start).
  - cbn [set_cursor set_errorRendered cursor].
    destruct (pos_of errorPos + 1 <? start).
    + rewrite find_parts_pushText. cbn [set_cursor set_errorRendered segs].
      now rewrite find_parts_pushErrorChar, find_parts_pushText.
    + cbn [set_cursor set_errorRendered segs].
      now rewrite find_parts_pushErrorChar, find_parts_pushText.
  - apply find_parts_pushText.
Qed.

Lemma error_within_no_hit (errorPos : option Z) (st : RenderState) (a b : Z) :
  hits errorPos a b = false -> error_within errorPos st a b = false.
Proof.
  unfold hits, error_within. destruct errorPos as [p|]; [|reflexivity].
  intros Hh. rewrite <- andb_assoc, Hh. apply andb_false_r.
Qed.

Lemma range_step_find_parts (text : jsstring) (errorPos activeFindIndex : option Z)
    (idx : nat) (r : HighlightRange) (st : RenderState) :
  cursor st <= start r -> start r < end_ r -> hits errorPos (start r) (end_ r) = false ->
  cursor (range_step text errorPos activeFindIndex idx r st) = end_ r
  /\ find_parts (segs (range_step text errorPos activeFindIndex idx r st))
     = find_parts (segs st)
       ++ [(JS.slice text (start r) (end_ r), is_active idx activeFindIndex)].
Proof.
  intros Hc Hse Hh. unfold range_step.
  destruct (Z.leb_spec (end_ r) (cursor st)); [lia|].
  destruct (Z.ltb_spec (start r) (cursor st)); [lia|].
  unfold match_step. rewrite (error_within_no_hit _ _ _ _ Hh).
  cbn [set_cursor push cursor segs]. split; [reflexivity|].
  rewrite find_parts_app, gap_step_find_parts. reflexivity.
Qed.

Lemma for_ranges_find_parts (text : jsstring) (errorPos activeFindIndex : option Z)
    (ranges : list HighlightRange) :
  forall rest done st lo,
    ranges = done ++ rest -> spaced_ranges lo rest -> cursor st <= lo ->
    Forall (fun r => hits errorPos (start r) (end_ r) = false) rest ->
    exists st',
      for_ranges text errorPos activeFindIndex ranges (List.length rest) (List.length done) st
      = Returns st'
      /\ find_parts (segs st')
         = find_parts (segs st) ++ expected_parts text activeFindIndex (List.length done) rest.
Proof.
  induction rest as [|r rest IH]; intros done st lo Hranges Hsp Hc Hh.
  - simpl. exists st. split; [reflexivity|]. now rewrite app_nil_r.
  - destruct Hsp as (Hlo & Hse & Hsp). inversion Hh as [|? ? Hr Hrest]; subst.
    cbn [List.length for_ranges]. rewrite nth_error_app2 by lia.
    rewrite Nat.sub_diag. cbn [nth_error].
    destruct (range_step_find_parts text errorPos activeFindIndex (List.length done) r st)
      as [Hcur Hparts]; [lia|assumption|assumption|].
    destruct (IH (done ++ [r]) (range_step text errorPos activeFindIndex (List.length done) r st)
                (end_ r)) as (st' & Hrun & Hst'); [now rewrite <- app_assoc|assumption|lia|assumption|].
    rewrite length_app in Hrun, Hst'. simpl in Hrun, Hst'.
    rewrite Nat.add_1_r in Hrun, Hst'.
    exists st'. split; [exact Hrun|].
    rewrite Hst', Hparts, <- app_assoc. reflexivity.
Qed.

Lemma tail_step_find_parts (text : jsstring) (errorPos : option Z) (st : RenderState) :
  find_parts (segs (tail_step text errorPos st)) = find_parts (segs st).
Proof.
  unfold tail_step. destruct (cursor st <? JS.length text); [|reflexivity].
  destruct (error_within errorPos st (cursor st) (JS.length text)).
  - rewrite find_parts_pushText. cbn [set_cursor set_errorRendered segs].
    now rewrite find_parts_pushErrorChar, find_parts_pushText.
  - apply find_parts_pushText.
Qed.

Lemma spaced_ranges_lower (lo : Z) (rs : list HighlightRange) :
  spaced_ranges lo rs -> Forall (fun r => lo <= start r /\ start r < end_ r) rs.
Proof.
  revert lo. induction rs as [|r rs IH]; intros lo; simpl; [constructor|].
  intros (H1 & H2 & H3). constructor; [lia|].
  eapply Forall_impl; [|exact (IH _ H3)]. simpl. intros; lia.
Qed.

Lemma spaced_ranges_sorted (lo : Z) (rs : list HighlightRange) :
  spaced_ranges lo rs -> StronglySorted (fun a b => compareRanges a b <= 0) rs.
Proof.
  revert lo. induction rs as [|r rs IH]; intros lo; simpl; [constructor|].
  intros (H1 & H2 & H3). constructor; [exact (IH _ H3)|].
  eapply Forall_impl; [|exact (spaced_ranges_lower _ _ H3)].
  intros x [Hx _]. unfold compareRanges.
  destruct (Z.eqb_spec (start r - start x) 0); lia.
Qed.

Lemma clampRanges_spaced (text : jsstring) (rs : list HighlightRange) :
  spaced_ranges 0 rs -> Forall (fun r => end_ r <= JS.length text) rs ->
  clampRanges (JS.length text) (Some rs) = rs.
Proof.
  intros Hsp Hb. destruct rs as [|r rs]; [reflexivity|]. unfold clampRanges.
  rewrite clamp_each_fixed.
  - apply sort_ranges_fixed, (spaced_ranges_sorted 0). exact Hsp.
  - pose proof (spaced_ranges_lower _ _ Hsp) as Hl.
    rewrite Forall_forall in *. intros x Hx. specialize (Hl x Hx). specialize (Hb x Hx). lia.
Qed.

Lemma renderWithHighlights_find_parts_facts (text : jsstring) (errorPos : option Z)
    (ranges : list HighlightRange) (activeFindIndex : option Z) :
  spaced_ranges 0 ranges ->
  Forall (fun r => end_ r <= JS.length text) ranges ->
  Forall (fun r => hits errorPos (start r) (end_ r) = false) ranges ->
  exists node,
    renderWithHighlights text errorPos (Some ranges) activeFindIndex = Returns node
    /\ find_parts (node_segments node) = expected_parts text activeFindIndex 0 ranges.
Proof.
  intros Hsp Hb Hh. unfold renderWithHighlights.
  rewrite clampRanges_spaced by assumption.
  destruct (for_ranges_find_parts text errorPos activeFindIndex ranges ranges []
              (mkRender [] 0 false) 0 eq_refl Hsp (Z.le_refl 0) Hh) as (st & Hrun & Hparts).
  change (List.length (@nil HighlightRange)) with 0%nat in Hrun, Hparts.
  rewrite Hrun. cbn [bind].
  pose proof (tail_step_find_parts text errorPos st) as Htail.
  rewrite Hparts in Htail. cbn [segs find_parts flat_map app] in Htail.
  destruct (segs (tail_step text errorPos st)) as [|x l] eqn:E.
  - assert (He : expected_parts text activeFindIndex 0 ranges = []) by (now rewrite <- Htail).
    destruct (match errorPos with
              | Some p => (0 <=? p) && (p <? JS.length text)
              | None => false
              end); eexists; (split; [reflexivity|]); now rewrite He.
  - eexists; split; [reflexivity|]. exact Htail.
Qed.

(** X15: when the ranges are well spaced (sorted, non-empty, disjoint),
    lie inside the buffer and none contains the error offset, the find
    segments of the overlay are exactly the texts of the ranges, in order,
    and the one at the active index, if any, is the one flagged current. *)
Theorem renderWithHighlights_find_parts (text : jsstring) (errorPos : option Z)
    (ranges : list HighlightRange) (activeFindIndex : option Z) :
  spaced_ranges 0 ranges ->
  Forall (fun r => end_ r <= JS.length text) ranges ->
  Forall (fun r => hits errorPos (start r) (end_ r) = false) ranges ->
  exists node,
    renderWithHighlights text errorPos (Some ranges) activeFindIndex = Returns node
    /\ find_parts (node_segments node) = expected_parts text activeFindIndex 0 ranges.
Proof. exact (renderWithHighlights_find_parts_facts text errorPos ranges activeFindIndex). Qed.

Lemma renderWithHighlights_find_parts_witness :
  exists node,
    renderWithHighlights (JS.lit "a cat, a cot") (Some 5)
      (Some [mkRange 2 5; mkRange 9 12]) (Some 1) = Returns node
    /\ find_parts (node_segments node)
       = [(JS.lit "cat", false); (JS.lit "cot", true)].
Proof.
  apply (renderWithHighlights_find_parts (JS.lit "a cat, a cot") (Some 5)
           [mkRange 2 5; mkRange 9 12] (Some 1)).
  - simpl. lia.
  - repeat constructor; vm_compute; congruence.
  - repeat constructor.
Defined.

End CompositorMore.

(* ================================================================== *)
(** * From the search to the overlay *)

Section SearchThenHighlight.

Import FindMatches HighlightedTextarea Spec.

Context {H : Host}.

Lemma computeFindMatches_literal_spaced (text : jsstring) (options : FindOptions) :
  regex options = false ->
  exists r, computeFindMatches text options = Returns r /\ spaced 0 (matches r).
Proof.
  intros Hr. unfold computeFindMatches, computeFindMatches_within. rewrite Hr.
  destruct (JS.is_empty (query options)); [eexists; split; [reflexivity|exact I]|].
  set (hay := if matchCase options then text else toLowerCase text).
  destruct (if matchCase options then query options else toLowerCase (query options))
    as [|c n]; [eexists; split; [reflexivity|exact I]|]. simpl JS.is_empty. cbv iota.
  destruct (run_loop_returns (literal_step hay (c :: n) text (wholeWord options))
              scan_inv (spaced 0) (scan_room hay)
              (fun st => literal_step_progress hay (c :: n) text (wholeWord options) st
                           ltac:(discriminate))
              (loop_budget hay) (0, []) scan_inv_initial) as (ms & -> & Hms).
  - unfold loop_budget, scan_room, JS.length. simpl. lia.
  - simpl. eauto.
Qed.

Lemma spaced_to_ranges (lo : Z) (ms : list FindMatch) :
  spaced lo ms -> spaced_ranges lo (map App.to_range ms).
Proof.
  revert lo. induction ms as [|m ms IH]; intros lo; simpl; [auto|].
  intros (H1 & H2 & H3). repeat split; auto.
Qed.

Lemma expected_parts_of_matches (text q : jsstring) (act : option Z) (ms : list FindMatch) :
  Forall (fun m => JS.slice text (FindMatches.start m) (FindMatches.end_ m) = q) ms ->
  forall idx,
    expected_parts text act idx (map App.to_range ms)
    = map (fun i => (q, is_active i act)) (seq idx (List.length ms)).
Proof.
  induction 1 as [|m ms Hm Hms IH]; intros idx; [reflexivity|].
  simpl. rewrite IH. f_equal. f_equal. exact Hm.
Qed.

(** X16: a case-sensitive literal search followed by the overlay: the
    engine's matches, handed to the compositor as they are, give one find
    segment per match, each showing exactly the query, and only the one
    at the active index is flagged current. *)
Theorem search_then_highlight (text : jsstring) (options : FindOptions)
    (activeFindIndex : option Z) :
  regex options = false -> matchCase options = true ->
  exists r node,
    computeFindMatches text options = Returns r
    /\ renderWithHighlights text None (Some (map App.to_range (matches r))) activeFindIndex
       = Returns node
    /\ find_parts (node_segments node)
       = map (fun i => (query options, is_active i activeFindIndex))
           (seq 0 (List.length (matches r))).
Proof.
  intros Hr Hmc.
  destruct (computeFindMatches_literal_spaced text options Hr) as (r & Hrun & Hsp).
  destruct (literal_matches_are_occurrences_facts text options Hr) as (r' & Hrun' & _ & Hocc).
  rewrite Hrun in Hrun'. injection Hrun' as <-.
  unfold haystack, needle_of in Hocc. rewrite Hmc in Hocc.
  destruct (renderWithHighlights_find_parts_facts text None (map App.to_range (matches r))
              activeFindIndex) as (node & Hnode & Hparts).
  - now apply spaced_to_ranges.
  - apply Forall_map. eapply Forall_impl; [|exact Hocc]. simpl. tauto.
  - apply Forall_map, Forall_forall. reflexivity.
  - exists r, node. split; [exact Hrun|]. split; [exact Hnode|].
    rewrite Hparts. apply expected_parts_of_matches.
    eapply Forall_impl; [|exact Hocc]. simpl. tauto.
Qed.

End SearchThenHighlight.

Section SearchThenHighlightWitness.

Import FindMatches HighlightedTextarea Spec.

Lemma search_then_highlight_witness :
  exists r node,
    computeFindMatches (H := MiniRegExp.host) (JS.lit "a cat, a Cat, a cat")
      (mkOptions (JS.lit "cat") true false false) = Returns r
    /\ renderWithHighlights (JS.lit "a cat, a Cat, a cat") None
         (Some (map App.to_range (matches r))) (Some 1) = Returns node
    /\ find_parts (node_segments node)
       = map (fun i => (JS.lit "cat", is_active i (Some 1)))
           (seq 0 (List.length (matches r))).
Proof.
  apply (search_then_highlight (H := MiniRegExp.host) (JS.lit "a cat, a Cat, a cat")
           (mkOptions (JS.lit "cat") true false false) (Some 1)); reflexivity.
Defined.

End SearchThenHighlightWitness.

(* ================================================================== *)
(** * The compositor emits no empty segment *)

Section Solid.

Import HighlightedTextarea Spec.

Variable text : jsstring.
Variable errorPos : option Z.

Lemma pushText_solid (s : jsstring) (st : RenderState) :
  Forall solid (segs st) -> Forall solid (segs (pushText s st)).
Proof.
  intros Hs. unfold pushText. destruct s as [|c s]; [assumption|].
  simpl. apply Forall_app. split; [assumption|].
  constructor; [discriminate|constructor].
Qed.

Lemma error_glyph_solid (p : Z) :
  0 <= p < JS.length text -> error_glyph (JS.get_or_empty text p) <> [].
Proof.
  intros Hp. unfold JS.get_or_empty.
  destruct (JS.get text p) as [c|] eqn:E.
  - unfold error_glyph. destruct (JS.eqb [c] [JS.SPACE]); discriminate.
  - apply get_out_of_range in E. lia.
Qed.

Lemma pushErrorChar_solid (p : Z) (st : RenderState) :
  0 <= p < JS.length text -> Forall solid (segs st) ->
  Forall solid (segs (pushErrorChar (JS.get_or_empty text p) st)).
Proof.
  intros Hp Hs. simpl. apply Forall_app. split; [assumption|].
  constructor; [now apply error_glyph_solid|constructor].
Qed.

Lemma pushFind_solid (v : jsstring) (cur : bool) (st : RenderState) :
  Forall solid (segs st) ->
  Forall solid (segs (if JS.is_empty v then st else push (SegFind v cur) st)).
Proof.
  intros Hs. destruct v as [|c v]; [assumption|].
  simpl. apply Forall_app. split; [assumption|].
  constructor; [discriminate|constructor].
Qed.

Lemma gap_step_solid (start : Z) (st : RenderState) :
  0 <= cursor st -> start <= JS.length text ->
  Forall solid (segs st) -> Forall solid (segs (gap_step text errorPos start st)).
Proof.
  intros Hc Hs Hsolid. unfold gap_step.
  destruct (cursor st <? start); [|assumption]. cbn [set_cursor segs].
  destruct (error_within errorPos st (cursor st) start) eqn:E.
  - apply error_within_true in E as [_ Hr].
    cbn [set_cursor set_errorRendered cursor].
    assert (Hmid : Forall solid
                     (segs (pushErrorChar (JS.get_or_empty text (pos_of errorPos))
                              (pushText (JS.slice text (cursor st) (pos_of errorPos)) st)))).
    { apply pushErrorChar_solid; [lia|]. now apply pushText_solid. }
    destruct (pos_of errorPos + 1 <? start); [|exact Hmid].
    apply pushText_solid. exact Hmid.
  - now apply pushText_solid.
Qed.

Lemma match_step_solid (activeFindIndex : option Z) (idx : nat) (e : Z) (st : RenderState) :
  0 <= cursor st -> cursor st < e -> e <= JS.length text ->
  Forall solid (segs st) ->
  Forall solid (segs (match_step text errorPos activeFindIndex idx (cursor st) e st)).
Proof.
  intros Hc Hlt He Hsolid. unfold match_step.
  destruct (error_within errorPos st (cursor st) e) eqn:E.
  - apply error_within_true in E as [_ Hr]. cbn [set_cursor segs].
    apply pushFind_solid. cbn [set_errorRendered segs].
    apply pushErrorChar_solid; [lia|]. now apply pushFind_solid.
  - cbn [set_cursor push segs]. apply Forall_app. split; [assumption|].
    constructor; [|constructor]. unfold solid. simpl. intros Hnil.
    assert (Hz : cursor st = e) by (apply (slice_empty text); [lia|lia|exact Hnil]).
    lia.
Qed.

Lemma range_step_solid (activeFindIndex : option Z) (idx : nat) (r : HighlightRange)
    (st : RenderState) :
  clamped text r -> Inv text errorPos st -> Forall solid (segs st) ->
  Forall solid (segs (range_step text errorPos activeFindIndex idx r st)).
Proof.
  intros (H0 & Hse & He) (_ & Hc & _) Hsolid. unfold range_step.
  destruct (Z.leb_spec (end_ r) (cursor st)); [assumption|].
  set (s := if start r <? cursor st then cursor st else start r).
  assert (Hs : cursor st <= s /\ s < end_ r).
  { unfold s. destruct (Z.ltb_spec (start r) (cursor st)); lia. }
  pose proof (gap_step_cursor text errorPos st s (proj1 Hs)) as Hcur.
  rewrite <- Hcur at 1. apply match_step_solid; rewrite ?Hcur; try lia.
  apply gap_step_solid; [lia|lia|assumption].
Qed.

Lemma for_ranges_solid (activeFindIndex : option Z) (ranges : list HighlightRange) :
  Forall (clamped text) ranges ->
  forall remaining idx st st',
    Inv text errorPos st -> Forall solid (segs st) ->
    for_ranges text errorPos activeFindIndex ranges remaining idx st = Returns st' ->
    Inv text errorPos st' /\ Forall solid (segs st').
Proof.
  intros Hall. induction remaining as [|n IH]; intros idx st st' HI Hsolid; simpl.
  - intros [= <-]. now split.
  - destruct (nth_error ranges idx) as [r|] eqn:E; [|discriminate].
    assert (Hr : clamped text r).
    { rewrite Forall_forall in Hall. eapply Hall, nth_error_In; eauto. }
    apply IH.
    + now apply range_step_inv.
    + now apply range_step_solid.
Qed.

Lemma tail_step_solid (st : RenderState) :
  Inv text errorPos st -> Forall solid (segs st) ->
  Forall solid (segs (tail_step text errorPos st)).
Proof.
  intros (_ & Hc & _) Hsolid. unfold tail_step.
  destruct (cursor st <? JS.length text); [|assumption].
  destruct (error_within errorPos st (cursor st) (JS.length text)) eqn:E.
  - apply error_within_true in E as [_ Hr].
    apply pushText_solid. cbn [set_cursor set_errorRendered segs].
    apply pushErrorChar_solid; [lia|]. now apply pushText_solid.
  - now apply pushText_solid.
Qed.

(** X17: the overlay holds no empty segment and shows the error exactly
    when the error offset lies inside the buffer: the compositor returns
    the bare (empty) text for an empty buffer, and otherwise a non-empty
    list of segments each of which carries at least one character, with
    one error segment if the offset is inside the buffer and none if it is
    absent or outside. *)
Theorem renderWithHighlights_solid (findRanges : option (list HighlightRange))
    (activeFindIndex : option Z) :
  exists node,
    renderWithHighlights text errorPos findRanges activeFindIndex = Returns node
    /\ ((node = NodeText [] /\ text = [])
        \/ exists l, node = NodeSegments l /\ l <> [] /\ Forall solid l)
    /\ error_count node = if hits errorPos 0 (JS.length text) then 1%nat else 0%nat.
Proof.
  destruct (renderWithHighlights_lays text errorPos findRanges activeFindIndex)
    as (node & Hrun & Hnode).
  exists node. split; [exact Hrun|]. split.
  - destruct Hnode as [[-> Ht] | (l & -> & Hne & _)]; [left; now rewrite Ht at 1|].
    right. exists l. split; [reflexivity|]. split; [assumption|].
    revert Hrun. unfold renderWithHighlights.
    destruct (for_ranges text errorPos activeFindIndex
                (clampRanges (JS.length text) findRanges)
                (List.length (clampRanges (JS.length text) findRanges)) 0
                (mkRender [] 0 false)) as [st| |] eqn:E; simpl; try discriminate.
    assert (Hinit : Inv text errorPos (mkRender [] 0 false)).
    { repeat split; simpl; try (unfold JS.length; lia); [constructor|discriminate]. }
    destruct (for_ranges_solid activeFindIndex _ (clampRanges_clamped text findRanges)
                _ _ _ _ Hinit (Forall_nil _) E) as [HI Hsolid].
    pose proof (tail_step_solid st HI Hsolid) as Htail.
    destruct (match segs (tail_step text errorPos st), errorPos with
              | [], Some p => (0 <=? p) && (p <? JS.length text)
              | _, _ => false
              end); [discriminate|].
    destruct (Nat.eqb (List.length (segs (tail_step text errorPos st))) 0); [discriminate|].
    now intros [= <-].
  - destruct Hnode as [[-> Ht] | (l & -> & _ & HR)].
    + unfold error_count. simpl. rewrite Ht. unfold hits.
      destruct errorPos as [p|]; [|reflexivity]. change (JS.length []) with 0.
      destruct (Z.leb_spec 0 p), (Z.ltb_spec p 0); simpl; try reflexivity; lia.
    + unfold error_count. simpl. exact (Renders_error_count _ _ _ _ _ HR).
Qed.

End Solid.

(* ================================================================== *)
(** * More on the reformatter *)

Section ReformatterScan.

Import FormatJsonBestEffort Spec.

Lemma scan_non_whitespace_spec (chars : jsstring) (i limit : Z) :
  (scan_non_whitespace chars i limit = -1
   /\ (limit <= i + JS.length chars ->
       blank (firstn (Z.to_nat (limit - i)) chars)))
  \/ (i <= scan_non_whitespace chars i limit < limit
      /\ blank (firstn (Z.to_nat (scan_non_whitespace chars i limit - i)) chars)
      /\ is_whitespace (JS.get_or_empty chars (scan_non_whitespace chars i limit - i)) = false).
Proof.
  revert i. induction chars as [|c chars IH]; intros i; cbn [scan_non_whitespace].
  - destruct (Z.leb_spec limit i).
    + left. split; [reflexivity|]. intros _. rewrite firstn_nil. constructor.
    + right. rewrite Z.sub_diag. split; [lia|]. split; [constructor|reflexivity].
  - destruct (Z.leb_spec limit i).
    + left. split; [reflexivity|]. intros _.
      replace (Z.to_nat (limit - i)) with 0%nat by lia. constructor.
    + destruct (is_whitespace [c]) eqn:Ec.
      * destruct (IH (i + 1)) as [[Hj Hb] | (Hj & Hb & Hn)].
        -- left. split; [exact Hj|]. intros Hl.
           replace (Z.to_nat (limit - i)) with (S (Z.to_nat (limit - (i + 1)))) by lia.
           cbn [firstn]. constructor; [exact Ec|]. apply Hb.
           unfold JS.length in *. simpl List.length in Hl. lia.
        -- right. set (j := scan_non_whitespace chars (i + 1) limit) in *.
           split; [lia|].
           replace (Z.to_nat (j - i)) with (S (Z.to_nat (j - (i + 1)))) by lia.
           cbn [firstn]. split; [constructor; assumption|].
           unfold JS.get_or_empty, JS.get in *.
           destruct (Z.ltb_spec (j - i) 0); [lia|].
           destruct (Z.ltb_spec (j - (i + 1)) 0); [lia|].
           replace (Z.to_nat (j - i)) with (S (Z.to_nat (j - (i + 1)))) by lia.
           exact Hn.
      * right. rewrite Z.sub_diag. split; [lia|]. split; [constructor|exact Ec].
Qed.

Lemma get_or_empty_skipn (text : jsstring) (a k : Z) :
  0 <= a -> 0 <= k ->
  JS.get_or_empty (skipn (Z.to_nat a) text) k = JS.get_or_empty text (a + k).
Proof.
  intros Ha Hk. unfold JS.get_or_empty, JS.get.
  destruct (Z.ltb_spec k 0); [lia|]. destruct (Z.ltb_spec (a + k) 0); [lia|].
  rewrite nth_error_skipn. now replace (Z.to_nat a + Z.to_nat k)%nat with (Z.to_nat (a + k)) by lia.
Qed.

Lemma nextNonWhitespaceIndex_first_facts (text : jsstring) (start limit : Z) :
  0 <= start -> start <= limit -> limit <= JS.length text ->
  (nextNonWhitespaceIndex text start limit = -1
   /\ blank (JS.slice text start limit))
  \/ (start <= nextNonWhitespaceIndex text start limit < limit
      /\ blank (JS.slice text start (nextNonWhitespaceIndex text start limit))
      /\ is_whitespace (JS.get_or_empty text (nextNonWhitespaceIndex text start limit)) = false).
Proof.
  intros H0 Hsl Hl. unfold nextNonWhitespaceIndex.
  destruct (scan_non_whitespace_spec (skipn (Z.to_nat start) text) start limit)
    as [[Hj Hb] | (Hj & Hb & Hn)].
  - left. split; [exact Hj|]. rewrite slice_in_range by lia. apply Hb.
    unfold JS.length in *. rewrite length_skipn. lia.
  - right. set (j := scan_non_whitespace (skipn (Z.to_nat start) text) start limit) in *.
    split; [exact Hj|]. split.
    + rewrite slice_in_range by lia. exact Hb.
    + rewrite get_or_empty_skipn in Hn by lia.
      now replace (start + (j - start)) with j in Hn by lia.
Qed.

(** X18: [nextNonWhitespaceIndex] returns the first index from [start]
    below [limit] whose character is not a space, tab, newline or carriage
    return, everything before it being such whitespace; it returns -1
    exactly when the whole stretch is whitespace. *)
Theorem nextNonWhitespaceIndex_first (text : jsstring) (start limit : Z) :
  0 <= start -> start <= limit -> limit <= JS.length text ->
  (nextNonWhitespaceIndex text start limit = -1
   /\ blank (JS.slice text start limit))
  \/ (start <= nextNonWhitespaceIndex text start limit < limit
      /\ blank (JS.slice text start (nextNonWhitespaceIndex text start limit))
      /\ is_whitespace (JS.get_or_empty text (nextNonWhitespaceIndex text start limit)) = false).
Proof. exact (nextNonWhitespaceIndex_first_facts text start limit). Qed.

Lemma nextNonWhitespaceIndex_first_witness :
  (nextNonWhitespaceIndex (JS.lit "{  }") 1 4 = -1 /\ blank (JS.slice (JS.lit "{  }") 1 4))
  \/ (1 <= nextNonWhitespaceIndex (JS.lit "{  }") 1 4 < 4
      /\ blank (JS.slice (JS.lit "{  }") 1 (nextNonWhitespaceIndex (JS.lit "{  }") 1 4))
      /\ is_whitespace (JS.get_or_empty (JS.lit "{  }")
                          (nextNonWhitespaceIndex (JS.lit "{  }") 1 4)) = false).
Proof.
  apply (nextNonWhitespaceIndex_first (JS.lit "{  }") 1 4); vm_compute; congruence.
Defined.

End ReformatterScan.

Section ReformatterFilter.

Import FormatJsonBestEffort Spec.

Lemma JS_eqb_eq (a b : jsstring) : JS.eqb a b = true -> a = b.
Proof.
  revert b. induction a as [|x a IH]; intros [|y b]; simpl; try discriminate; auto.
  rewrite andb_true_iff, N.eqb_eq. intros [-> Hab]. now rewrite (IH _ Hab).
Qed.

Lemma filter_blank (f : N -> bool) (s : jsstring) :
  kills_whitespace f -> blank s -> filter f s = [].
Proof.
  intros Hf. induction 1 as [|c s Hc Hs IH]; [reflexivity|].
  simpl. now rewrite (Hf c Hc).
Qed.

Lemma repeat_blank (n : nat) : blank (concat (List.repeat (JS.lit "  ") n)).
Proof.
  induction n as [|n IH]; [constructor|]. simpl.
  constructor; [reflexivity|]. constructor; [reflexivity|]. exact IH.
Qed.

Lemma pushIndent_pad (st : FormatState) :
  exists pad, pushIndent st = Returns (out_push [pad] st) /\ blank pad.
Proof.
  unfold pushIndent, JS.repeat.
  destruct (Z.ltb_spec (Z.max 0 (indent st)) 0); [lia|]. simpl.
  eexists; split; [reflexivity|]. apply repeat_blank.
Qed.

Lemma filter_concat_app (f : N -> bool) (parts added : list jsstring) :
  filter f (concat (parts ++ added)) = filter f (concat parts) ++ filter f (concat added).
Proof. now rewrite concat_app, filter_app. Qed.

Variable f : N -> bool.
Hypothesis f_kills : kills_whitespace f.

Variable raw : jsstring.

Lemma format_body_filter (st st' : FormatState) :
  0 <= i st < JS.length raw ->
  format_body raw (JS.length raw) (JS.get_or_empty raw (i st)) st = Returns st' ->
  insertedSentinel st' = insertedSentinel st
  /\ i st <= i st' < JS.length raw
  /\ filter f (concat (out st'))
     = filter f (concat (out st)) ++ filter f (JS.slice raw (i st) (i st' + 1)).
Proof.
  intros Hi.
  assert (Hlf : f JS.LF = false) by (apply f_kills; reflexivity).
  assert (Hlf' : f 10%N = false) by (apply f_kills; reflexivity).
  assert (Hsp : f JS.SPACE = false) by (apply f_kills; reflexivity).
  assert (Hsp' : f 32%N = false) by (apply f_kills; reflexivity).
  assert (Hc : exists c, JS.get_or_empty raw (i st) = [c]).
  { unfold JS.get_or_empty. destruct (JS.get raw (i st)) as [c|] eqn:E; [eauto|].
    apply get_out_of_range in E. lia. }
  destruct Hc as (c & Hc). rewrite Hc.
  assert (Hch : JS.slice raw (i st) (i st + 1) = [c]) by (now rewrite slice_one).
  clear Hc. unfold format_body.
  destruct (inString st).
  { destruct (escaping _);
      [|destruct (JS.eqb _ [JS.BACKSLASH]); [|destruct (JS.eqb _ [JS.QUOTE])]];
      intros [= <-]; cbn; (split; [reflexivity|]); (split; [lia|]);
      rewrite filter_concat_app, Hch; cbn; rewrite ?app_nil_r; reflexivity. }
  destruct (is_whitespace _) eqn:Ews.
  { intros [= <-]. cbn. split; [reflexivity|]. split; [lia|].
    rewrite Hch. simpl. rewrite (f_kills c Ews). now rewrite app_nil_r. }
  set (st1 := if pendingSpace st then _ else st).
  assert (H1 : i st1 = i st /\ insertedSentinel st1 = insertedSentinel st
               /\ filter f (concat (out st1)) = filter f (concat (out st))).
  { unfold st1. destruct (pendingSpace st); [|auto].
    destruct (negb _ && _); cbn; repeat split.
    rewrite filter_concat_app. cbn. rewrite ?Hsp, ?Hsp'. apply app_nil_r. }
  destruct H1 as (Hi1 & Hs1 & Hf1). clearbody st1.
  rewrite <- Hi1, <- Hs1, <- Hf1. rewrite <- Hi1 in Hi, Hch.
  clear Hi1 Hs1 Hf1.
  destruct (JS.eqb _ [JS.QUOTE]).
  { intros [= <-]. cbn. split; [reflexivity|]. split; [lia|].
    rewrite filter_concat_app, Hch. cbn. rewrite ?app_nil_r. reflexivity. }
  destruct (JS.eqb _ (JS.lit "{") || JS.eqb _ (JS.lit "[")).
  { destruct (negb (nextNonWhitespaceIndex raw (i st1 + 1) (JS.length raw) =? -1)
              && JS.eqb (JS.get_or_empty raw (nextNonWhitespaceIndex raw (i st1 + 1)
                                                (JS.length raw))) _) eqn:E.
    - apply andb_true_iff in E as [Ej Ec]. apply negb_true_iff, Z.eqb_neq in Ej.
      apply JS_eqb_eq in Ec.
      destruct (nextNonWhitespaceIndex_first_facts raw (i st1 + 1) (JS.length raw))
        as [[Hj _] | (Hj & Hb & _)]; try lia.
      set (j := nextNonWhitespaceIndex raw (i st1 + 1) (JS.length raw)) in *.
      intros [= <-]. cbn. split; [reflexivity|]. split; [lia|].
      rewrite filter_concat_app. f_equal. cbn. rewrite app_nil_r.
      rewrite <- (slice_app raw (i st1) (i st1 + 1) (j + 1)) by lia.
      rewrite <- (slice_app raw (i st1 + 1) j (j + 1)) by lia.
      rewrite !filter_app, (filter_blank f _ f_kills Hb), Hch.
      rewrite slice_one by lia. rewrite Ec. cbn. destruct (f c); reflexivity.
    - match goal with |- pushIndent ?s = _ -> _ =>
        destruct (pushIndent_pad s) as (pad & -> & Hpad) end.
      intros [= <-]. cbn. split; [reflexivity|]. split; [lia|].
      rewrite !filter_concat_app, Hch. cbn.
      rewrite ?app_nil_r, (filter_blank f pad f_kills Hpad), ?Hlf, ?Hlf', ?app_nil_r.
      destruct (f c); reflexivity. }
  destruct (JS.eqb _ (JS.lit "}") || JS.eqb _ (JS.lit "]")).
  { match goal with |- context [pushIndent ?s] =>
      destruct (pushIndent_pad s) as (pad & -> & Hpad) end.
    intros [= <-]. cbn. split; [reflexivity|]. split; [lia|].
    rewrite !filter_concat_app, Hch. cbn.
    rewrite ?app_nil_r, (filter_blank f pad f_kills Hpad), ?Hlf, ?Hlf', ?app_nil_r.
    destruct (f c); reflexivity. }
  destruct (JS.eqb _ (JS.lit ",")) eqn:Ec.
  { apply JS_eqb_eq in Ec.
    match goal with |- pushIndent ?s = _ -> _ =>
      destruct (pushIndent_pad s) as (pad & -> & Hpad) end.
    intros [= <-]. cbn. split; [reflexivity|]. split; [lia|].
    rewrite !filter_concat_app, Hch, Ec. cbn.
    rewrite ?app_nil_r, (filter_blank f pad f_kills Hpad), ?Hlf, ?Hlf', ?app_nil_r.
    destruct (f 44%N); reflexivity. }
  destruct (JS.eqb _ (JS.lit ":")) eqn:Ec'.
  { apply JS_eqb_eq in Ec'.
    intros [= <-]. cbn. split; [reflexivity|]. split; [lia|].
    rewrite !filter_concat_app, Hch, Ec'. cbn. rewrite ?Hsp, ?Hsp', ?app_nil_r.
    destruct (f 58%N); reflexivity. }
  intros [= <-]. cbn. split; [reflexivity|]. split; [lia|].
  rewrite filter_concat_app, Hch. cbn. rewrite ?app_nil_r. reflexivity.
Qed.

Lemma maybeInsertSentinel_cases (e : option Z) (k : Z) (st : FormatState) :
  maybeInsertSentinel e k st = st
  \/ (insertedSentinel st = false /\ e = Some k
      /\ maybeInsertSentinel e k st = set_insertedSentinel (out_push [sentinel] st)).
Proof.
  unfold maybeInsertSentinel. destruct (insertedSentinel st) eqn:Es; [now left|].
  destruct e as [p|]; [|now left].
  destruct (Z.eqb_spec k p) as [->|]; cbn [negb]; [right|now left].
  repeat split.
Qed.

Lemma format_step_copied (e : option Z) (st : FormatState) :
  copied f raw e st ->
  match format_step raw e st with
  | Returns (Continue st') => copied f raw e st'
  | Returns (Break st') => copied f raw e st' /\ i st' = JS.length raw
  | _ => True
  end.
Proof.
  intros [Hi Hc]. unfold format_step.
  destruct (Z.ltb_spec (i st) (JS.length raw)) as [Hlt|Hge];
    [|split; [now split|lia]].
  cbn zeta. rewrite maybeInsertSentinel_i.
  set (st0 := maybeInsertSentinel e (i st) st).
  assert (Hi0 : i st0 = i st) by apply maybeInsertSentinel_i.
  destruct (format_body raw (JS.length raw) (JS.get_or_empty raw (i st)) st0)
    as [st'| |] eqn:Eb; cbn; [|exact I|exact I].
  rewrite <- Hi0 in Eb.
  destruct (format_body_filter st0 st' ltac:(lia) Eb) as (Hs & Hi' & Hf).
  rewrite Hi0 in Hi', Hf.
  assert (Hsl : filter f (JS.slice raw 0 (i st' + 1))
                = filter f (JS.slice raw 0 (i st))
                  ++ filter f (JS.slice raw (i st) (i st' + 1))).
  { rewrite <- filter_app. f_equal. symmetry. apply slice_app; lia. }
  split; [cbn; lia|]. cbn [insertedSentinel out i set_i].
  rewrite Hs, Hf, Hsl.
  destruct (maybeInsertSentinel_cases e (i st) st) as [E | (Es & Ee & E)];
    fold st0 in E; rewrite E.
  - destruct (insertedSentinel st).
    + destruct Hc as (He & a & b & Ha & Hb). split; [exact He|].
      exists a, (b ++ filter f (JS.slice raw (i st) (i st' + 1))).
      rewrite Ha, Hb. now rewrite <- !app_assoc.
    + now rewrite Hc.
  - rewrite Es in Hc. cbn [insertedSentinel set_insertedSentinel out out_push].
    split; [congruence|].
    exists (filter f (JS.slice raw 0 (i st))), (filter f (JS.slice raw (i st) (i st' + 1))).
    split; [reflexivity|].
    rewrite filter_concat_app, Hc. cbn [concat]. rewrite app_nil_r.
    now rewrite <- !app_assoc.
Qed.

(** The state in which the loop of [formatJsonBestEffort] ends. *)
Lemma format_loop_copied (e : option Z) :
  exists st, run_loop (format_step raw e) (S (List.length raw)) initial = Returns st
             /\ copied f raw e st /\ i st = JS.length raw.
Proof.
  destruct (run_loop_returns (format_step raw e)
              (fun _ => True) (fun _ => True)
              (fun st => Z.to_nat (JS.length raw - i st))
              (format_step_progress raw e)
              (S (List.length raw)) initial I) as (st & Hrun & _).
  { unfold JS.length. simpl. lia. }
  exists st. split; [exact Hrun|].
  apply (run_loop_invariant (format_step raw e) (copied f raw e)
           (fun st => copied f raw e st /\ i st = JS.length raw)
           (format_step_copied e) (S (List.length raw)) initial st); [|exact Hrun].
  split; [cbn; unfold JS.length; lia|]. cbn [initial insertedSentinel out i concat].
  rewrite slice_in_range by (unfold JS.length; lia). reflexivity.
Qed.

Lemma ensureFinalNewline_filter (s : jsstring) :
  filter f (Utils.ensureFinalNewline s) = filter f s.
Proof.
  destruct s as [|c s]; [reflexivity|]. rewrite ensureFinalNewline_cons.
  destruct (JS.endsWith (c :: s) [JS.LF]); [reflexivity|].
  rewrite filter_app. cbn [filter]. rewrite (f_kills JS.LF eq_refl). apply app_nil_r.
Qed.

(** The joined output before the sentinel is taken out, and what the result
    is made of. *)
Lemma formatJsonBestEffort_copied (e : option Z) :
  exists w,
    formatJsonBestEffort raw e
    = Returns (mkFormatResult
                 (Utils.ensureFinalNewline (JS.remove_first 0%N w))
                 (if 0 <=? JS.indexOf w sentinel 0
                  then Some (offsetToLineColumn w (JS.indexOf w sentinel 0))
                  else None))
    /\ (filter f w = filter f raw
        \/ (e <> None
            /\ exists a b, filter f raw = a ++ b
                           /\ filter f w = a ++ filter f sentinel ++ b)).
Proof.
  unfold formatJsonBestEffort, formatJsonBestEffort_within.
  destruct (format_loop_copied e) as (st & -> & [_ Hc] & Hi). cbn [bind].
  rewrite Hi, slice_all in Hc.
  eexists; split; [reflexivity|]. unfold JS.join.
  destruct e as [p|].
  - destruct (insertedSentinel st) eqn:Es; cbn [negb andb].
    + right. exact Hc.
    + destruct (p =? JS.length raw); [|now left].
      right. split; [discriminate|]. exists (filter f raw), [].
      cbn [out out_push set_insertedSentinel]. rewrite filter_concat_app, Hc.
      cbn [concat]. now rewrite !app_nil_r.
  - destruct (insertedSentinel st); [|now left]. now destruct Hc as [[] _].
Qed.

End ReformatterFilter.

Section LoopAgreement.

Context {S R : Type}.
Variables step step' : S -> outcome (loop_step S R).
Variable J : S -> Prop.

Hypothesis steps_agree : forall s, J s -> step s = step' s.
Hypothesis step_keeps : forall s s', J s -> step s = Returns (Continue s') -> J s'.

Lemma run_loop_agree (fuel : nat) (s : S) :
  J s -> run_loop step fuel s = run_loop step' fuel s.
Proof.
  revert s. induction fuel as [|fuel IH]; intros s Hs; [reflexivity|].
  cbn [run_loop]. rewrite <- (steps_agree s Hs).
  pose proof (step_keeps s) as Hk.
  destruct (step s) as [[s'|r]| |]; cbn [bind]; try reflexivity.
  apply IH. now apply Hk.
Qed.

End LoopAgreement.

Section ReformatterCharacters.

Import FormatJsonBestEffort Spec.

Lemma non_whitespace_kills : kills_whitespace non_whitespace.
Proof. intros c Hc. unfold non_whitespace. now rewrite Hc. Qed.

Lemma is_nul_kills : kills_whitespace is_nul.
Proof.
  intros c. unfold is_nul. destruct (N.eqb_spec c 0) as [->|]; [discriminate|reflexivity].
Qed.

Lemma visible_kills : kills_whitespace visible.
Proof. intros c Hc. unfold visible, non_whitespace. now rewrite Hc. Qed.

Lemma remove_first_filter_out (g : N -> bool) (w : jsstring) :
  g 0%N = false -> filter g (JS.remove_first 0%N w) = filter g w.
Proof.
  intros Hg. induction w as [|x w IH]; [reflexivity|]. cbn [JS.remove_first filter].
  destruct (N.eqb_spec x 0) as [->|]; [now rewrite Hg|].
  cbn [filter]. now rewrite IH.
Qed.

Lemma remove_first_filter_in (g : N -> bool) (w : jsstring) :
  g 0%N = true -> filter g (JS.remove_first 0%N w) = JS.remove_first 0%N (filter g w).
Proof.
  intros Hg. induction w as [|x w IH]; [reflexivity|]. cbn [JS.remove_first filter].
  destruct (N.eqb_spec x 0) as [->|Hx].
  - rewrite Hg. cbn [JS.remove_first]. now rewrite N.eqb_refl.
  - cbn [filter]. destruct (g x); [|exact IH].
    cbn [JS.remove_first]. destruct (N.eqb_spec x 0); [contradiction|]. now rewrite IH.
Qed.

Lemma remove_first_middle (a b : jsstring) :
  ~ In 0%N a -> JS.remove_first 0%N (a ++ 0%N :: b) = a ++ b.
Proof.
  induction a as [|x a IH]; intros Ha; [reflexivity|]. cbn [app JS.remove_first].
  destruct (N.eqb_spec x 0) as [->|]; [destruct Ha; now left|].
  rewrite IH; [reflexivity|]. intros Hin. apply Ha. now right.
Qed.

Lemma remove_first_absent (w : jsstring) : ~ In 0%N w -> JS.remove_first 0%N w = w.
Proof.
  induction w as [|x w IH]; intros Hw; [reflexivity|]. cbn [JS.remove_first].
  destruct (N.eqb_spec x 0) as [->|]; [destruct Hw; now left|].
  rewrite IH; [reflexivity|]. intros Hin. apply Hw. now right.
Qed.

Lemma index_from_single (c : N) (w : jsstring) (k : nat) :
  JS.index_from [c] w k = None <-> ~ In c w.
Proof.
  revert k. induction w as [|y w IH]; intros k; cbn [JS.index_from JS.starts_with].
  - split; [intros _ []|reflexivity].
  - rewrite andb_true_r. destruct (N.eqb_spec c y) as [->|Hcy].
    + split; [discriminate|]. intros Hn. destruct Hn. now left.
    + rewrite IH. split.
      * intros Hn [Hy|Hin]; [congruence|contradiction].
      * intros Hn Hin. apply Hn. now right.
Qed.

Lemma indexOf_single (c : N) (w : jsstring) :
  (0 <=? JS.indexOf w [c] 0) = false <-> ~ In c w.
Proof.
  unfold JS.indexOf.
  replace (Z.to_nat (Z.min (Z.max 0 0) (JS.length w))) with 0%nat
    by (unfold JS.length; lia).
  cbn [skipn]. rewrite <- (index_from_single c w 0).
  destruct (JS.index_from [c] w 0) as [r|].
  - split; [|discriminate]. intros Hr. apply Z.leb_gt in Hr. lia.
  - split; reflexivity.
Qed.

Lemma filter_is_nul_in (w : jsstring) : In 0%N w <-> filter is_nul w <> [].
Proof.
  induction w as [|x w IH]; cbn [filter In]; [split; [intros []|congruence]|].
  unfold is_nul at 1. destruct (N.eqb_spec x 0) as [->|Hx].
  - split; [discriminate|now left].
  - rewrite <- IH. split; [intros [H|H]; [contradiction|exact H]|now right].
Qed.

(** X19: whatever the input and the error position, the reformatter only
    adds and drops whitespace and NUL characters: the other characters of
    the output are those of the input, in the same order. *)
Theorem formatJsonBestEffort_keeps_visible (raw : jsstring) (errorPosition : option Z) :
  exists r, formatJsonBestEffort raw errorPosition = Returns r
            /\ filter visible (output r) = filter visible raw.
Proof.
  destruct (formatJsonBestEffort_copied visible visible_kills raw errorPosition)
    as (w & -> & Hw).
  eexists; split; [reflexivity|]. cbn [output].
  rewrite (ensureFinalNewline_filter visible visible_kills).
  rewrite remove_first_filter_out by reflexivity.
  destruct Hw as [Hw | (_ & a & b & Ha & Hb)]; [exact Hw|].
  rewrite Hb, Ha. reflexivity.
Qed.

(** X20: on an input without NUL characters the reformatter changes
    whitespace only, with or without an error position: the sentinel it
    may insert is the one it takes out again. *)
Theorem formatJsonBestEffort_changes_whitespace_only (raw : jsstring)
    (errorPosition : option Z) :
  ~ In 0%N raw ->
  exists r, formatJsonBestEffort raw errorPosition = Returns r
            /\ filter non_whitespace (output r) = filter non_whitespace raw.
Proof.
  intros Hraw.
  assert (Hfree : forall s, incl s (filter non_whitespace raw) -> ~ In 0%N s).
  { intros s Hs Hin. apply Hraw. apply Hs in Hin. apply filter_In in Hin. tauto. }
  destruct (formatJsonBestEffort_copied non_whitespace non_whitespace_kills raw errorPosition)
    as (w & -> & Hw).
  eexists; split; [reflexivity|]. cbn [output].
  rewrite (ensureFinalNewline_filter non_whitespace non_whitespace_kills).
  rewrite remove_first_filter_in by reflexivity.
  destruct Hw as [Hw | (_ & a & b & Ha & Hb)].
  - rewrite Hw. apply remove_first_absent, Hfree, incl_refl.
  - rewrite Hb, Ha. apply remove_first_middle, Hfree. rewrite Ha. apply incl_appl, incl_refl.
Qed.

Lemma formatJsonBestEffort_changes_whitespace_only_witness :
  exists r, formatJsonBestEffort (JS.lit "[1, 2]") (Some 2) = Returns r
            /\ filter non_whitespace (output r) = filter non_whitespace (JS.lit "[1, 2]").
Proof.
  apply (formatJsonBestEffort_changes_whitespace_only (JS.lit "[1, 2]") (Some 2)).
  vm_compute. intuition discriminate.
Defined.

Lemma format_step_out_of_range (raw : jsstring) (p : Z) (st : FormatState) :
  p < 0 \/ JS.length raw < p -> 0 <= i st ->
  format_step raw (Some p) st = format_step raw None st.
Proof.
  intros Hp Hi. unfold format_step.
  destruct (Z.ltb_spec (i st) (JS.length raw)); [|reflexivity].
  assert (E : maybeInsertSentinel (Some p) (i st) st = maybeInsertSentinel None (i st) st).
  { unfold maybeInsertSentinel. destruct (insertedSentinel st); [reflexivity|].
    destruct (Z.eqb_spec (i st) p); [lia|reflexivity]. }
  cbn zeta. now rewrite E.
Qed.

Lemma format_step_index (raw : jsstring) (e : option Z) (st st' : FormatState) :
  0 <= i st -> format_step raw e st = Returns (Continue st') -> 0 <= i st'.
Proof.
  intros Hi. unfold format_step.
  destruct (i st <? JS.length raw); [|discriminate]. cbn zeta.
  destruct (format_body_returns raw (JS.length raw)
              (JS.get_or_empty raw (i (maybeInsertSentinel e (i st) st)))
              (maybeInsertSentinel e (i st) st)) as (s & -> & Hs).
  rewrite maybeInsertSentinel_i in Hs. cbn [bind]. intros [= <-]. cbn. lia.
Qed.

(** X21: an error position outside [0, raw.length] never meets the loop
    index nor the end-of-input test, so the call gives what a call without
    a position gives. *)
Theorem formatJsonBestEffort_position_out_of_range (raw : jsstring) (p : Z) :
  p < 0 \/ JS.length raw < p ->
  formatJsonBestEffort raw (Some p) = formatJsonBestEffort raw None.
Proof.
  intros Hp. unfold formatJsonBestEffort, formatJsonBestEffort_within.
  rewrite (run_loop_agree (format_step raw (Some p)) (format_step raw None)
             (fun st => 0 <= i st)
             (fun st => format_step_out_of_range raw p st Hp)
             (format_step_index raw (Some p))
             (S (List.length raw)) initial) by (cbn; lia).
  destruct (run_loop (format_step raw None) (S (List.length raw)) initial)
    as [st| |]; cbn [bind]; try reflexivity.
  destruct (Z.eqb_spec p (JS.length raw)); [unfold JS.length in *; lia|].
  now rewrite andb_false_r.
Qed.

Lemma formatJsonBestEffort_position_out_of_range_witness :
  formatJsonBestEffort (JS.lit "[1, 2]") (Some 7)
  = formatJsonBestEffort (JS.lit "[1, 2]") None.
Proof.
  apply (formatJsonBestEffort_position_out_of_range (JS.lit "[1, 2]") 7).
  right. vm_compute. reflexivity.
Defined.

(** X22: without an error position the sentinel is never inserted, yet the
    result carries a highlight exactly when the input itself holds a NUL
    character, which the final [indexOf] takes for the sentinel. *)
Theorem formatJsonBestEffort_highlight_without_position (raw : jsstring) :
  exists r, formatJsonBestEffort raw None = Returns r
            /\ (highlight r = None <-> ~ In 0%N raw).
Proof.
  destruct (formatJsonBestEffort_copied is_nul is_nul_kills raw None) as (w & -> & Hw).
  eexists; split; [reflexivity|]. cbn [highlight].
  destruct Hw as [Hw | (He & _)]; [|congruence].
  assert (Hin : In 0%N w <-> In 0%N raw) by (now rewrite !filter_is_nul_in, Hw).
  rewrite <- Hin, <- (indexOf_single 0%N w). unfold sentinel.
  destruct (0 <=? JS.indexOf w [0%N] 0); split; congruence.
Qed.

End ReformatterCharacters.

Section NavigationMore.

Import App.

Lemma rem_wrap (k n : Z) : 0 < n -> Z.rem (Z.rem k n + n) n = k mod n.
Proof.
  intros Hn.
  assert (Hb : - n < Z.rem k n < n).
  { destruct (Z.le_ge_cases 0 k) as [Hk|Hk].
    - pose proof (Z.rem_bound_pos k n Hk Hn). lia.
    - pose proof (Z.rem_bound_pos_neg k n Hn Hk). lia. }
  rewrite Z.rem_mod_nonneg by lia.
  replace (Z.rem k n + n) with (Z.rem k n + 1 * n) by lia.
  rewrite Z.mod_add by lia.
  pose proof (Z.quot_rem' k n) as Hq.
  replace (Z.rem k n) with (k + (- (k ÷ n)) * n) by lia.
  apply Z.mod_add. lia.
Qed.

Lemma length_pos {A : Type} (l : list A) : l <> [] -> 0 < Z.of_nat (List.length l).
Proof. destruct l; [congruence|]. intros _. cbn [List.length]. lia. Qed.

Lemma gotoFindIndex_returns (nextIndex : Z) (st : FindState) :
  findMatches st <> [] ->
  exists m,
    nth_error (findMatches st)
      (Z.to_nat (nextIndex mod Z.of_nat (List.length (findMatches st)))) = Some m
    /\ gotoFindIndex nextIndex st
       = Returns (mkFindState (findMatches st)
                    (nextIndex mod Z.of_nat (List.length (findMatches st)))
                    (option_map (fun _ => (FindMatches.start m, FindMatches.end_ m))
                       (textarea st))).
Proof.
  intros Hne. pose proof (length_pos _ Hne) as Hn.
  pose proof (Z.mod_pos_bound nextIndex _ Hn) as Hk.
  unfold gotoFindIndex. cbn zeta.
  destruct (Z.eqb_spec (Z.of_nat (List.length (findMatches st))) 0); [lia|].
  rewrite rem_wrap by exact Hn. cbn [findMatches textarea].
  unfold JS.get_index.
  destruct (Z.ltb_spec (nextIndex mod Z.of_nat (List.length (findMatches st))) 0); [lia|].
  destruct (nth_error (findMatches st)
              (Z.to_nat (nextIndex mod Z.of_nat (List.length (findMatches st)))))
    as [m|] eqn:E; [|apply nth_error_None in E; lia].
  exists m. split; [reflexivity|]. now destruct (textarea st).
Qed.

(** X23: with at least one match, [gotoFindIndex] never fails, whatever
    integer it is given: the new active index is that integer modulo the
    number of matches, it names a match of the unchanged list, a mounted
    textarea gets exactly that match as its selection, and the effect that
    re-validates the index leaves the new state alone. *)
Theorem gotoFindIndex_lands_on_match (nextIndex : Z) (st : FindState) :
  findMatches st <> [] ->
  exists st' m,
    gotoFindIndex nextIndex st = Returns st'
    /\ findMatches st' = findMatches st
    /\ activeFindIndex st' = nextIndex mod Z.of_nat (List.length (findMatches st))
    /\ 0 <= activeFindIndex st' < Z.of_nat (List.length (findMatches st))
    /\ nth_error (findMatches st) (Z.to_nat (activeFindIndex st')) = Some m
    /\ textarea st'
       = option_map (fun _ => (FindMatches.start m, FindMatches.end_ m)) (textarea st)
    /\ syncActiveIndex st' = st'.
Proof.
  intros Hne. pose proof (length_pos _ Hne) as Hn.
  pose proof (Z.mod_pos_bound nextIndex _ Hn) as Hk.
  destruct (gotoFindIndex_returns nextIndex st Hne) as (m & Hm & ->).
  eexists; exists m. split; [reflexivity|]. cbn [findMatches activeFindIndex textarea].
  repeat split; try assumption; try lia.
  unfold syncActiveIndex. cbn [findMatches activeFindIndex].
  destruct (Z.eqb_spec (Z.of_nat (List.length (findMatches st))) 0); [lia|].
  destruct (Z.leb_spec 0 (nextIndex mod Z.of_nat (List.length (findMatches st)))); [|lia].
  destruct (Z.ltb_spec (nextIndex mod Z.of_nat (List.length (findMatches st)))
              (Z.of_nat (List.length (findMatches st)))); [reflexivity|lia].
Qed.

Lemma gotoFindIndex_lands_on_match_witness :
  exists st' m,
    gotoFindIndex (-4)
      (mkFindState [FindMatches.mkMatch 0 2; FindMatches.mkMatch 5 7;
                    FindMatches.mkMatch 9 11] 0 (Some (0, 0))) = Returns st'
    /\ findMatches st'
       = [FindMatches.mkMatch 0 2; FindMatches.mkMatch 5 7; FindMatches.mkMatch 9 11]
    /\ activeFindIndex st' = (-4) mod 3
    /\ 0 <= activeFindIndex st' < 3
    /\ nth_error [FindMatches.mkMatch 0 2; FindMatches.mkMatch 5 7;
                  FindMatches.mkMatch 9 11] (Z.to_nat (activeFindIndex st')) = Some m
    /\ textarea st' = Some (FindMatches.start m, FindMatches.end_ m)
    /\ syncActiveIndex st' = st'.
Proof.
  apply (gotoFindIndex_lands_on_match (-4)
           (mkFindState [FindMatches.mkMatch 0 2; FindMatches.mkMatch 5 7;
                         FindMatches.mkMatch 9 11] 0 (Some (0, 0)))).
  simpl. discriminate.
Defined.

Lemma gotoNextMatch_returns (st : FindState) :
  0 <= activeFindIndex st < Z.of_nat (List.length (findMatches st)) ->
  exists ta,
    gotoNextMatch st
    = Returns (mkFindState (findMatches st)
                 ((activeFindIndex st + 1) mod Z.of_nat (List.length (findMatches st))) ta).
Proof.
  intros Ha. unfold gotoNextMatch.
  destruct (Z.eqb_spec (Z.of_nat (List.length (findMatches st))) 0); [lia|].
  destruct (Z.ltb_spec (activeFindIndex st) 0); [lia|].
  assert (Hne : findMatches st <> []).
  { intros E. rewrite E in Ha. cbn in Ha. lia. }
  destruct (gotoFindIndex_returns (activeFindIndex st + 1) st Hne) as (m & _ & ->).
  eexists; reflexivity.
Qed.

Lemma gotoPrevMatch_returns (st : FindState) :
  0 <= activeFindIndex st < Z.of_nat (List.length (findMatches st)) ->
  exists ta,
    gotoPrevMatch st
    = Returns (mkFindState (findMatches st)
                 ((activeFindIndex st - 1) mod Z.of_nat (List.length (findMatches st))) ta).
Proof.
  intros Ha. unfold gotoPrevMatch.
  destruct (Z.eqb_spec (Z.of_nat (List.length (findMatches st))) 0); [lia|].
  destruct (Z.ltb_spec (activeFindIndex st) 0); [lia|].
  assert (Hne : findMatches st <> []).
  { intros E. rewrite E in Ha. cbn in Ha. lia. }
  destruct (gotoFindIndex_returns (activeFindIndex st - 1) st Hne) as (m & _ & ->).
  eexists; reflexivity.
Qed.

(** X24: from a valid active index, [gotoNextMatch] followed by
    [gotoPrevMatch] comes back to the same match, and so does
    [gotoPrevMatch] followed by [gotoNextMatch], wrap-around included. *)
Theorem gotoNextMatch_gotoPrevMatch_round_trip (st : FindState) :
  0 <= activeFindIndex st < Z.of_nat (List.length (findMatches st)) ->
  (exists st1 st2,
      gotoNextMatch st = Returns st1 /\ gotoPrevMatch st1 = Returns st2
      /\ findMatches st2 = findMatches st /\ activeFindIndex st2 = activeFindIndex st)
  /\ (exists st1 st2,
        gotoPrevMatch st = Returns st1 /\ gotoNextMatch st1 = Returns st2
        /\ findMatches st2 = findMatches st /\ activeFindIndex st2 = activeFindIndex st).
Proof.
  intros Ha.
  assert (Hn : 0 < Z.of_nat (List.length (findMatches st))) by lia.
  split.
  - destruct (gotoNextMatch_returns st Ha) as (ta1 & E1).
    pose proof (Z.mod_pos_bound (activeFindIndex st + 1) _ Hn) as Hb.
    destruct (gotoPrevMatch_returns
                (mkFindState (findMatches st)
                   ((activeFindIndex st + 1) mod Z.of_nat (List.length (findMatches st)))
                   ta1) Hb) as (ta2 & E2).
    do 2 eexists. split; [exact E1|]. split; [exact E2|].
    cbn [findMatches activeFindIndex]. split; [reflexivity|].
    rewrite Zminus_mod_idemp_l.
    replace (activeFindIndex st + 1 - 1) with (activeFindIndex st) by lia.
    apply Z.mod_small. lia.
  - destruct (gotoPrevMatch_returns st Ha) as (ta1 & E1).
    pose proof (Z.mod_pos_bound (activeFindIndex st - 1) _ Hn) as Hb.
    destruct (gotoNextMatch_returns
                (mkFindState (findMatches st)
                   ((activeFindIndex st - 1) mod Z.of_nat (List.length (findMatches st)))
                   ta1) Hb) as (ta2 & E2).
    do 2 eexists. split; [exact E1|]. split; [exact E2|].
    cbn [findMatches activeFindIndex]. split; [reflexivity|].
    rewrite Zplus_mod_idemp_l.
    replace (activeFindIndex st - 1 + 1) with (activeFindIndex st) by lia.
    apply Z.mod_small. lia.
Qed.

Lemma gotoNextMatch_gotoPrevMatch_round_trip_witness :
  (exists st1 st2,
      gotoNextMatch (mkFindState [FindMatches.mkMatch 0 2; FindMatches.mkMatch 5 7] 1
                       (Some (5, 7))) = Returns st1
      /\ gotoPrevMatch st1 = Returns st2
      /\ findMatches st2 = [FindMatches.mkMatch 0 2; FindMatches.mkMatch 5 7]
      /\ activeFindIndex st2 = 1)
  /\ (exists st1 st2,
        gotoPrevMatch (mkFindState [FindMatches.mkMatch 0 2; FindMatches.mkMatch 5 7] 1
                         (Some (5, 7))) = Returns st1
        /\ gotoNextMatch st1 = Returns st2
        /\ findMatches st2 = [FindMatches.mkMatch 0 2; FindMatches.mkMatch 5 7]
        /\ activeFindIndex st2 = 1).
Proof.
  apply (gotoNextMatch_gotoPrevMatch_round_trip
           (mkFindState [FindMatches.mkMatch 0 2; FindMatches.mkMatch 5 7] 1
              (Some (5, 7)))).
  simpl. lia.
Defined.

(** X25: the effect that follows the number of matches keeps the match
    list, sets the active index to -1 when there is no match and to a
    valid index otherwise, keeps an index that is already valid, changes
    nothing when run again, and agrees with the reset of [closeFind]. *)
Theorem syncActiveIndex_valid (st : FindState) :
  findMatches (syncActiveIndex st) = findMatches st
  /\ textarea (syncActiveIndex st) = textarea st
  /\ (findMatches st = [] -> activeFindIndex (syncActiveIndex st) = -1)
  /\ (findMatches st <> [] ->
      0 <= activeFindIndex (syncActiveIndex st) < Z.of_nat (List.length (findMatches st)))
  /\ (0 <= activeFindIndex st < Z.of_nat (List.length (findMatches st)) ->
      syncActiveIndex st = st)
  /\ syncActiveIndex (syncActiveIndex st) = syncActiveIndex st
  /\ syncActiveIndex (closeFind st) = closeFind st.
Proof.
  destruct st as [ms a ta]. unfold syncActiveIndex, closeFind.
  cbn [findMatches activeFindIndex textarea List.length].
  destruct ms as [|m ms].
  - cbn. repeat split; try reflexivity; try congruence; lia.
  - destruct (Z.eqb_spec (Z.of_nat (List.length (m :: ms))) 0) as [E|_];
      [cbn [List.length] in E; lia|].
    destruct (Z.leb_spec 0 a), (Z.ltb_spec a (Z.of_nat (List.length (m :: ms))));
      cbn [andb findMatches activeFindIndex textarea];
      rewrite ?Z.eqb_refl; cbn [List.length] in *;
      repeat split; try reflexivity; try discriminate; try lia.
      all: try (destruct (Z.eqb_spec (Z.of_nat (S (List.length ms))) 0); [lia|]).
      all: try (destruct (Z.leb_spec 0 a); [|lia]).
      all: try (destruct (Z.ltb_spec a (Z.of_nat (S (List.length ms)))); [|lia]).
      all: try reflexivity.
      all: try (destruct (Z.ltb_spec 0 (Z.of_nat (S (List.length ms)))); [|lia]).
      all: try reflexivity.
Qed.

End NavigationMore.
